(** * MediaMix Hub: the catalog store and the gallery controller

    A shallow embedding of [frontend/app.js]: the mock backend
    ([MockBackendAPI]: [init], [loadFromStorage], [saveToStorage],
    [createMedia], [getMedia], [updateMedia], [deleteMedia]), the helpers of
    [Utils] the handlers call, and the command handlers ([handleUpload],
    [handleSaveEdit], [handleDelete], [openEditModal], [closeEditModal],
    [renderGallery]); and with them the start of the page, [escapeHtml] and
    [Utils.getFileIcon].

    The browser is part of the model: JavaScript values, strings as
    sequences of UTF-16 code units, [JSON.stringify] and [JSON.parse],
    and a [localStorage] with a quota.  The program is written in a small
    state-and-exception monad over the whole world (application state, form
    fields, storage, and a trace of what was called).

    What the model leaves out:
    - the timers that only delay an operation: every operation runs from
      its first statement after the delay to its end without yielding;
    - the clock and the random generator: what an operation reads of them
      is an argument ([Env]), and [confirm]'s answer is an argument too;
    - the page: the elements the handlers use exist, and what is drawn is
      an event of the trace;
    - floating point: a number is an integer, and a number read from a JSON
      text with a fraction or an exponent is kept as its literal; so
      [Utils.formatFileSize] and the sizes [handleFileSelect] shows are not
      embedded, nor is [Utils.formatDate], which depends on the locale and
      the time zone of the browser, nor the cards and the view that are
      built with them;
    - the order in which an object enumerates keys that look like array
      indices (JavaScript lists them first). *)

From Stdlib Require Import List NArith ZArith Lia Bool String Ascii.
From Stdlib Require Import DecimalFacts DecimalPos DecimalN.
From stdpp Require Import base list.
Import ListNotations.

Local Open Scope N_scope.
Local Open Scope list_scope.

(** * The program and its world *)

(** ** Strings

    A JavaScript string is a sequence of UTF-16 code units; [length] of the
    list is the string's [.length]. *)

Definition jstring := list N.

(** The string of a literal of the source (characters below 128). *)
Definition js (s : string) : jstring :=
  List.map N_of_ascii (list_ascii_of_string s).

(** The same, a single quote standing for a double quote (for JSON texts). *)
Definition jsq (s : string) : jstring :=
  List.map (fun c => if c =? 39 then 34 else c) (js s).

(** [a === b] on strings. *)
Fixpoint jstring_eqb (a b : jstring) : bool :=
  match a, b with
  | [], [] => true
  | c :: a', d :: b' => (c =? d) && jstring_eqb a' b'
  | _, _ => false
  end.

(** [String.prototype.startsWith]. *)
Fixpoint startsWith (s p : jstring) {struct p} : bool :=
  match p, s with
  | [], _ => true
  | c :: p', d :: s' => (c =? d) && startsWith s' p'
  | _ :: _, [] => false
  end.

(** [Array.prototype.includes] on an array of strings. *)
Definition includes (l : list jstring) (s : jstring) : bool :=
  existsb (jstring_eqb s) l.

(** [String.prototype.substr(start)] with a start inside the string or past
    its end. *)
Definition substr (start : nat) (s : jstring) : jstring := drop start s.

(** The code units [String.prototype.trim] strips: ECMAScript's WhiteSpace
    and LineTerminator. *)
Definition is_js_whitespace (c : N) : bool :=
  (c =? 9) || (c =? 10) || (c =? 11) || (c =? 12) || (c =? 13) || (c =? 32)
  || (c =? 160) || (c =? 5760) || ((8192 <=? c) && (c <=? 8202))
  || (c =? 8232) || (c =? 8233) || (c =? 8239) || (c =? 8287)
  || (c =? 12288) || (c =? 65279).

(** [String.prototype.trimStart] and [String.prototype.trim]. *)
Fixpoint trimStart (s : jstring) : jstring :=
  match s with
  | c :: s' => if is_js_whitespace c then trimStart s' else s
  | [] => []
  end.

Definition trim (s : jstring) : jstring :=
  rev (trimStart (rev (trimStart s))).

(** ** Values

    The JavaScript values the program handles.  A number is an integer
    ([VNum]); a number written in a JSON text with a fraction or an exponent
    is kept as its literal ([VReal]) and never computed with.  An object is
    its own properties in insertion order, keys distinct. *)

#[warnings="-register-all"]
Inductive value : Type :=
  | VUndefined
  | VNull
  | VBool (b : bool)
  | VNum (z : Z)
  | VReal (lit : jstring)
  | VStr (s : jstring)
  | VArr (l : list value)
  | VObj (o : list (jstring * value)).

Definition object := list (jstring * value).

(** Is every digit of the literal a zero?  (The literal of a zero.) *)
Fixpoint literal_is_zero (lit : jstring) : bool :=
  match lit with
  | [] => true
  | c :: lit' =>
      if (c =? 101) || (c =? 69) then true
      else negb ((49 <=? c) && (c <=? 57)) && literal_is_zero lit'
  end.

(** ToBoolean. *)
Definition truthy (v : value) : bool :=
  match v with
  | VUndefined | VNull => false
  | VBool b => b
  | VNum z => negb (z =? 0)%Z
  | VReal lit => negb (literal_is_zero lit)
  | VStr s => match s with [] => false | _ :: _ => true end
  | VArr _ | VObj _ => true
  end.

(** [a || b]. *)
Definition js_or (a b : value) : value := if truthy a then a else b.

(** Own property lookup in an object. *)
Fixpoint obj_get (k : jstring) (o : object) : value :=
  match o with
  | [] => VUndefined
  | (k', v) :: o' => if jstring_eqb k k' then v else obj_get k o'
  end.

(** [o[k] = v] on an object: an existing key keeps its place, a new key goes
    last. *)
Fixpoint obj_set (k : jstring) (v : value) (o : object) : object :=
  match o with
  | [] => [(k, v)]
  | (k', v') :: o' =>
      if jstring_eqb k k' then (k, v) :: o' else (k', v') :: obj_set k v o'
  end.

(** Properties are written one after the other, as an object literal, a
    spread and [JSON.parse] do. *)
Definition obj_assign (o : object) (props : list (jstring * value)) : object :=
  fold_left (fun acc kv => obj_set kv.1 kv.2 acc) props o.

(** Errors a statement can throw: the engine's ([TypeError], [SyntaxError]),
    the storage's ([QuotaExceededError], [SecurityError]) and the program's
    own [new Error(message)]. *)
Inductive exn : Type :=
  | TypeError
  | SyntaxError
  | QuotaExceededError
  | SecurityError
  | Error (message : string).

(** [v.k]: reading a property of [undefined] or [null] throws; a primitive
    or an array has none of the properties the program reads. *)
Definition get_prop (v : value) (k : jstring) : exn + value :=
  match v with
  | VUndefined | VNull => inl TypeError
  | VObj o => inr (obj_get k o)
  | _ => inr VUndefined
  end.

(** ** JSON.stringify

    The text [JSON.stringify(v)] returns, without indentation.  A string is
    quoted as QuoteJSONString does: the short escapes, [\uXXXX] in lower-case
    hexadecimal for the other control characters and for a surrogate that
    has no partner, everything else as it is. *)

(** The character of a hexadecimal digit, and [\uXXXX]. *)
Definition hex_digit (n : N) : N := if n <? 10 then 48 + n else 87 + n.

Definition unicode_escape (c : N) : jstring :=
  [92; 117; hex_digit (c / 4096 mod 16); hex_digit (c / 256 mod 16);
   hex_digit (c / 16 mod 16); hex_digit (c mod 16)].

Definition is_high_surrogate (c : N) : bool := (55296 <=? c) && (c <=? 56319).
Definition is_low_surrogate (c : N) : bool := (56320 <=? c) && (c <=? 57343).

Fixpoint quote_units (s : jstring) : jstring :=
  match s with
  | [] => []
  | c :: s' =>
      if c =? 34 then 92 :: 34 :: quote_units s'
      else if c =? 92 then 92 :: 92 :: quote_units s'
      else if c =? 8 then 92 :: 98 :: quote_units s'
      else if c =? 12 then 92 :: 102 :: quote_units s'
      else if c =? 10 then 92 :: 110 :: quote_units s'
      else if c =? 13 then 92 :: 114 :: quote_units s'
      else if c =? 9 then 92 :: 116 :: quote_units s'
      else if c <? 32 then unicode_escape c ++ quote_units s'
      else if is_high_surrogate c then
        match s' with
        | d :: s'' =>
            if is_low_surrogate d then c :: d :: quote_units s''
            else unicode_escape c ++ quote_units s'
        | [] => unicode_escape c
        end
      else if is_low_surrogate c then unicode_escape c ++ quote_units s'
      else c :: quote_units s'
  end.

(** QuoteJSONString. *)
Definition quote (s : jstring) : jstring := 34 :: quote_units s ++ [34].

(** Decimal digits, most significant first. *)
Fixpoint uint_units (d : Decimal.uint) : jstring :=
  match d with
  | Decimal.Nil => []
  | Decimal.D0 d' => 48 :: uint_units d'
  | Decimal.D1 d' => 49 :: uint_units d'
  | Decimal.D2 d' => 50 :: uint_units d'
  | Decimal.D3 d' => 51 :: uint_units d'
  | Decimal.D4 d' => 52 :: uint_units d'
  | Decimal.D5 d' => 53 :: uint_units d'
  | Decimal.D6 d' => 54 :: uint_units d'
  | Decimal.D7 d' => 55 :: uint_units d'
  | Decimal.D8 d' => 56 :: uint_units d'
  | Decimal.D9 d' => 57 :: uint_units d'
  end.

(** A natural number in decimal. *)
Definition N_text (n : N) : jstring := uint_units (N.to_uint n).

(** Number::toString of an integer of 22 digits or more: the digits up to
    the last one that is not a zero, a point after the first, and the
    exponent. *)
Fixpoint drop_zeros (ds : jstring) : jstring :=
  match ds with
  | c :: ds' => if c =? 48 then drop_zeros ds' else ds
  | [] => []
  end.

Definition strip_trailing_zeros (ds : jstring) : jstring :=
  rev (drop_zeros (rev ds)).

Definition exponent_text (n : N) : jstring :=
  let ds := N_text n in
  let e := N_text (N.of_nat (length ds - 1)) in
  match strip_trailing_zeros ds with
  | [] => ds
  | [d] => d :: 101 :: 43 :: e
  | d :: more => d :: 46 :: more ++ 101 :: 43 :: e
  end.

Definition ten_to_21 : N := 1000000000000000000000.

(** Number::toString of an integer. *)
Definition number_text (z : Z) : jstring :=
  let n := Z.abs_N z in
  let body := if n <? ten_to_21 then N_text n else exponent_text n in
  if (z <? 0)%Z then 45 :: body else body.

Definition null_text : jstring := Eval cbv in js "null".
Definition true_text : jstring := Eval cbv in js "true".
Definition false_text : jstring := Eval cbv in js "false".

(** [join sep] of the pieces. *)
Fixpoint join_with (sep : N) (pieces : list jstring) : jstring :=
  match pieces with
  | [] => []
  | [p] => p
  | p :: more => p ++ sep :: join_with sep more
  end.

(** SerializeJSONProperty: [None] is the result [undefined].  In an array
    an element without a text is written [null]; in an object a property
    without a text is left out. *)
Fixpoint JSON_text (v : value) : option jstring :=
  match v with
  | VUndefined => None
  | VNull => Some null_text
  | VBool b => Some (if b then true_text else false_text)
  | VNum z => Some (number_text z)
  | VReal lit => Some lit
  | VStr s => Some (quote s)
  | VArr l =>
      Some (91 :: join_with 44
              ((fix elements (l : list value) : list jstring :=
                  match l with
                  | [] => []
                  | x :: l' => default null_text (JSON_text x) :: elements l'
                  end) l) ++ [93])
  | VObj o =>
      Some (123 :: join_with 44
              ((fix members (o : object) : list jstring :=
                  match o with
                  | [] => []
                  | (k, x) :: o' =>
                      match JSON_text x with
                      | Some t => (quote k ++ 58 :: t) :: members o'
                      | None => members o'
                      end
                  end) o) ++ [125])
  end.

Definition undefined_text : jstring := Eval cbv in js "undefined".

(** [JSON.stringify(v)] where a string is wanted: [localStorage.setItem]
    turns its argument into a string, [undefined] into the text
    [undefined]. *)
Definition JSON_stringify (v : value) : jstring :=
  default undefined_text (JSON_text v).

(** ** JSON.parse

    A recursive-descent reader of the JSON grammar.  The recursion on nested
    values is bounded by a fuel that [JSON_parse] sets from the length of the
    text. *)

(** JSON's white space: space, tab, line feed, carriage return. *)
Definition is_json_ws (c : N) : bool :=
  (c =? 32) || (c =? 9) || (c =? 10) || (c =? 13).

Fixpoint skip_ws (s : jstring) : jstring :=
  match s with
  | c :: s' => if is_json_ws c then skip_ws s' else s
  | [] => []
  end.

Definition is_digit (c : N) : bool := (48 <=? c) && (c <=? 57).

Definition hex_value (c : N) : option N :=
  if is_digit c then Some (c - 48)
  else if (97 <=? c) && (c <=? 102) then Some (c - 87)
  else if (65 <=? c) && (c <=? 70) then Some (c - 55)
  else None.

(** The character a two-character escape stands for. *)
Definition escaped_unit (e : N) : option N :=
  if (e =? 34) || (e =? 92) || (e =? 47) then Some e
  else if e =? 98 then Some 8
  else if e =? 102 then Some 12
  else if e =? 110 then Some 10
  else if e =? 114 then Some 13
  else if e =? 116 then Some 9
  else None.

(** The rest of a string after its opening quote: the string, and what
    follows its closing quote. *)
Fixpoint parse_string_body (s : jstring) : option (jstring * jstring) :=
  match s with
  | [] => None
  | c :: r =>
      if c =? 34 then Some ([], r)
      else if c =? 92 then
        match r with
        | [] => None
        | e :: r1 =>
            if e =? 117 then
              match r1 with
              | h1 :: h2 :: h3 :: h4 :: r2 =>
                  match hex_value h1, hex_value h2, hex_value h3, hex_value h4 with
                  | Some a, Some b, Some c', Some d =>
                      match parse_string_body r2 with
                      | Some (t, rest) =>
                          Some ((a * 4096 + b * 256 + c' * 16 + d) :: t, rest)
                      | None => None
                      end
                  | _, _, _, _ => None
                  end
              | _ => None
              end
            else
              match escaped_unit e with
              | Some u =>
                  match parse_string_body r1 with
                  | Some (t, rest) => Some (u :: t, rest)
                  | None => None
                  end
              | None => None
              end
        end
      else if c <? 32 then None
      else
        match parse_string_body r with
        | Some (t, rest) => Some (c :: t, rest)
        | None => None
        end
  end.

Fixpoint span_digits (s : jstring) : jstring * jstring :=
  match s with
  | c :: s' =>
      if is_digit c then let (ds, r) := span_digits s' in (c :: ds, r)
      else ([], s)
  | [] => ([], [])
  end.

Fixpoint units_uint (ds : jstring) : Decimal.uint :=
  match ds with
  | [] => Decimal.Nil
  | c :: ds' =>
      let d := units_uint ds' in
      if c =? 48 then Decimal.D0 d
      else if c =? 49 then Decimal.D1 d
      else if c =? 50 then Decimal.D2 d
      else if c =? 51 then Decimal.D3 d
      else if c =? 52 then Decimal.D4 d
      else if c =? 53 then Decimal.D5 d
      else if c =? 54 then Decimal.D6 d
      else if c =? 55 then Decimal.D7 d
      else if c =? 56 then Decimal.D8 d
      else Decimal.D9 d
  end.

(** The integer part: a single [0], or digits that do not start with [0]. *)
Definition parse_int_part (s : jstring) : option (jstring * jstring) :=
  match s with
  | [] => None
  | c :: r =>
      if c =? 48 then Some ([48], r)
      else if is_digit c then Some (span_digits s)
      else None
  end.

(** The fraction, when there is one: the point and at least one digit. *)
Definition parse_frac_part (s : jstring) : option (jstring * jstring) :=
  match s with
  | c :: r =>
      if c =? 46 then
        match span_digits r with
        | ([], _) => None
        | (fs, r') => Some (46 :: fs, r')
        end
      else Some ([], s)
  | [] => Some ([], [])
  end.

(** The exponent, when there is one: [e] or [E], a sign or none, and at
    least one digit. *)
Definition parse_exp_part (s : jstring) : option (jstring * jstring) :=
  match s with
  | c :: r =>
      if (c =? 101) || (c =? 69) then
        let (sign, r1) :=
          match r with
          | d :: r' => if (d =? 43) || (d =? 45) then ([d], r') else ([], r)
          | [] => ([], [])
          end in
        match span_digits r1 with
        | ([], _) => None
        | (es, r2) => Some (c :: sign ++ es, r2)
        end
      else Some ([], s)
  | [] => Some ([], [])
  end.

(** A number after its sign. *)
Definition parse_magnitude (neg : bool) (s1 : jstring)
  : option (value * jstring) :=
  match parse_int_part s1 with
  | None => None
  | Some (ds, s2) =>
      match parse_frac_part s2 with
      | None => None
      | Some (fs, s3) =>
          match parse_exp_part s3 with
          | None => None
          | Some (es, s4) =>
              match fs, es with
              | [], [] =>
                  let n := Z.of_N (N.of_uint (units_uint ds)) in
                  Some (VNum (if neg then - n else n)%Z, s4)
              | _, _ =>
                  Some (VReal ((if neg then [45] else []) ++ ds ++ fs ++ es), s4)
              end
          end
      end
  end.

Definition parse_number (s : jstring) : option (value * jstring) :=
  match s with
  | c :: r => if c =? 45 then parse_magnitude true r else parse_magnitude false s
  | [] => None
  end.

(** One value, given how to read the elements of an array and the members
    of an object. *)
Definition parse_value_step
    (elements : jstring -> option (list value * jstring))
    (members : jstring -> option (list (jstring * value) * jstring))
    (s : jstring) : option (value * jstring) :=
  match skip_ws s with
  | [] => None
  | c :: r =>
      if c =? 34 then
        match parse_string_body r with
        | Some (t, rest) => Some (VStr t, rest)
        | None => None
        end
      else if c =? 91 then
        match skip_ws r with
        | d :: r' =>
            if d =? 93 then Some (VArr [], r')
            else
              match elements r with
              | Some (l, rest) => Some (VArr l, rest)
              | None => None
              end
        | [] => None
        end
      else if c =? 123 then
        match skip_ws r with
        | d :: r' =>
            if d =? 125 then Some (VObj [], r')
            else
              match members r with
              | Some (o, rest) => Some (VObj (obj_assign [] o), rest)
              | None => None
              end
        | [] => None
        end
      else if startsWith (c :: r) null_text then Some (VNull, drop 4 (c :: r))
      else if startsWith (c :: r) true_text then
        Some (VBool true, drop 4 (c :: r))
      else if startsWith (c :: r) false_text then
        Some (VBool false, drop 5 (c :: r))
      else if (c =? 45) || is_digit c then parse_number (c :: r)
      else None
  end.

(** The elements of an array after the first: a comma and more, or the
    closing bracket. *)
Definition parse_elements_step
    (one : jstring -> option (value * jstring))
    (more : jstring -> option (list value * jstring))
    (s : jstring) : option (list value * jstring) :=
  match one s with
  | None => None
  | Some (v, r) =>
      match skip_ws r with
      | c :: r' =>
          if c =? 44 then
            match more r' with
            | Some (l, rest) => Some (v :: l, rest)
            | None => None
            end
          else if c =? 93 then Some ([v], r')
          else None
      | [] => None
      end
  end.

(** The members of an object: a key, a colon, a value, and a comma and
    more, or the closing brace. *)
Definition parse_members_step
    (one : jstring -> option (value * jstring))
    (more : jstring -> option (list (jstring * value) * jstring))
    (s : jstring) : option (list (jstring * value) * jstring) :=
  match skip_ws s with
  | q :: r0 =>
      if q =? 34 then
        match parse_string_body r0 with
        | None => None
        | Some (k, r1) =>
            match skip_ws r1 with
            | colon :: r2 =>
                if colon =? 58 then
                  match one r2 with
                  | None => None
                  | Some (v, r3) =>
                      match skip_ws r3 with
                      | c :: r4 =>
                          if c =? 44 then
                            match more r4 with
                            | Some (o, rest) => Some ((k, v) :: o, rest)
                            | None => None
                            end
                          else if c =? 125 then Some ([(k, v)], r4)
                          else None
                      | [] => None
                      end
                  end
                else None
            | [] => None
            end
        end
      else None
  | [] => None
  end.

Fixpoint parse_value (fuel : nat) (s : jstring) : option (value * jstring) :=
  match fuel with
  | O => None
  | S fuel' =>
      parse_value_step (parse_elements fuel') (parse_members fuel') s
  end

with parse_elements (fuel : nat) (s : jstring)
  : option (list value * jstring) :=
  match fuel with
  | O => None
  | S fuel' =>
      parse_elements_step (parse_value fuel') (parse_elements fuel') s
  end

with parse_members (fuel : nat) (s : jstring)
  : option (list (jstring * value) * jstring) :=
  match fuel with
  | O => None
  | S fuel' =>
      parse_members_step (parse_value fuel') (parse_members fuel') s
  end.

(** [JSON.parse(text)]: [None] is a SyntaxError.  One value, and nothing
    but white space after it. *)
Definition JSON_parse (text : jstring) : option value :=
  match parse_value (2 * length text + 2) text with
  | Some (v, rest) =>
      match skip_ws rest with
      | [] => Some v
      | _ :: _ => None
      end
  | None => None
  end.

(** ToString, as a template literal and an input's [value] apply it. *)
Definition object_text : jstring := Eval cbv in js "[object Object]".

Fixpoint ToString (v : value) : jstring :=
  match v with
  | VUndefined => undefined_text
  | VNull => null_text
  | VBool b => if b then true_text else false_text
  | VNum z => number_text z
  | VReal lit => lit
  | VStr s => s
  | VArr l =>
      join_with 44
        ((fix elements (l : list value) : list jstring :=
            match l with
            | [] => []
            | x :: l' =>
                match x with
                | VUndefined | VNull => []
                | _ => ToString x
                end :: elements l'
            end) l)
  | VObj _ => object_text
  end.

(** The code points of a string, each as the string of its code units: what
    iterating a string yields. *)
Fixpoint code_points (s : jstring) : list jstring :=
  match s with
  | [] => []
  | c :: s' =>
      if is_high_surrogate c then
        match s' with
        | d :: s'' =>
            if is_low_surrogate d then [c; d] :: code_points s''
            else [c] :: code_points s'
        | [] => [[c]]
        end
      else [c] :: code_points s'
  end.

(** The own enumerable properties a spread [...v] copies. *)
Definition spread_props (v : value) : list (jstring * value) :=
  match v with
  | VObj o => o
  | VArr l => imap (fun i x => (N_text (N.of_nat i), x)) l
  | VStr s => imap (fun i c => (N_text (N.of_nat i), VStr [c])) s
  | _ => []
  end.

(** [v === s] for a string [s]. *)
Definition strict_eq_string (v : value) (s : jstring) : bool :=
  match v with
  | VStr t => jstring_eqb t s
  | _ => false
  end.

(** ** The world

    The application state of the source ([AppState]), the form fields the
    handlers read ([DOM]), the browser's [localStorage], and a trace of the
    calls that matter to a reader of the program: storage accesses, calls of
    the mock backend, messages and renderings. *)

Record AppState : Type := {
  mediaItems : value;
  currentEditId : option jstring;
  isLoading : bool
}.

(** A [File] of the file input. *)
Record File : Type := {
  file_name : jstring;
  file_type : jstring;
  file_size : N
}.

Record DOM : Type := {
  fileInput_files0 : option File;
  descriptionInput_value : jstring;
  editDescriptionInput_value : jstring;
  editModal_show : bool
}.

(** [localStorage]: the items, the quota in code units of keys and values
    together, and the keys whose access the browser denies. *)
Record Storage : Type := {
  items : list (jstring * jstring);
  quota : N;
  denied : list jstring
}.

Inductive message_type : Type := error_message | success_message.

Inductive event : Type :=
  | GetItem (key : jstring)
  | SetItem (key : jstring)
  | CreateMedia (mediaData : value)
  | GetMedia
  | UpdateMedia (id : jstring) (updates : value)
  | DeleteMedia (id : jstring)
  | Confirm (question : jstring)
  | ShowMessage (message : jstring) (type : message_type)
  | Render (cards : list value).

Record World : Type := {
  appState : AppState;
  dom : DOM;
  localStorage : Storage;
  trace : list event
}.

Definition set_app (f : AppState -> AppState) (w : World) : World :=
  {| appState := f (appState w); dom := dom w; localStorage := localStorage w;
     trace := trace w |}.

Definition set_dom (f : DOM -> DOM) (w : World) : World :=
  {| appState := appState w; dom := f (dom w); localStorage := localStorage w;
     trace := trace w |}.

Definition set_localStorage (f : Storage -> Storage) (w : World) : World :=
  {| appState := appState w; dom := dom w; localStorage := f (localStorage w);
     trace := trace w |}.

Definition add_event (e : event) (w : World) : World :=
  {| appState := appState w; dom := dom w; localStorage := localStorage w;
     trace := trace w ++ [e] |}.

Definition set_mediaItems (v : value) (a : AppState) : AppState :=
  {| mediaItems := v; currentEditId := currentEditId a;
     isLoading := isLoading a |}.

Definition set_currentEditId (i : option jstring) (a : AppState) : AppState :=
  {| mediaItems := mediaItems a; currentEditId := i;
     isLoading := isLoading a |}.

Definition set_isLoading (b : bool) (a : AppState) : AppState :=
  {| mediaItems := mediaItems a; currentEditId := currentEditId a;
     isLoading := b |}.

(** ** The monad: state and exceptions *)

Definition M (A : Type) : Type := World -> (exn + A) * World.

Definition ret {A} (a : A) : M A := fun w => (inr a, w).

Definition throw {A} (e : exn) : M A := fun w => (inl e, w).

Definition bind {A B} (m : M A) (k : A -> M B) : M B :=
  fun w =>
    match m w with
    | (inr a, w') => k a w'
    | (inl e, w') => (inl e, w')
    end.

(** [try { m } catch (e) { handler e }]. *)
Definition try_catch {A} (m : M A) (handler : exn -> M A) : M A :=
  fun w =>
    match m w with
    | (inl e, w') => handler e w'
    | r => r
    end.

(** [try { m } finally { after }], [after] not throwing. *)
Definition try_finally {A} (m : M A) (after : M unit) : M A :=
  fun w =>
    match m w with
    | (r, w') =>
        match after w' with
        | (inl e, w'') => (inl e, w'')
        | (inr _, w'') => (r, w'')
        end
    end.

Definition get_world : M World := fun w => (inr w, w).
Definition modify (f : World -> World) : M unit := fun w => (inr tt, f w).
Definition emit (e : event) : M unit := modify (add_event e).

(** A computation of the engine that may throw. *)
Definition lift {A} (r : exn + A) : M A :=
  match r with
  | inl e => throw e
  | inr a => ret a
  end.

Declare Scope js_scope.
Delimit Scope js_scope with js.
Notation "x <- m ;; k" := (bind m (fun x => k))
  (at level 100, m at next level, k at level 200, right associativity)
  : js_scope.
Notation "m ;; k" := (bind m (fun _ => k))
  (at level 100, k at level 200, right associativity) : js_scope.
Local Open Scope js_scope.

(** ** localStorage *)

Fixpoint slot_get (k : jstring) (l : list (jstring * jstring))
  : option jstring :=
  match l with
  | [] => None
  | (k', v) :: l' => if jstring_eqb k k' then Some v else slot_get k l'
  end.

Fixpoint slot_set (k v : jstring) (l : list (jstring * jstring))
  : list (jstring * jstring) :=
  match l with
  | [] => [(k, v)]
  | (k', v') :: l' =>
      if jstring_eqb k k' then (k, v) :: l' else (k', v') :: slot_set k v l'
  end.

(** What the items take of the quota. *)
Fixpoint usage (l : list (jstring * jstring)) : N :=
  match l with
  | [] => 0
  | (k, v) :: l' => N.of_nat (length k) + N.of_nat (length v) + usage l'
  end.

Definition with_items (l : list (jstring * jstring)) (st : Storage) : Storage :=
  {| items := l; quota := quota st; denied := denied st |}.

(** [getItem] on the storage: the item or [null] ([None]), or the browser
    denies the access. *)
Definition read_item (key : jstring) (st : Storage) : exn + option jstring :=
  if includes (denied st) key then inl SecurityError
  else inr (slot_get key (items st)).

(** [setItem] on the storage: the storage with the item written, or an
    error and nothing written when the access is denied or the items would
    exceed the quota. *)
Definition write_item (key text : jstring) (st : Storage) : exn + Storage :=
  if includes (denied st) key then inl SecurityError
  else
    let written := slot_set key text (items st) in
    if quota st <? usage written then inl QuotaExceededError
    else inr (with_items written st).

Definition localStorage_getItem (key : jstring) : M (option jstring) :=
  emit (GetItem key) ;;
  w <- get_world ;;
  lift (read_item key (localStorage w)).

Definition localStorage_setItem (key text : jstring) : M unit :=
  emit (SetItem key) ;;
  w <- get_world ;;
  st <- lift (write_item key text (localStorage w)) ;;
  modify (set_localStorage (fun _ => st)).

(** ** Utils *)

(** What an operation reads of the clock and of the random generator:
    [Date.now()], the text of [Math.random().toString(36)], and the texts of
    its first and second [new Date().toISOString()]. *)
Record Env : Type := {
  clock_ms : N;
  random_36 : jstring;
  iso_first : jstring;
  iso_second : jstring
}.

Definition digit_36 (d : N) : N := if d <? 10 then 48 + d else 87 + d.

Fixpoint radix_36 (fuel : nat) (n : N) (acc : jstring) : jstring :=
  match fuel with
  | O => acc
  | S fuel' =>
      let acc' := digit_36 (n mod 36) :: acc in
      if n / 36 =? 0 then acc' else radix_36 fuel' (n / 36) acc'
  end.

(** [n.toString(36)] of a non-negative integer. *)
Definition toString_36 (n : N) : jstring :=
  radix_36 (S (N.to_nat (N.log2 n))) n [].

Module Utils.

(** [Date.now().toString(36) + Math.random().toString(36).substr(2)]. *)
Definition generateId (e : Env) : jstring :=
  toString_36 (clock_ms e) ++ substr 2 (random_36 e).

Definition getFileType (mimeType : jstring) : jstring :=
  if startsWith mimeType (js "image/") then js "image"
  else if startsWith mimeType (js "video/") then js "video"
  else if startsWith mimeType (js "audio/") then js "audio"
  else js "unknown".

(** The icons, in UTF-16: a framed picture (with its variation selector), a
    film camera, a musical note, a page. *)
Definition icon_image : jstring := [55357; 56764; 65039].
Definition icon_video : jstring := [55356; 57253].
Definition icon_audio : jstring := [55356; 57269].
Definition icon_unknown : jstring := [55357; 56516].

(** The names [Object.prototype] defines.  The object of the icons inherits
    them: [icons[name]] of one of them finds the inherited member. *)
Definition Object_prototype_names : list jstring :=
  [js "constructor"; js "hasOwnProperty"; js "isPrototypeOf";
   js "propertyIsEnumerable"; js "toLocaleString"; js "toString";
   js "valueOf"; js "__proto__"; js "__defineGetter__";
   js "__defineSetter__"; js "__lookupGetter__"; js "__lookupSetter__"].

(** [icons[fileType] || icons.unknown] for a string.  [None]: the name is
    one of [Object.prototype]'s, and what is returned is that member (a
    function, or the prototype itself), which is truthy and not a string. *)
Definition getFileIcon (fileType : jstring) : option jstring :=
  if jstring_eqb fileType (js "image") then Some icon_image
  else if jstring_eqb fileType (js "video") then Some icon_video
  else if jstring_eqb fileType (js "audio") then Some icon_audio
  else if jstring_eqb fileType (js "unknown") then Some icon_unknown
  else if includes Object_prototype_names fileType then None
  else Some icon_unknown.

Definition validTypes : list jstring :=
  [js "image/jpeg"; js "image/png"; js "image/gif"; js "image/webp";
   js "video/mp4"; js "video/webm"; js "video/ogg";
   js "audio/mp3"; js "audio/wav"; js "audio/ogg"; js "audio/mpeg"].

Definition isValidFileType (file : File) : bool :=
  includes validTypes (file_type file).

(** The message element shows the text for a while; the model records
    the message. *)
Definition showMessage (message : jstring) (type : message_type) : M unit :=
  emit (ShowMessage message type).

Definition setLoadingState (loading : bool) : M unit :=
  modify (set_app (set_isLoading loading)).

End Utils.

(** ** MockBackendAPI *)

Definition k_id : jstring := Eval cbv in js "id".
Definition k_fileName : jstring := Eval cbv in js "fileName".
Definition k_description : jstring := Eval cbv in js "description".
Definition k_uploadDate : jstring := Eval cbv in js "uploadDate".
Definition k_fileType : jstring := Eval cbv in js "fileType".
Definition k_fileSize : jstring := Eval cbv in js "fileSize".
Definition k_mediaItems : jstring := Eval cbv in js "mediaItems".
Definition k_lastUpdated : jstring := Eval cbv in js "lastUpdated".
Definition k_version : jstring := Eval cbv in js "version".
Definition version_1_0 : jstring := Eval cbv in js "1.0".

(** A method of [Array.prototype] called on [v]: [v] has it when it is an
    array. *)
Definition array_of (v : value) : exn + list value :=
  match v with
  | VArr l => inr l
  | _ => inl TypeError
  end.

(** [[...v]]: a copy of an array, the code points of a string, and a
    TypeError on everything else (not iterable). *)
Definition spread_array (v : value) : exn + value :=
  match v with
  | VArr l => inr (VArr l)
  | VStr s => inr (VArr (List.map VStr (code_points s)))
  | _ => inl TypeError
  end.

(** [l.findIndex(item => item.id === id)]: the first index whose item has
    this [id], [None] for [-1]; reading [.id] of a [null] item throws. *)
Fixpoint findIndex_id (id : jstring) (l : list value) : exn + option nat :=
  match l with
  | [] => inr None
  | item :: l' =>
      match get_prop item k_id with
      | inl e => inl e
      | inr v =>
          if strict_eq_string v id then inr (Some O)
          else
            match findIndex_id id l' with
            | inr (Some i) => inr (Some (S i))
            | r => r
            end
      end
  end.

Module MockBackendAPI.

Definition storageKey : jstring := Eval cbv in js "mediamix_hub_data".
Definition backupKey : jstring := Eval cbv in js "mediamix_hub_backup".

(** [{ mediaItems: [], version: '1.0' }]. *)
Definition empty_data : value :=
  VObj [(k_mediaItems, VArr []); (k_version, VStr version_1_0)].

(** [data ? JSON.parse(data) : { mediaItems: [], version: '1.0' }] for
    what [getItem] returned. *)
Definition parse_or_empty (data : option jstring) : M value :=
  match data with
  | Some (c :: text) =>
      match JSON_parse (c :: text) with
      | Some v => ret v
      | None => throw SyntaxError
      end
  | Some [] | None => ret empty_data
  end.

Definition loadFromStorage : M value :=
  try_catch
    (data <- localStorage_getItem storageKey ;;
     parse_or_empty data)
    (fun _ =>
       try_catch
         (backup <- localStorage_getItem backupKey ;;
          parse_or_empty backup)
         (fun _ => ret empty_data)).

(** The [console.log] that ends the [try] block reads [.length] of a
    truthy value and cannot throw. *)
Definition init : M unit :=
  try_catch
    (data <- loadFromStorage ;;
     loaded <- lift (get_prop data k_mediaItems) ;;
     modify (set_app (set_mediaItems (js_or loaded (VArr [])))))
    (fun _ => modify (set_app (set_mediaItems (VArr [])))).

Definition saveToStorage (data : value) : M unit :=
  try_catch
    (let dataString := JSON_stringify data in
     localStorage_setItem storageKey dataString ;;
     localStorage_setItem backupKey dataString)
    (fun _ => throw (Error "Storage quota exceeded or unavailable")).

(** [{ mediaItems: AppState.mediaItems, lastUpdated: ..., version: '1.0' }]
    with the catalog as it is when the object is built. *)
Definition snapshot (lastUpdated : jstring) : M value :=
  w <- get_world ;;
  ret (VObj [(k_mediaItems, mediaItems (appState w));
             (k_lastUpdated, VStr lastUpdated);
             (k_version, VStr version_1_0)]).

Definition createMedia (e : Env) (mediaData : value) : M value :=
  emit (CreateMedia mediaData) ;;
  fileName <- lift (get_prop mediaData k_fileName) ;;
  description <- lift (get_prop mediaData k_description) ;;
  fileType <- lift (get_prop mediaData k_fileType) ;;
  fileSize <- lift (get_prop mediaData k_fileSize) ;;
  let mediaItem :=
    VObj [(k_id, VStr (Utils.generateId e));
          (k_fileName, fileName);
          (k_description, description);
          (k_uploadDate, VStr (iso_first e));
          (k_fileType, fileType);
          (k_fileSize, fileSize)] in
  w <- get_world ;;
  l <- lift (array_of (mediaItems (appState w))) ;;
  modify (set_app (set_mediaItems (VArr (l ++ [mediaItem])))) ;;
  data <- snapshot (iso_second e) ;;
  saveToStorage data ;;
  ret mediaItem.

Definition getMedia : M value :=
  emit GetMedia ;;
  w <- get_world ;;
  lift (spread_array (mediaItems (appState w))).

Definition updateMedia (e : Env) (id : jstring) (updates : value)
  : M value :=
  emit (UpdateMedia id updates) ;;
  w <- get_world ;;
  l <- lift (array_of (mediaItems (appState w))) ;;
  index <- lift (findIndex_id id l) ;;
  match index with
  | None => throw (Error "Media item not found")
  | Some i =>
      let merged :=
        VObj (obj_assign []
                (spread_props (default VUndefined (l !! i))
                 ++ spread_props updates)) in
      modify (set_app (set_mediaItems (VArr (<[i := merged]> l)))) ;;
      data <- snapshot (iso_first e) ;;
      saveToStorage data ;;
      w' <- get_world ;;
      l' <- lift (array_of (mediaItems (appState w'))) ;;
      ret (default VUndefined (l' !! i))
  end.

Definition deleteMedia (e : Env) (id : jstring) : M unit :=
  emit (DeleteMedia id) ;;
  w <- get_world ;;
  l <- lift (array_of (mediaItems (appState w))) ;;
  index <- lift (findIndex_id id l) ;;
  match index with
  | None => throw (Error "Media item not found")
  | Some i =>
      modify (set_app (set_mediaItems (VArr (delete i l)))) ;;
      data <- snapshot (iso_first e) ;;
      saveToStorage data
  end.

End MockBackendAPI.

(** ** The gallery controller *)

Definition nullish (v : value) : bool :=
  match v with
  | VUndefined | VNull => true
  | _ => false
  end.

(** [DOM.uploadForm.reset()]. *)
Definition reset_uploadForm (d : DOM) : DOM :=
  {| fileInput_files0 := None;
     descriptionInput_value := [];
     editDescriptionInput_value := editDescriptionInput_value d;
     editModal_show := editModal_show d |}.

Definition set_edit (text : jstring) (shown : bool) (d : DOM) : DOM :=
  {| fileInput_files0 := fileInput_files0 d;
     descriptionInput_value := descriptionInput_value d;
     editDescriptionInput_value := text;
     editModal_show := shown |}.

(** Setting an input's [value]: [null] gives the empty string. *)
Definition input_text (v : value) : jstring :=
  match v with
  | VNull => []
  | _ => ToString v
  end.

(** The gallery is drawn from what [getMedia] returns; building the card of
    a [null] or [undefined] item throws, and the [catch] reports it. *)
Definition renderGallery : M unit :=
  try_catch
    (shown <- MockBackendAPI.getMedia ;;
     cards <- lift (array_of shown) ;;
     if existsb nullish cards then throw TypeError
     else emit (Render cards))
    (fun _ =>
       Utils.showMessage (js "Failed to load media gallery.") error_message).

Definition handleUpload (e : Env) : M unit :=
  w <- get_world ;;
  if isLoading (appState w) then ret tt
  else
    let description := trim (descriptionInput_value (dom w)) in
    match fileInput_files0 (dom w) with
    | None =>
        Utils.showMessage (js "Please select a file to upload.") error_message
    | Some file =>
        if negb (Utils.isValidFileType file) then
          Utils.showMessage
            (js "Invalid file type. Please select an image, video, or audio file.")
            error_message
        else
          match description with
          | [] =>
              Utils.showMessage
                (js "Please enter a description for your media.") error_message
          | _ :: _ =>
              if (500 <? length description)%nat then
                Utils.showMessage
                  (js "Description must be 500 characters or less.")
                  error_message
              else
                try_finally
                  (try_catch
                     (Utils.setLoadingState true ;;
                      let mediaData :=
                        VObj [(k_fileName, VStr (file_name file));
                              (k_description, VStr description);
                              (k_fileType,
                               VStr (Utils.getFileType (file_type file)));
                              (k_fileSize, VNum (Z.of_N (file_size file)))] in
                      newItem <- MockBackendAPI.createMedia e mediaData ;;
                      modify (set_dom reset_uploadForm) ;;
                      renderGallery ;;
                      fileName <- lift (get_prop newItem k_fileName) ;;
                      Utils.showMessage
                        (js "Successfully uploaded " ++ ToString fileName
                         ++ js "!")
                        success_message)
                     (fun _ =>
                        Utils.showMessage
                          (js "Upload failed. Please try again.")
                          error_message))
                  (Utils.setLoadingState false)
          end
    end.

(** [AppState.mediaItems.find(item => item.id === id)]: the item found is an
    object, or nothing is found. *)
Definition find_id (id : jstring) : M (option value) :=
  w <- get_world ;;
  l <- lift (array_of (mediaItems (appState w))) ;;
  index <- lift (findIndex_id id l) ;;
  ret (match index with
       | Some i => l !! i
       | None => None
       end).

Definition openEditModal (id : jstring) : M unit :=
  found <- find_id id ;;
  match found with
  | None => ret tt
  | Some item =>
      modify (set_app (set_currentEditId (Some id))) ;;
      description <- lift (get_prop item k_description) ;;
      modify (set_dom (set_edit (input_text description) true))
  end.

Definition closeEditModal : M unit :=
  modify (set_app (set_currentEditId None)) ;;
  modify (set_dom (set_edit [] false)).

Definition handleSaveEdit (e : Env) : M unit :=
  w <- get_world ;;
  match currentEditId (appState w) with
  | None | Some [] => ret tt
  | Some (c :: id') =>
      let newDescription := trim (editDescriptionInput_value (dom w)) in
      match newDescription with
      | [] =>
          Utils.showMessage (js "Description cannot be empty.") error_message
      | _ :: _ =>
          if (500 <? length newDescription)%nat then
            Utils.showMessage
              (js "Description must be 500 characters or less.") error_message
          else
            try_catch
              (MockBackendAPI.updateMedia e (c :: id')
                 (VObj [(k_description, VStr newDescription)]) ;;
               closeEditModal ;;
               renderGallery ;;
               Utils.showMessage (js "Description updated successfully!")
                 success_message)
              (fun _ =>
                 Utils.showMessage
                   (js "Failed to update description. Please try again.")
                   error_message)
      end
  end.

(** [answer] is what [confirm] returns. *)
Definition handleDelete (e : Env) (answer : bool) (id : jstring) : M unit :=
  found <- find_id id ;;
  match found with
  | None => ret tt
  | Some item =>
      fileName <- lift (get_prop item k_fileName) ;;
      emit (Confirm (js "Are you sure you want to delete " ++ 34 :: ToString fileName
                     ++ 34 :: js "?")) ;;
      if negb answer then ret tt
      else
        try_catch
          (MockBackendAPI.deleteMedia e id ;;
           renderGallery ;;
           Utils.showMessage (js "Media item deleted successfully!")
             success_message)
          (fun _ =>
             Utils.showMessage
               (js "Failed to delete media item. Please try again.")
               error_message)
  end.

(** ** The page: its start, and text put into it *)

(** The handler of [DOMContentLoaded]: after the elements are looked up and
    the listeners attached, [await mockAPI.init(); await renderGallery()]. *)
Definition startup : M unit :=
  MockBackendAPI.init ;;
  renderGallery.

Definition amp_text : jstring := Eval cbv in js "&amp;".
Definition nbsp_text : jstring := Eval cbv in js "&nbsp;".
Definition lt_text : jstring := Eval cbv in js "&lt;".
Definition gt_text : jstring := Eval cbv in js "&gt;".

(** What the serialization of a text node writes for a code unit: [&], the
    no-break space, [<] and [>] are escaped. *)
Definition escape_unit (c : N) : jstring :=
  if c =? 38 then amp_text
  else if c =? 160 then nbsp_text
  else if c =? 60 then lt_text
  else if c =? 62 then gt_text
  else [c].

(** [escapeHtml] of a string: the text is made the [textContent] of a new
    [div], and the [innerHTML] of the [div] is returned. *)
Definition escapeHtml (text : jstring) : jstring :=
  flat_map escape_unit text.

(** ** Values that JSON keeps

    [storable v]: [JSON.parse (JSON.stringify v)] is [v] again.  No
    [undefined] anywhere, no number kept as a literal, integers below
    [10^21] (written without an exponent), and objects with distinct keys. *)

Definition has_key (k : jstring) (o : object) : bool :=
  existsb (fun kv => jstring_eqb k kv.1) o.

Fixpoint storable (v : value) : bool :=
  match v with
  | VUndefined | VReal _ => false
  | VNull | VBool _ | VStr _ => true
  | VNum z => Z.abs_N z <? ten_to_21
  | VArr l =>
      (fix all (l : list value) : bool :=
         match l with
         | [] => true
         | x :: l' => storable x && all l'
         end) l
  | VObj o =>
      (fix all (o : object) : bool :=
         match o with
         | [] => true
         | (k, x) :: o' => negb (has_key k o') && storable x && all o'
         end) o
  end.

(** The nodes of a value, every element and member counted once more. *)
Fixpoint vsize (v : value) : nat :=
  match v with
  | VArr l =>
      S ((fix sum (l : list value) : nat :=
            match l with
            | [] => O
            | x :: l' => S (vsize x + sum l')
            end) l)
  | VObj o =>
      S ((fix sum (o : object) : nat :=
            match o with
            | [] => O
            | (_, x) :: o' => S (vsize x + sum o')
            end) o)
  | _ => 1%nat
  end.

(** * The vocabulary of the properties *)

(** ** JSON texts *)

(** What may follow a value inside a text that [JSON.stringify] wrote: the
    end, a comma, or a closing bracket or brace. *)
Definition delimited (rest : jstring) : Prop :=
  match rest with
  | [] => True
  | c :: _ => c = 44 \/ c = 93 \/ c = 125
  end.

(** The texts of the elements of an array, as [JSON_text] joins them. *)
Definition elements_text (l : list value) : list jstring :=
  List.map (fun x => default null_text (JSON_text x)) l.

(** The texts of the members of an object, as [JSON_text] joins them. *)
Fixpoint members_text (o : object) : list jstring :=
  match o with
  | [] => []
  | (k, x) :: o' =>
      match JSON_text x with
      | Some t => (quote k ++ 58 :: t) :: members_text o'
      | None => members_text o'
      end
  end.

(** The size of the elements and of the members, as [vsize] counts them. *)
Fixpoint elements_size (l : list value) : nat :=
  match l with
  | [] => O
  | x :: l' => S (vsize x + elements_size l')
  end.

Fixpoint members_size (o : object) : nat :=
  match o with
  | [] => O
  | (_, x) :: o' => S (vsize x + members_size o')
  end.

(** No key twice: what every JavaScript object satisfies. *)
Fixpoint distinct_keys (o : object) : bool :=
  match o with
  | [] => true
  | (k, _) :: o' => negb (has_key k o') && distinct_keys o'
  end.

(** The first character of the text of a value. *)
Definition value_head (c : N) : Prop :=
  c = 34 \/ c = 91 \/ c = 123 \/ c = 110 \/ c = 116 \/ c = 102 \/ c = 45
  \/ 48 <= c <= 57.

(** [v] is read back from its text, with fuel for its size, whatever
    follows. *)
Definition reads_back (v : value) : Prop :=
  storable v = true ->
  forall t, JSON_text v = Some t ->
  forall fuel rest, (vsize v <= fuel)%nat -> delimited rest ->
  parse_value fuel (t ++ rest) = Some (v, rest).

(** A reader that leaves less than it was given. *)
Definition consumes {A} (read : jstring -> option (A * jstring)) : Prop :=
  forall s a r, read s = Some (a, r) -> (length r < length s)%nat.

(** ** Base 36 *)

(** The digit a character of a base-36 text stands for. *)
Definition unit_value_36 (c : N) : N := if c <? 58 then c - 48 else c - 87.

(** The number a base-36 text stands for. *)
Definition decode_36 (l : jstring) : N :=
  fold_left (fun v c => v * 36 + unit_value_36 c) l 0.

(** ** The errors of the store

    The two errors the mock backend makes itself, by the message of the
    [Error]. *)

Definition StorageUnavailable : exn :=
  Error "Storage quota exceeded or unavailable".

Definition NotFound : exn := Error "Media item not found".

(** ** Snapshots and the storage *)

(** The object [saveToStorage] is given: the catalog, the time, the
    version. *)
Definition snapshot_of (catalog : value) (lastUpdated : jstring) : value :=
  VObj [(k_mediaItems, catalog); (k_lastUpdated, VStr lastUpdated);
        (k_version, VStr version_1_0)].

(** The end of a mutating operation: what [saveToStorage] throws, or the
    operation's result. *)
Definition after_save {A} (result : A) (saved : (exn + unit) * World)
  : (exn + A) * World :=
  match saved with
  | (inl err, w) => (inl err, w)
  | (inr _, w) => (inr result, w)
  end.

(** Both slots hold this text. *)
Definition stored (text : jstring) (st : Storage) : Prop :=
  read_item MockBackendAPI.storageKey st = inr (Some text)
  /\ read_item MockBackendAPI.backupKey st = inr (Some text).

(** What [getItem] and [JSON.parse] make of a slot: the parsed text, the
    empty data for an absent or empty item, or an error. *)
Definition load_item (key : jstring) (st : Storage) : exn + value :=
  match read_item key st with
  | inl err => inl err
  | inr (Some (c :: text)) =>
      match JSON_parse (c :: text) with
      | Some v => inr v
      | None => inl SyntaxError
      end
  | inr _ => inr MockBackendAPI.empty_data
  end.

(** Reading or parsing the primary slot throws. *)
Definition primary_throws (st : Storage) : bool :=
  match load_item MockBackendAPI.storageKey st with
  | inl _ => true
  | inr _ => false
  end.

(** What [loadFromStorage] returns and which slots it reads. *)
Definition load_result (st : Storage) : value * list event :=
  match load_item MockBackendAPI.storageKey st with
  | inr v => (v, [GetItem MockBackendAPI.storageKey])
  | inl _ =>
      (match load_item MockBackendAPI.backupKey st with
       | inr v => v
       | inl _ => MockBackendAPI.empty_data
       end,
       [GetItem MockBackendAPI.storageKey; GetItem MockBackendAPI.backupKey])
  end.

(** The catalog [init] makes of the data: [data.mediaItems || []], and the
    empty catalog when reading the property throws. *)
Definition catalog_from (data : value) : value :=
  match get_prop data k_mediaItems with
  | inl _ => VArr []
  | inr loaded => js_or loaded (VArr [])
  end.

(** What the two writes of [saveToStorage] make of a storage: the storage
    with the text in both slots, or nothing when one of the writes fails. *)
Definition written (text : jstring) (st : Storage) : option Storage :=
  match write_item MockBackendAPI.storageKey text st with
  | inr st1 =>
      match write_item MockBackendAPI.backupKey text st1 with
      | inr st2 => Some st2
      | inl _ => None
      end
  | inl _ => None
  end.

(** ** The trace *)

(** The world with these events added to its trace. *)
Definition add_events (events : list event) (w : World) : World :=
  {| appState := appState w; dom := dom w; localStorage := localStorage w;
     trace := trace w ++ events |}.

(** [m] only adds events to the trace. *)
Definition appends {A} (m : M A) : Prop :=
  forall w, exists events, trace (snd (m w)) = trace w ++ events.

(** [m] adds [first] to the trace before anything else. *)
Definition emits_first {A} (first : event) (m : M A) : Prop :=
  forall w, exists events, trace (snd (m w)) = trace w ++ first :: events.

(** A message to the user, and no call of the store or of the storage. *)
Definition is_message (ev : event) : Prop :=
  match ev with
  | ShowMessage _ _ => True
  | _ => False
  end.

(** The message of both handlers for a description of more than 500
    characters. *)
Definition too_long : event :=
  ShowMessage (js "Description must be 500 characters or less.") error_message.

(** ** The data model: records and the catalog

    A [MediaRecord] as the specification describes it, and the object that
    represents it in [AppState.mediaItems] and in the storage: the keys in
    the order [createMedia] writes them, [fileSize] left out when it is
    absent. *)

Module MediaRecord.

Record t : Type := {
  id : jstring;
  fileName : jstring;
  description : jstring;
  uploadDate : jstring;
  fileType : jstring;
  fileSize : option N
}.

Definition to_value (r : t) : value :=
  VObj ([(k_id, VStr (id r));
         (k_fileName, VStr (fileName r));
         (k_description, VStr (description r));
         (k_uploadDate, VStr (uploadDate r));
         (k_fileType, VStr (fileType r))]
        ++ match fileSize r with
           | Some n => [(k_fileSize, VNum (Z.of_N n))]
           | None => []
           end).

(** The record with another description and every other field as it is. *)
Definition with_description (d : jstring) (r : t) : t :=
  {| id := id r; fileName := fileName r; description := d;
     uploadDate := uploadDate r; fileType := fileType r;
     fileSize := fileSize r |}.

(** A byte count is an integer a JavaScript number holds exactly. *)
Definition safe (r : t) : Prop :=
  match fileSize r with
  | Some n => n < 2 ^ 53
  | None => True
  end.

End MediaRecord.

(** The catalog in memory: the array of the records' objects. *)
Definition catalog_value (c : list MediaRecord.t) : value :=
  VArr (MediaRecord.to_value <$> c).

(** The ids of the catalog, in its order. *)
Definition ids (c : list MediaRecord.t) : list jstring :=
  MediaRecord.id <$> c.

(** The first position of a record with this id. *)
Fixpoint index_of (id : jstring) (c : list MediaRecord.t) : option nat :=
  match c with
  | [] => None
  | r :: c' =>
      if jstring_eqb (MediaRecord.id r) id then Some O
      else S <$> index_of id c'
  end.

(** The properties of a record's object. *)
Definition properties (r : MediaRecord.t) : object :=
  spread_props (MediaRecord.to_value r).

(** The [mediaData] that [handleUpload] passes to [createMedia]. *)
Definition mediaData_of (fileName description fileType : jstring) (fileSize : N)
  : value :=
  VObj [(k_fileName, VStr fileName);
        (k_description, VStr description);
        (k_fileType, VStr fileType);
        (k_fileSize, VNum (Z.of_N fileSize))].

(** The record [createMedia] makes of it. *)
Definition created_record (e : Env)
    (fileName description fileType : jstring) (fileSize : N) : MediaRecord.t :=
  {| MediaRecord.id := Utils.generateId e;
     MediaRecord.fileName := fileName;
     MediaRecord.description := description;
     MediaRecord.uploadDate := iso_first e;
     MediaRecord.fileType := fileType;
     MediaRecord.fileSize := Some fileSize |}.

(** What a mutating operation leaves: the mutated catalog in memory in any
    case; and either its result and the snapshot of the mutated catalog in
    both slots, or StorageUnavailable. *)
Definition mutated {A} (run : (exn + A) * World) (result : A)
    (catalog : value) (lastUpdated : jstring) : Prop :=
  mediaItems (appState (snd run)) = catalog
  /\ ((fst run = inr result
       /\ stored (JSON_stringify (snapshot_of catalog lastUpdated))
            (localStorage (snd run)))
      \/ fst run = inl StorageUnavailable).

(** The question [handleDelete] asks about a record. *)
Definition delete_question (r : MediaRecord.t) : event :=
  Confirm (js "Are you sure you want to delete "
           ++ 34 :: MediaRecord.fileName r ++ 34 :: js "?").

(** ** A small session, for the examples *)

Definition cat_photo : MediaRecord.t :=
  {| MediaRecord.id := js "loyw3v284fzyo82mvyr";
     MediaRecord.fileName := js "a.png";
     MediaRecord.description := js "cat photo";
     MediaRecord.uploadDate := js "2023-11-14T22:13:20.000Z";
     MediaRecord.fileType := js "image";
     MediaRecord.fileSize := Some 2048 |}.

Definition dog_video : MediaRecord.t :=
  {| MediaRecord.id := js "loyw3vzs9k2xq01ab";
     MediaRecord.fileName := js "dog.mp4";
     MediaRecord.description := js "dog video";
     MediaRecord.uploadDate := js "2023-11-14T22:13:21.000Z";
     MediaRecord.fileType := js "video";
     MediaRecord.fileSize := Some 1048576 |}.

Definition empty_form : DOM :=
  {| fileInput_files0 := None; descriptionInput_value := [];
     editDescriptionInput_value := []; editModal_show := false |}.

(** A world with this catalog in memory and this storage. *)
Definition world_of (c : list MediaRecord.t) (st : Storage) : World :=
  {| appState := {| mediaItems := catalog_value c; currentEditId := None;
                    isLoading := false |};
     dom := empty_form;
     localStorage := st;
     trace := [] |}.

(** An empty storage with the usual quota. *)
Definition roomy : Storage := {| items := []; quota := 5000000; denied := [] |}.

(** Room for one copy of a snapshot of one record, not for two. *)
Definition tight : Storage := {| items := []; quota := 300; denied := [] |}.

(** No room at all. *)
Definition full : Storage := {| items := []; quota := 0; denied := [] |}.

(** The clock and the random number at which [createMedia] makes
    [cat_photo]. *)
Definition noon : Env :=
  {| clock_ms := 1700000000000;
     random_36 := js "0.4fzyo82mvyr";
     iso_first := js "2023-11-14T22:13:20.000Z";
     iso_second := js "2023-11-14T22:13:20.001Z" |}.

(** An hour later. *)
Definition one_pm : Env :=
  {| clock_ms := 1700003600000;
     random_36 := js "0.9k2xq01ab7";
     iso_first := js "2023-11-14T23:13:20.000Z";
     iso_second := js "2023-11-14T23:13:20.002Z" |}.

(** A storage whose backup slot alone holds a snapshot of one record. *)
Definition backup_only : Storage :=
  {| items := [(MockBackendAPI.backupKey,
                JSON_stringify
                  (snapshot_of (catalog_value [cat_photo])
                     (js "2023-11-14T22:13:20.001Z")))];
     quota := 5000000;
     denied := [] |}.

(** A primary slot with a text that parses, but not to a snapshot. *)
Definition misshapen_primary : Storage :=
  {| items := [(MockBackendAPI.storageKey, jsq "{'mediaItems':5}")];
     quota := 5000000;
     denied := [] |}.

(** A storage whose primary slot is cut short and whose backup slot holds a
    snapshot of one record. *)
Definition corrupt_primary : Storage :=
  {| items := [(MockBackendAPI.storageKey, jsq "{'mediaItems':[{'id':'loyw");
               (MockBackendAPI.backupKey,
                JSON_stringify
                  (snapshot_of (catalog_value [cat_photo])
                     (js "2023-11-14T22:13:20.001Z")))];
     quota := 5000000;
     denied := [] |}.

(** The file the examples select. *)
Definition a_png : File :=
  {| file_name := js "a.png"; file_type := js "image/png"; file_size := 2048 |}.

(** A world where [a.png] is selected, the upload form and the edit form
    hold [n] letters between two spaces, and [cat_photo] is being edited. *)
Definition typed (n : nat) : World :=
  {| appState := {| mediaItems := catalog_value [cat_photo];
                    currentEditId := Some (MediaRecord.id cat_photo);
                    isLoading := false |};
     dom := {| fileInput_files0 := Some a_png;
               descriptionInput_value := 32 :: replicate n 97 ++ [32];
               editDescriptionInput_value := 32 :: replicate n 97 ++ [32];
               editModal_show := true |};
     localStorage := roomy;
     trace := [] |}.

(** * Properties *)

(** ** The model at work *)

Example JSON_parse_accepts :
  JSON_parse (jsq " { 'mediaItems' : [ {'id':'aA','fileSize':2048} , null, -1.5e3 ], 'a':1, 'a':'\u0041\n' } ")
  = Some (VObj [(js "mediaItems",
                 VArr [VObj [(js "id", VStr (js "aA"));
                             (js "fileSize", VNum 2048)];
                       VNull; VReal (js "-1.5e3")]);
                (js "a", VStr [65; 10])]).
Proof. vm_compute. reflexivity. Qed.

Example JSON_parse_rejects :
  List.map JSON_parse
    [js ""; js "01"; js "[1,]"; jsq "{'a':1,}"; js "1."; js "-"; js "nul";
     js "[1 2]"; jsq "'abc"; jsq "{'mediaItems':[{'id':'loyw"; js "undefined"]
  = [None; None; None; None; None; None; None; None; None; None; None].
Proof. vm_compute. reflexivity. Qed.

Example JSON_stringify_snapshot :
  JSON_stringify (snapshot_of (catalog_value [cat_photo]) (js "2023-11-14T22:13:20.001Z"))
  = jsq "{'mediaItems':[{'id':'loyw3v284fzyo82mvyr','fileName':'a.png','description':'cat photo','uploadDate':'2023-11-14T22:13:20.000Z','fileType':'image','fileSize':2048}],'lastUpdated':'2023-11-14T22:13:20.001Z','version':'1.0'}".
Proof. vm_compute. reflexivity. Qed.

Example JSON_stringify_undefined :
  JSON_stringify (VObj [(js "a", VUndefined); (js "b", VArr [VUndefined; VNum (-7)])])
  = jsq "{'b':[null,-7]}".
Proof. vm_compute. reflexivity. Qed.

Example generateId_noon : Utils.generateId noon = js "loyw3v284fzyo82mvyr".
Proof. vm_compute. reflexivity. Qed.

Example trim_spaces : trim (js "  cat photo ") = js "cat photo".
Proof. vm_compute. reflexivity. Qed.

(** The scenario of the specification: create, list, update, list, delete,
    list. *)
Example scenario :
  let created :=
    MockBackendAPI.createMedia noon
      (mediaData_of (js "a.png") (js "cat photo") (js "image") 2048)
      (world_of [] roomy) in
  let updated :=
    MockBackendAPI.updateMedia noon (Utils.generateId noon)
      (VObj [(k_description, VStr (js "new cat photo"))]) (snd created) in
  let deleted :=
    MockBackendAPI.deleteMedia noon (Utils.generateId noon) (snd updated) in
  fst created = inr (MediaRecord.to_value cat_photo)
  /\ fst (MockBackendAPI.getMedia (snd created)) = inr (catalog_value [cat_photo])
  /\ fst (MockBackendAPI.getMedia (snd updated))
     = inr (catalog_value
              [MediaRecord.with_description (js "new cat photo") cat_photo])
  /\ fst deleted = inr tt
  /\ fst (MockBackendAPI.getMedia (snd deleted)) = inr (catalog_value []).
Proof. vm_compute. repeat split; reflexivity. Qed.

(** ** Strings *)

Lemma jstring_eqb_eq (a b : jstring) : jstring_eqb a b = true <-> a = b.
Proof.
  revert b. induction a as [|c a IH]; intros [|d b]; simpl; try easy.
  rewrite andb_true_iff, N.eqb_eq, IH. split.
  - intros [-> ->]. reflexivity.
  - intros [= -> ->]. split; reflexivity.
Qed.

Lemma jstring_eqb_refl (a : jstring) : jstring_eqb a a = true.
Proof. apply jstring_eqb_eq. reflexivity. Qed.

Lemma jstring_eqb_neq (a b : jstring) : jstring_eqb a b = false <-> a <> b.
Proof.
  rewrite <- jstring_eqb_eq. destruct (jstring_eqb a b); split; congruence.
Qed.

(** ** JSON: a quoted string reads back *)

Lemma hex_value_hex_digit (n : N) :
  n < 16 -> hex_value (hex_digit n) = Some n.
Proof.
  intros Hn. unfold hex_digit, hex_value, is_digit.
  destruct (N.ltb_spec n 10).
  - replace ((48 <=? 48 + n) && (48 + n <=? 57)) with true.
    + f_equal. lia.
    + symmetry. apply andb_true_iff. split; apply N.leb_le; lia.
  - replace ((48 <=? 87 + n) && (87 + n <=? 57)) with false.
    + replace ((97 <=? 87 + n) && (87 + n <=? 102)) with true.
      * f_equal. lia.
      * symmetry. apply andb_true_iff. split; apply N.leb_le; lia.
    + symmetry. apply andb_false_iff. right. apply N.leb_gt. lia.
Qed.

Lemma hex_digits_value (c : N) :
  c < 65536 ->
  (c / 4096 mod 16) * 4096 + (c / 256 mod 16) * 256 + (c / 16 mod 16) * 16
  + c mod 16 = c.
Proof.
  intros Hc.
  pose proof (N.div_mod c 16 ltac:(lia)) as H1.
  pose proof (N.div_mod (c / 16) 16 ltac:(lia)) as H2.
  pose proof (N.div_mod (c / 16 / 16) 16 ltac:(lia)) as H3.
  rewrite N.Div0.div_div in H2, H3. rewrite N.Div0.div_div in H3.
  change (16 * 16) with 256 in *. change (256 * 16) with 4096 in *.
  assert (c / 4096 < 16) as H4 by (apply N.Div0.div_lt_upper_bound; lia).
  rewrite (N.mod_small (c / 4096) 16) by assumption.
  lia.
Qed.

Lemma parse_string_body_u (h1 h2 h3 h4 : N) (r : jstring) :
  parse_string_body (92 :: 117 :: h1 :: h2 :: h3 :: h4 :: r)
  = match hex_value h1, hex_value h2, hex_value h3, hex_value h4 with
    | Some a, Some b, Some c, Some d =>
        match parse_string_body r with
        | Some (t, rest) => Some ((a * 4096 + b * 256 + c * 16 + d) :: t, rest)
        | None => None
        end
    | _, _, _, _ => None
    end.
Proof. reflexivity. Qed.

Lemma parse_string_body_short (e u : N) (r : jstring) :
  e <> 117 -> escaped_unit e = Some u ->
  parse_string_body (92 :: e :: r)
  = match parse_string_body r with
    | Some (t, rest) => Some (u :: t, rest)
    | None => None
    end.
Proof.
  intros He Hu. cbn [parse_string_body].
  change (92 =? 34) with false. change (92 =? 92) with true. cbv iota.
  apply N.eqb_neq in He. rewrite He, Hu. reflexivity.
Qed.

Lemma parse_string_body_raw (c : N) (r : jstring) :
  c <> 34 -> c <> 92 -> 32 <= c ->
  parse_string_body (c :: r)
  = match parse_string_body r with
    | Some (t, rest) => Some (c :: t, rest)
    | None => None
    end.
Proof.
  intros H1 H2 H3. cbn [parse_string_body].
  apply N.eqb_neq in H1, H2. apply N.ltb_ge in H3.
  rewrite H1, H2, H3. reflexivity.
Qed.

Lemma parse_unicode_escape (c : N) (s rest t : jstring) :
  c < 65536 ->
  parse_string_body s = Some (t, rest) ->
  parse_string_body (unicode_escape c ++ s) = Some (c :: t, rest).
Proof.
  intros Hc Hs. unfold unicode_escape. simpl app. 
  rewrite parse_string_body_u.
  rewrite !hex_value_hex_digit by (apply N.mod_lt; lia).
  rewrite Hs, hex_digits_value by assumption. reflexivity.
Qed.

Lemma surrogate_bounds (c : N) :
  is_high_surrogate c || is_low_surrogate c = true -> 55296 <= c <= 57343.
Proof.
  unfold is_high_surrogate, is_low_surrogate.
  rewrite orb_true_iff, !andb_true_iff, !N.leb_le. lia.
Qed.

Ltac read_short u IH :=
  simpl app; rewrite (parse_string_body_short _ u) by (lia || reflexivity);
  rewrite IH; reflexivity.

Ltac read_unicode IH :=
  rewrite <- app_assoc; apply parse_unicode_escape; [lia | exact IH].

Ltac read_raw IH :=
  simpl app; rewrite parse_string_body_raw by lia; rewrite IH; reflexivity.

(** One character of [quote_units] read back, the rest given. *)
Lemma parse_string_body_quote_step (c : N) (s rest : jstring) :
  parse_string_body (quote_units s ++ 34 :: rest) = Some (s, rest) ->
  (forall d s', s = d :: s' ->
     parse_string_body (quote_units s' ++ 34 :: rest) = Some (s', rest)) ->
  parse_string_body (quote_units (c :: s) ++ 34 :: rest) = Some (c :: s, rest).
Proof.
  intros IH IH'. cbn [quote_units].
  destruct (N.eqb_spec c 34) as [->|H34]; [read_short 34 IH|].
  destruct (N.eqb_spec c 92) as [->|H92]; [read_short 92 IH|].
  destruct (N.eqb_spec c 8) as [->|H8]; [read_short 8 IH|].
  destruct (N.eqb_spec c 12) as [->|H12]; [read_short 12 IH|].
  destruct (N.eqb_spec c 10) as [->|H10]; [read_short 10 IH|].
  destruct (N.eqb_spec c 13) as [->|H13]; [read_short 13 IH|].
  destruct (N.eqb_spec c 9) as [->|H9]; [read_short 9 IH|].
  destruct (N.ltb_spec c 32) as [Hlt|Hge]; [read_unicode IH|].
  destruct (is_high_surrogate c) eqn:Hhigh.
  - pose proof (surrogate_bounds c ltac:(rewrite Hhigh; reflexivity)) as Hc.
    destruct s as [|d s']; [apply parse_unicode_escape; [lia | reflexivity]|].
    destruct (is_low_surrogate d) eqn:Hlow; [|read_unicode IH].
    pose proof (surrogate_bounds d ltac:(rewrite Hlow; apply orb_true_r)) as Hd.
    simpl app. rewrite !parse_string_body_raw by lia.
    rewrite (IH' d s' eq_refl). reflexivity.
  - destruct (is_low_surrogate c) eqn:Hlow; [|read_raw IH].
    pose proof (surrogate_bounds c ltac:(rewrite Hlow; apply orb_true_r)) as Hc.
    read_unicode IH.
Qed.

Lemma parse_string_body_quote_units (s rest : jstring) :
  parse_string_body (quote_units s ++ 34 :: rest) = Some (s, rest).
Proof.
  assert (forall n (t : jstring), (length t <= n)%nat ->
            parse_string_body (quote_units t ++ 34 :: rest) = Some (t, rest))
    as H; [|exact (H (length s) s (Nat.le_refl _))].
  clear s. induction n as [|n IH]; intros [|c t] Hlen; simpl in Hlen;
    try reflexivity; try lia.
  apply parse_string_body_quote_step.
  - apply IH. lia.
  - intros d s' ->. apply IH. simpl in Hlen. lia.
Qed.

(** What follows a quoted string is found after it. *)
Lemma parse_string_body_quote (s rest : jstring) :
  parse_string_body (List.tl (quote s) ++ rest) = Some (s, rest).
Proof.
  unfold quote. simpl List.tl. rewrite <- app_assoc.
  apply parse_string_body_quote_units.
Qed.

(** ** JSON: a number reads back *)

Lemma span_digits_uint_units (d : Decimal.uint) (rest : jstring) :
  delimited rest -> span_digits (uint_units d ++ rest) = (uint_units d, rest).
Proof.
  intros Hrest.
  induction d; simpl; rewrite ?IHd; try reflexivity.
  destruct rest as [|c rest]; [reflexivity|]. simpl in *.
  replace (is_digit c) with false; [reflexivity|].
  symmetry. unfold is_digit. apply andb_false_iff.
  rewrite !N.leb_gt. lia.
Qed.

Lemma units_uint_uint_units (d : Decimal.uint) : units_uint (uint_units d) = d.
Proof. induction d; simpl; rewrite ?IHd; reflexivity. Qed.

Lemma nzhead_nonzero (d : Decimal.uint) :
  match Decimal.nzhead d with Decimal.D0 _ => False | _ => True end.
Proof. induction d; simpl; auto. Qed.

Lemma N_to_uint_normal (n : N) :
  N.to_uint n = Decimal.zero
  \/ match N.to_uint n with
     | Decimal.Nil | Decimal.D0 _ => False
     | _ => True
     end.
Proof.
  pose proof (DecimalN.Unsigned.to_of (N.to_uint n)) as H.
  rewrite DecimalN.Unsigned.of_to in H. rewrite H. unfold Decimal.unorm.
  pose proof (nzhead_nonzero (N.to_uint n)) as Hnz.
  destruct (Decimal.nzhead (N.to_uint n)); auto.
Qed.

(** The first character of a number's digits: [0] alone, or not a [0]. *)
Lemma N_text_head (n : N) :
  N_text n = [48]
  \/ exists c ds, N_text n = c :: ds /\ 49 <= c <= 57.
Proof.
  unfold N_text. destruct (N_to_uint_normal n) as [->|H]; [left; reflexivity|].
  right. destruct (N.to_uint n); try contradiction; simpl;
    eexists _, _; (split; [reflexivity | lia]).
Qed.

Lemma parse_int_part_N_text (n : N) (rest : jstring) :
  delimited rest -> parse_int_part (N_text n ++ rest) = Some (N_text n, rest).
Proof.
  intros Hrest.
  pose proof (span_digits_uint_units (N.to_uint n) rest Hrest) as Hspan.
  fold (N_text n) in Hspan.
  destruct (N_text_head n) as [->|(c & ds & Hc & Hrange)]; [reflexivity|].
  rewrite Hc in *. simpl app in *. unfold parse_int_part.
  destruct (N.eqb_spec c 48); [lia|].
  replace (is_digit c) with true; [rewrite Hspan; reflexivity|].
  symmetry. unfold is_digit. rewrite andb_true_iff, !N.leb_le. lia.
Qed.

Lemma parse_frac_part_delimited (rest : jstring) :
  delimited rest -> parse_frac_part rest = Some ([], rest).
Proof.
  destruct rest as [|c rest]; [reflexivity|]. simpl. intros H.
  destruct (N.eqb_spec c 46); [lia | reflexivity].
Qed.

Lemma parse_exp_part_delimited (rest : jstring) :
  delimited rest -> parse_exp_part rest = Some ([], rest).
Proof.
  destruct rest as [|c rest]; [reflexivity|]. simpl. intros H.
  destruct (N.eqb_spec c 101); [lia|].
  destruct (N.eqb_spec c 69); [lia | reflexivity].
Qed.

Lemma parse_magnitude_N_text (neg : bool) (n : N) (rest : jstring) :
  delimited rest ->
  parse_magnitude neg (N_text n ++ rest)
  = Some (VNum (if neg then - Z.of_N n else Z.of_N n)%Z, rest).
Proof.
  intros Hrest. unfold parse_magnitude.
  rewrite parse_int_part_N_text, parse_frac_part_delimited,
    parse_exp_part_delimited by assumption.
  unfold N_text. rewrite units_uint_uint_units, DecimalN.Unsigned.of_to.
  reflexivity.
Qed.

Lemma parse_number_text (z : Z) (rest : jstring) :
  Z.abs_N z < ten_to_21 -> delimited rest ->
  parse_number (number_text z ++ rest) = Some (VNum z, rest).
Proof.
  intros Hz Hrest. unfold number_text.
  apply N.ltb_lt in Hz. rewrite Hz.
  destruct (Z.ltb_spec z 0) as [Hneg|Hpos].
  - simpl app. unfold parse_number. change (45 =? 45) with true. cbv iota.
    rewrite parse_magnitude_N_text, N2Z.inj_abs_N by assumption.
    do 3 f_equal. lia.
  - assert (exists c ds, N_text (Z.abs_N z) = c :: ds /\ 48 <= c <= 57)
      as (c & ds & Hc & Hrange).
    { destruct (N_text_head (Z.abs_N z)) as [->|(c & ds & Hc & Hrange)].
      - exists 48, []. split; [reflexivity | lia].
      - exists c, ds. split; [assumption | lia]. }
    unfold parse_number. rewrite Hc. simpl app. cbv iota.
    assert ((c =? 45) = false) as -> by (apply N.eqb_neq; lia).
    rewrite app_comm_cons, <- Hc, parse_magnitude_N_text by assumption.
    rewrite N2Z.inj_abs_N. do 3 f_equal. lia.
Qed.

(** ** JSON: a value reads back *)

(** Induction on a value, its elements and members included. *)
Lemma value_nested_ind (P : value -> Prop) :
  P VUndefined -> P VNull -> (forall b, P (VBool b)) ->
  (forall z, P (VNum z)) -> (forall lit, P (VReal lit)) ->
  (forall s, P (VStr s)) ->
  (forall l, Forall P l -> P (VArr l)) ->
  (forall o, Forall (fun kv => P kv.2) o -> P (VObj o)) ->
  forall v, P v.
Proof.
  intros Hu Hn Hb Hz Hr Hs Ha Ho.
  fix IH 1.
  intros [| |b|z|lit|s|l|o];
    [exact Hu | exact Hn | apply Hb | apply Hz | apply Hr | apply Hs | |].
  - apply Ha. induction l as [|x l IHl]; constructor; [apply IH | exact IHl].
  - apply Ho. induction o as [|[k x] o IHo]; constructor;
      [apply IH | exact IHo].
Qed.

Lemma JSON_text_VArr (l : list value) :
  JSON_text (VArr l) = Some (91 :: join_with 44 (elements_text l) ++ [93]).
Proof.
  reflexivity.
Qed.

Lemma JSON_text_VObj (o : object) :
  JSON_text (VObj o) = Some (123 :: join_with 44 (members_text o) ++ [125]).
Proof.
  reflexivity.
Qed.

Lemma vsize_VArr (l : list value) : vsize (VArr l) = S (elements_size l).
Proof. reflexivity. Qed.

Lemma vsize_VObj (o : object) : vsize (VObj o) = S (members_size o).
Proof. reflexivity. Qed.

Lemma storable_VArr (l : list value) :
  storable (VArr l) = forallb storable l.
Proof. simpl. induction l; simpl; congruence. Qed.

Lemma storable_VObj (o : object) :
  storable (VObj o) = distinct_keys o && forallb (fun kv => storable kv.2) o.
Proof.
  simpl. induction o as [|[k x] o IH]; simpl; [reflexivity|].
  rewrite IH. destruct (has_key k o), (storable x), (distinct_keys o);
    reflexivity.
Qed.

(** An object read from a text is built key by key; with distinct keys it is
    the members in the order of the text. *)
Lemma obj_set_fresh (k : jstring) (v : value) (o : object) :
  has_key k o = false -> obj_set k v o = o ++ [(k, v)].
Proof.
  induction o as [|[k' v'] o IH]; simpl; [reflexivity|].
  intros H. apply orb_false_iff in H as [H1 H2]. rewrite H1, IH by assumption.
  reflexivity.
Qed.

Lemma has_key_app (k : jstring) (o o' : object) :
  has_key k (o ++ o') = has_key k o || has_key k o'.
Proof. unfold has_key. apply existsb_app. Qed.

Lemma obj_assign_distinct (o acc : object) :
  distinct_keys o = true ->
  (forall kv, In kv o -> has_key kv.1 acc = false) ->
  obj_assign acc o = acc ++ o.
Proof.
  revert acc. induction o as [|[k v] o IH]; intros acc Hd Hacc.
  - simpl. rewrite app_nil_r. reflexivity.
  - simpl in Hd. apply andb_true_iff in Hd as [Hk Hd].
    apply negb_true_iff in Hk.
    unfold obj_assign in *. simpl fold_left.
    rewrite obj_set_fresh by (apply (Hacc (k, v)); left; reflexivity).
    rewrite IH; [rewrite <- app_assoc; reflexivity | assumption |].
    intros [k' v'] Hin. rewrite has_key_app, Hacc by (right; assumption).
    simpl. rewrite orb_false_r. apply jstring_eqb_neq. intros ->.
    assert (has_key k o = true); [|congruence].
    unfold has_key. apply existsb_exists. exists (k, v').
    split; [assumption | apply jstring_eqb_refl].
Qed.

Lemma obj_assign_nil_distinct (o : object) :
  distinct_keys o = true -> obj_assign [] o = o.
Proof. intros H. apply (obj_assign_distinct o []); [assumption | reflexivity]. Qed.

Lemma skip_ws_value_head (c : N) (r : jstring) :
  value_head c -> skip_ws (c :: r) = c :: r.
Proof.
  intros H. simpl. replace (is_json_ws c) with false; [reflexivity|].
  symmetry. unfold is_json_ws. rewrite !orb_false_iff, !N.eqb_neq.
  unfold value_head in H. lia.
Qed.

Lemma skip_ws_delimiter (c : N) (r : jstring) :
  c = 44 \/ c = 93 \/ c = 125 \/ c = 58 -> skip_ws (c :: r) = c :: r.
Proof.
  intros H. simpl. replace (is_json_ws c) with false; [reflexivity|].
  symmetry. unfold is_json_ws. rewrite !orb_false_iff, !N.eqb_neq. lia.
Qed.

Lemma number_text_head (z : Z) :
  Z.abs_N z < ten_to_21 ->
  exists c ds, number_text z = c :: ds /\ (c = 45 \/ 48 <= c <= 57).
Proof.
  intros Hz. apply N.ltb_lt in Hz. unfold number_text. rewrite Hz.
  destruct (Z.ltb_spec z 0).
  - eexists _, _. split; [reflexivity | lia].
  - destruct (N_text_head (Z.abs_N z)) as [->|(c & ds & -> & Hrange)];
      eexists _, _; (split; [reflexivity | lia]).
Qed.

Lemma JSON_text_head (v : value) :
  storable v = true ->
  exists c t, JSON_text v = Some (c :: t) /\ value_head c.
Proof.
  unfold value_head.
  destruct v as [| |[|]|z|lit|s|l|o]; try discriminate; intros Hv.
  - eexists _, _. split; [reflexivity | lia].
  - eexists _, _. split; [reflexivity | lia].
  - eexists _, _. split; [reflexivity | lia].
  - simpl in Hv. apply N.ltb_lt in Hv.
    destruct (number_text_head z Hv) as (c & ds & Hc & Hrange).
    exists c, ds. simpl. rewrite Hc. split; [reflexivity | lia].
  - eexists _, _. split; [reflexivity | lia].
  - rewrite JSON_text_VArr. eexists _, _. split; [reflexivity | lia].
  - rewrite JSON_text_VObj. eexists _, _. split; [reflexivity | lia].
Qed.

Lemma parse_value_step_string el mem (r : jstring) :
  parse_value_step el mem (34 :: r)
  = match parse_string_body r with
    | Some (t, rest) => Some (VStr t, rest)
    | None => None
    end.
Proof. reflexivity. Qed.

Lemma parse_value_step_array el mem (r : jstring) :
  parse_value_step el mem (91 :: r)
  = match skip_ws r with
    | d :: r' =>
        if d =? 93 then Some (VArr [], r')
        else match el r with
             | Some (l, rest) => Some (VArr l, rest)
             | None => None
             end
    | [] => None
    end.
Proof. reflexivity. Qed.

Lemma parse_value_step_object el mem (r : jstring) :
  parse_value_step el mem (123 :: r)
  = match skip_ws r with
    | d :: r' =>
        if d =? 125 then Some (VObj [], r')
        else match mem r with
             | Some (o, rest) => Some (VObj (obj_assign [] o), rest)
             | None => None
             end
    | [] => None
    end.
Proof. reflexivity. Qed.

Lemma parse_value_step_number el mem (c : N) (r : jstring) :
  c = 45 \/ 48 <= c <= 57 ->
  parse_value_step el mem (c :: r) = parse_number (c :: r).
Proof.
  intros Hc. unfold parse_value_step.
  rewrite skip_ws_value_head by (unfold value_head; lia).
  assert ((c =? 34) = false) as -> by (apply N.eqb_neq; lia).
  assert ((c =? 91) = false) as -> by (apply N.eqb_neq; lia).
  assert ((c =? 123) = false) as -> by (apply N.eqb_neq; lia).
  cbn [startsWith null_text true_text false_text].
  assert ((110 =? c) = false) as -> by (apply N.eqb_neq; lia).
  assert ((116 =? c) = false) as -> by (apply N.eqb_neq; lia).
  assert ((102 =? c) = false) as -> by (apply N.eqb_neq; lia).
  cbn [andb].
  replace ((c =? 45) || is_digit c) with true; [reflexivity|].
  symmetry. unfold is_digit.
  rewrite orb_true_iff, andb_true_iff, N.eqb_eq, !N.leb_le. lia.
Qed.

Lemma join_with_cons (sep : N) (p : jstring) (more : list jstring) :
  more <> [] -> join_with sep (p :: more) = p ++ sep :: join_with sep more.
Proof. destruct more; [contradiction | reflexivity]. Qed.

Lemma parse_elements_reads_back (l : list value) :
  l <> [] -> Forall reads_back l -> forallb storable l = true ->
  forall fuel rest, (elements_size l <= fuel)%nat ->
  parse_elements fuel (join_with 44 (elements_text l) ++ 93 :: rest)
  = Some (l, rest).
Proof.
  induction l as [|x l IH]; [contradiction|].
  intros _ HF Hst fuel rest Hfuel.
  destruct fuel as [|fuel]; [simpl in Hfuel; lia|].
  change (parse_elements (S fuel))
    with (parse_elements_step (parse_value fuel) (parse_elements fuel)).
  apply Forall_cons_1 in HF as [Hx HF].
  simpl in Hst. apply andb_true_iff in Hst as [Hsx Hst].
  destruct (JSON_text_head x Hsx) as (c & t & Ht & Hc).
  simpl in Hfuel. unfold parse_elements_step.
  change (elements_text (x :: l))
    with (default null_text (JSON_text x) :: elements_text l).
  rewrite Ht. simpl default.
  destruct l as [|y l].
  - simpl join_with.
    rewrite (Hx Hsx _ Ht fuel (93 :: rest)) by (simpl; auto; lia).
    reflexivity.
  - rewrite join_with_cons by discriminate.
    rewrite <- app_assoc.
    rewrite (Hx Hsx _ Ht fuel) by (simpl; auto; lia).
    rewrite <- app_comm_cons, skip_ws_delimiter by auto.
    change (44 =? 44) with true. cbv iota.
    rewrite IH; [reflexivity | discriminate | assumption | assumption | lia].
Qed.

Lemma members_text_storable (k : jstring) (x : value) (o : object) (t : jstring) :
  JSON_text x = Some t ->
  members_text ((k, x) :: o) = (quote k ++ 58 :: t) :: members_text o.
Proof. intros H. simpl. rewrite H. reflexivity. Qed.

Lemma parse_members_reads_back (o : object) :
  o <> [] -> Forall (fun kv => reads_back kv.2) o ->
  forallb (fun kv => storable kv.2) o = true ->
  forall fuel rest, (members_size o <= fuel)%nat ->
  parse_members fuel (join_with 44 (members_text o) ++ 125 :: rest)
  = Some (o, rest).
Proof.
  induction o as [|[k x] o IH]; [contradiction|].
  intros _ HF Hst fuel rest Hfuel.
  destruct fuel as [|fuel]; [simpl in Hfuel; lia|].
  change (parse_members (S fuel))
    with (parse_members_step (parse_value fuel) (parse_members fuel)).
  apply Forall_cons_1 in HF as [Hx HF]. simpl in Hx.
  simpl in Hst. apply andb_true_iff in Hst as [Hsx Hst].
  destruct (JSON_text_head x Hsx) as (c & t & Ht & Hc).
  simpl in Hfuel. unfold parse_members_step.
  rewrite (members_text_storable k x o _ Ht).
  assert (forall tail,
            skip_ws ((quote k ++ 58 :: c :: t) ++ tail)
            = 34 :: (List.tl (quote k) ++ 58 :: (c :: t) ++ tail)) as Hstart.
  { intros tail. unfold quote. simpl. rewrite <- !app_assoc. reflexivity. }
  destruct o as [|[k' y] o].
  - simpl join_with. rewrite Hstart.
    change (34 =? 34) with true. cbv iota.
    rewrite parse_string_body_quote, skip_ws_delimiter by auto.
    change (58 =? 58) with true. cbv iota.
    rewrite (Hx Hsx _ Ht fuel (125 :: rest)) by (simpl; auto; lia).
    reflexivity.
  - assert (exists t', JSON_text y = Some t') as [t' Ht'].
    { simpl in Hst. apply andb_true_iff in Hst as [Hsy _].
      destruct (JSON_text_head y Hsy) as (? & ? & ? & _). eauto. }
    rewrite join_with_cons
      by (rewrite (members_text_storable k' y o _ Ht'); discriminate).
    rewrite <- app_assoc, Hstart.
    change (34 =? 34) with true. cbv iota.
    rewrite parse_string_body_quote, skip_ws_delimiter by auto.
    change (58 =? 58) with true. cbv iota.
    rewrite (Hx Hsx _ Ht fuel) by (simpl; auto; lia).
    rewrite <- app_comm_cons, skip_ws_delimiter by auto.
    change (44 =? 44) with true. cbv iota.
    rewrite IH; [reflexivity | discriminate | assumption | assumption | lia].
Qed.

Lemma reads_back_all (v : value) : reads_back v.
Proof.
  induction v as [| |b|z|lit|s|l IHl|o IHo] using value_nested_ind;
    unfold reads_back; intros Hst t Ht [|fuel] rest Hfuel Hrest;
    try discriminate; try (simpl in Hfuel; lia);
    change (parse_value (S fuel))
      with (parse_value_step (parse_elements fuel) (parse_members fuel)).
  - injection Ht as <-. reflexivity.
  - injection Ht as <-. destruct b; reflexivity.
  - injection Ht as <-. simpl in Hst. apply N.ltb_lt in Hst.
    destruct (number_text_head z Hst) as (c & ds & Hc & Hrange).
    pose proof (parse_number_text z rest Hst Hrest) as Hn.
    rewrite Hc in *. simpl app in *.
    rewrite parse_value_step_number by assumption. exact Hn.
  - injection Ht as <-. unfold quote. simpl app.
    rewrite parse_value_step_string, <- app_assoc.
    simpl app. rewrite parse_string_body_quote_units. reflexivity.
  - rewrite JSON_text_VArr in Ht. injection Ht as <-.
    rewrite storable_VArr in Hst. rewrite vsize_VArr in Hfuel.
    simpl app. rewrite parse_value_step_array, <- app_assoc. simpl app.
    destruct l as [|x l]; [reflexivity|].
    assert (exists c r, join_with 44 (elements_text (x :: l)) ++ 93 :: rest
                        = c :: r /\ value_head c) as (c & r & Hr & Hc).
    { assert (storable x = true) as Hx
        by (simpl in Hst; apply andb_true_iff in Hst; tauto).
      destruct (JSON_text_head x Hx) as (c & t & Ht & Hc).
      change (elements_text (x :: l))
        with (default null_text (JSON_text x) :: elements_text l).
      rewrite Ht. simpl default.
      destruct l; simpl; eauto. }
    rewrite Hr, skip_ws_value_head by assumption.
    assert ((c =? 93) = false) as ->
      by (apply N.eqb_neq; unfold value_head in Hc; lia).
    rewrite <- Hr, parse_elements_reads_back;
      [reflexivity | discriminate | assumption | assumption | lia].
  - rewrite JSON_text_VObj in Ht. injection Ht as <-.
    rewrite storable_VObj in Hst. apply andb_true_iff in Hst as [Hkeys Hst].
    rewrite vsize_VObj in Hfuel.
    simpl app. rewrite parse_value_step_object, <- app_assoc. simpl app.
    destruct o as [|[k x] o]; [reflexivity|].
    assert (exists r, join_with 44 (members_text ((k, x) :: o)) ++ 125 :: rest
                      = 34 :: r) as (r & Hr).
    { assert (storable x = true) as Hx
        by (simpl in Hst; apply andb_true_iff in Hst; tauto).
      destruct (JSON_text_head x Hx) as (c & t & Ht & Hc).
      rewrite (members_text_storable k x o _ Ht).
      destruct (members_text o); simpl; eauto. }
    rewrite Hr. rewrite skip_ws_value_head by (unfold value_head; lia).
    change (34 =? 125) with false. cbv iota.
    rewrite <- Hr, parse_members_reads_back;
      [|discriminate | assumption | assumption | lia].
    rewrite obj_assign_nil_distinct by assumption. reflexivity.
Qed.

Lemma length_join_with_elements (l : list value) :
  Forall (fun x => forall t, JSON_text x = Some t ->
                             (vsize x <= length t)%nat) l ->
  forallb storable l = true ->
  (elements_size l <= length (join_with 44 (elements_text l)) + 1)%nat.
Proof.
  induction l as [|x l IH]; intros HF Hst; [simpl; lia|].
  apply Forall_cons_1 in HF as [Hx HF].
  simpl in Hst. apply andb_true_iff in Hst as [Hsx Hst].
  destruct (JSON_text_head x Hsx) as (c & t & Ht & _).
  specialize (Hx _ Ht). specialize (IH HF Hst).
  change (elements_text (x :: l))
    with (default null_text (JSON_text x) :: elements_text l).
  rewrite Ht. simpl default. simpl elements_size.
  destruct l as [|y l].
  - simpl in *. lia.
  - rewrite join_with_cons by discriminate.
    rewrite length_app. simpl length in *. lia.
Qed.

Lemma length_join_with_members (o : object) :
  Forall (fun kv => forall t, JSON_text kv.2 = Some t ->
                              (vsize kv.2 <= length t)%nat) o ->
  forallb (fun kv => storable kv.2) o = true ->
  (members_size o <= length (join_with 44 (members_text o)) + 1)%nat.
Proof.
  induction o as [|[k x] o IH]; intros HF Hst; [simpl; lia|].
  apply Forall_cons_1 in HF as [Hx HF]. simpl in Hx.
  simpl in Hst. apply andb_true_iff in Hst as [Hsx Hst].
  destruct (JSON_text_head x Hsx) as (c & t & Ht & _).
  specialize (Hx _ Ht). specialize (IH HF Hst).
  rewrite (members_text_storable k x o _ Ht). simpl members_size.
  destruct (members_text o) as [|m ms] eqn:Hm.
  - destruct o as [|[k' y] o].
    + simpl. rewrite !length_app. simpl in *. lia.
    + exfalso. simpl in Hst. apply andb_true_iff in Hst as [Hsy _].
      destruct (JSON_text_head y Hsy) as (? & ? & Hy & _).
      rewrite (members_text_storable k' y o _ Hy) in Hm. discriminate.
  - rewrite join_with_cons by discriminate.
    rewrite !length_app. simpl length in *. rewrite length_app. simpl. lia.
Qed.

Lemma vsize_le_text (v : value) :
  storable v = true ->
  forall t, JSON_text v = Some t -> (vsize v <= length t)%nat.
Proof.
  induction v as [| |b|z|lit|s|l IHl|o IHo] using value_nested_ind;
    intros Hst t Ht; try discriminate.
  - injection Ht as <-. simpl. lia.
  - injection Ht as <-. destruct b; simpl; lia.
  - destruct (JSON_text_head _ Hst) as (c & t' & Ht' & _).
    rewrite Ht in Ht'. injection Ht' as ->. simpl. lia.
  - injection Ht as <-. simpl. lia.
  - rewrite JSON_text_VArr in Ht. injection Ht as <-.
    rewrite storable_VArr in Hst. rewrite vsize_VArr.
    pose proof (length_join_with_elements l) as H.
    simpl length. rewrite length_app. simpl length.
    assert (elements_size l <= length (join_with 44 (elements_text l)) + 1)%nat;
      [|lia].
    apply H; [|assumption].
    clear H. induction IHl as [|x l Hx _ IH]; constructor.
    + intros t Ht. destruct (storable x) eqn:Hsx.
      * apply Hx; [reflexivity | assumption].
      * simpl in Hst. rewrite Hsx in Hst. discriminate.
    + apply IH. simpl in Hst. apply andb_true_iff in Hst. tauto.
  - rewrite JSON_text_VObj in Ht. injection Ht as <-.
    rewrite storable_VObj in Hst. apply andb_true_iff in Hst as [_ Hst].
    rewrite vsize_VObj.
    simpl length. rewrite length_app. simpl length.
    assert (members_size o <= length (join_with 44 (members_text o)) + 1)%nat;
      [|lia].
    apply length_join_with_members; [|assumption].
    induction IHo as [|[k x] o Hx _ IH]; constructor.
    + simpl in *. intros t Ht. apply Hx; [|assumption].
      apply andb_true_iff in Hst. tauto.
    + apply IH. simpl in Hst. apply andb_true_iff in Hst. tauto.
Qed.

(** [JSON.parse(JSON.stringify(v))] is [v] for a storable [v]. *)
Lemma JSON_parse_stringify (v : value) :
  storable v = true -> JSON_parse (JSON_stringify v) = Some v.
Proof.
  intros Hst. destruct (JSON_text_head v Hst) as (c & t & Ht & _).
  unfold JSON_stringify, JSON_parse. rewrite Ht. simpl default.
  pose proof (reads_back_all v Hst _ Ht (2 * length (c :: t) + 2)%nat []) as H.
  rewrite app_nil_r in H. rewrite H; [reflexivity | | exact I].
  pose proof (vsize_le_text v Hst _ Ht). lia.
Qed.

(** ** JSON.parse: the fuel is enough

    The fuel [JSON_parse] gives is never what makes it fail: with more
    fuel the result is the same. *)

Lemma skip_ws_length (s : jstring) : (length (skip_ws s) <= length s)%nat.
Proof.
  induction s as [|c s IH]; simpl; [lia|].
  destruct (is_json_ws c); simpl; lia.
Qed.

Lemma skip_ws_cons_length (s r : jstring) (c : N) :
  skip_ws s = c :: r -> (length r < length s)%nat.
Proof.
  intros H. pose proof (skip_ws_length s) as Hlen. rewrite H in Hlen.
  simpl in Hlen. lia.
Qed.

Lemma parse_string_body_shorter (s t r : jstring) :
  parse_string_body s = Some (t, r) -> (length r < length s)%nat.
Proof.
  assert (forall n (s t r : jstring), (length s <= n)%nat ->
            parse_string_body s = Some (t, r) -> (length r < length s)%nat)
    as H; [|exact (H (length s) s t r (Nat.le_refl _))].
  clear. induction n as [|n IH]; intros [|c s] t r Hn; simpl in Hn;
    try discriminate; try lia.
  cbn [parse_string_body].
  destruct (c =? 34); [intros [= <- <-]; simpl; lia|].
  destruct (c =? 92).
  - destruct s as [|e s1]; [discriminate|].
    destruct (e =? 117).
    + destruct s1 as [|h1 [|h2 [|h3 [|h4 s2]]]]; try discriminate.
      destruct (hex_value h1), (hex_value h2), (hex_value h3), (hex_value h4);
        try discriminate.
      destruct (parse_string_body s2) as [[t' r']|] eqn:Hrec; [|discriminate].
      intros [= <- <-]. apply IH in Hrec; simpl in *; lia.
    + destruct (escaped_unit e); [|discriminate].
      destruct (parse_string_body s1) as [[t' r']|] eqn:Hrec; [|discriminate].
      intros [= <- <-]. apply IH in Hrec; simpl in *; lia.
  - destruct (c <? 32); [discriminate|].
    destruct (parse_string_body s) as [[t' r']|] eqn:Hrec; [|discriminate].
    intros [= <- <-]. apply IH in Hrec; simpl in *; lia.
Qed.

Lemma span_digits_length (s ds r : jstring) :
  span_digits s = (ds, r) -> length s = (length ds + length r)%nat.
Proof.
  revert ds r. induction s as [|c s IH]; intros ds r; simpl.
  - intros [= <- <-]. reflexivity.
  - destruct (is_digit c); [|intros [= <- <-]; reflexivity].
    destruct (span_digits s) as [ds' r']. intros [= <- <-].
    simpl. rewrite (IH ds' r' eq_refl). reflexivity.
Qed.

Lemma parse_int_part_shorter (s ds r : jstring) :
  parse_int_part s = Some (ds, r) -> (length r < length s)%nat.
Proof.
  unfold parse_int_part. destruct s as [|c s]; [discriminate|].
  destruct (c =? 48); [intros [= <- <-]; simpl; lia|].
  destruct (is_digit c) eqn:Hc; [|discriminate].
  pose proof (span_digits_length (c :: s)) as Hlen.
  destruct (span_digits (c :: s)) as [ds' r'] eqn:Hspan.
  intros [= <- <-]. specialize (Hlen _ _ eq_refl).
  simpl in Hspan. rewrite Hc in Hspan. destruct (span_digits s).
  injection Hspan as <- <-. simpl in *. lia.
Qed.

Lemma parse_frac_part_length (s fs r : jstring) :
  parse_frac_part s = Some (fs, r) -> (length r <= length s)%nat.
Proof.
  unfold parse_frac_part. destruct s as [|c s]; [intros [= <- <-]; simpl; lia|].
  destruct (c =? 46); [|intros [= <- <-]; simpl; lia].
  destruct (span_digits s) as [[|d ds] r'] eqn:Hspan; [discriminate|].
  intros [= <- <-]. apply span_digits_length in Hspan. simpl in *. lia.
Qed.

Lemma parse_exp_part_length (s es r : jstring) :
  parse_exp_part s = Some (es, r) -> (length r <= length s)%nat.
Proof.
  unfold parse_exp_part. destruct s as [|c s]; [intros [= <- <-]; simpl; lia|].
  destruct ((c =? 101) || (c =? 69)); [|intros [= <- <-]; simpl; lia].
  destruct s as [|d s'].
  - simpl. discriminate.
  - destruct ((d =? 43) || (d =? 45)).
    + destruct (span_digits s') as [[|x ds] r'] eqn:Hspan; [discriminate|].
      intros [= <- <-]. apply span_digits_length in Hspan. simpl in *. lia.
    + destruct (span_digits (d :: s')) as [[|x ds] r'] eqn:Hspan;
        [discriminate|].
      intros [= <- <-]. apply span_digits_length in Hspan. simpl in *. lia.
Qed.

Lemma parse_magnitude_shorter (neg : bool) (s : jstring) (v : value)
    (r : jstring) :
  parse_magnitude neg s = Some (v, r) -> (length r < length s)%nat.
Proof.
  unfold parse_magnitude.
  destruct (parse_int_part s) as [[ds s2]|] eqn:H1; [|discriminate].
  destruct (parse_frac_part s2) as [[fs s3]|] eqn:H2; [|discriminate].
  destruct (parse_exp_part s3) as [[es s4]|] eqn:H3; [|discriminate].
  apply parse_int_part_shorter in H1. apply parse_frac_part_length in H2.
  apply parse_exp_part_length in H3.
  destruct fs, es; intros [= <- <-]; lia.
Qed.

Lemma parse_number_shorter (s : jstring) (v : value) (r : jstring) :
  parse_number s = Some (v, r) -> (length r < length s)%nat.
Proof.
  unfold parse_number. destruct s as [|c s]; [discriminate|].
  destruct (c =? 45); intros H; apply parse_magnitude_shorter in H;
    simpl in *; lia.
Qed.

Lemma parse_value_step_consumes el mem :
  consumes el -> consumes mem -> consumes (parse_value_step el mem).
Proof.
  intros Hel Hmem s v r. unfold parse_value_step.
  destruct (skip_ws s) as [|c s1] eqn:Hs; [discriminate|].
  apply skip_ws_cons_length in Hs.
  destruct (c =? 34).
  { destruct (parse_string_body s1) as [[t r']|] eqn:Hstr; [|discriminate].
    apply parse_string_body_shorter in Hstr. intros [= <- <-]. lia. }
  destruct (c =? 91).
  { destruct (skip_ws s1) as [|d s2] eqn:Hs1; [discriminate|].
    apply skip_ws_cons_length in Hs1.
    destruct (d =? 93); [intros [= <- <-]; lia|].
    destruct (el s1) as [[l r']|] eqn:Hl; [|discriminate].
    apply Hel in Hl. intros [= <- <-]. lia. }
  destruct (c =? 123).
  { destruct (skip_ws s1) as [|d s2] eqn:Hs1; [discriminate|].
    apply skip_ws_cons_length in Hs1.
    destruct (d =? 125); [intros [= <- <-]; lia|].
    destruct (mem s1) as [[o r']|] eqn:Ho; [|discriminate].
    apply Hmem in Ho. intros [= <- <-]. lia. }
  destruct (startsWith (c :: s1) null_text);
    [intros [= <- <-]; rewrite length_drop; simpl; lia|].
  destruct (startsWith (c :: s1) true_text);
    [intros [= <- <-]; rewrite length_drop; simpl; lia|].
  destruct (startsWith (c :: s1) false_text);
    [intros [= <- <-]; rewrite length_drop; simpl; lia|].
  destruct ((c =? 45) || is_digit c); [|discriminate].
  intros H. apply parse_number_shorter in H. simpl in *. lia.
Qed.

Lemma parse_elements_step_consumes one more :
  consumes one -> consumes more -> consumes (parse_elements_step one more).
Proof.
  intros Hone Hmore s l r. unfold parse_elements_step.
  destruct (one s) as [[v r1]|] eqn:Hv; [|discriminate]. apply Hone in Hv.
  destruct (skip_ws r1) as [|c r2] eqn:Hs; [discriminate|].
  apply skip_ws_cons_length in Hs.
  destruct (c =? 44).
  - destruct (more r2) as [[l' r']|] eqn:Hl; [|discriminate].
    apply Hmore in Hl. intros [= <- <-]. lia.
  - destruct (c =? 93); [|discriminate]. intros [= <- <-]. lia.
Qed.

Lemma parse_members_step_consumes one more :
  consumes one -> consumes more -> consumes (parse_members_step one more).
Proof.
  intros Hone Hmore s o r. unfold parse_members_step.
  destruct (skip_ws s) as [|q r0] eqn:Hs; [discriminate|].
  apply skip_ws_cons_length in Hs.
  destruct (q =? 34); [|discriminate].
  destruct (parse_string_body r0) as [[k r1]|] eqn:Hk; [|discriminate].
  apply parse_string_body_shorter in Hk.
  destruct (skip_ws r1) as [|colon r2] eqn:Hs1; [discriminate|].
  apply skip_ws_cons_length in Hs1.
  destruct (colon =? 58); [|discriminate].
  destruct (one r2) as [[v r3]|] eqn:Hv; [|discriminate]. apply Hone in Hv.
  destruct (skip_ws r3) as [|c r4] eqn:Hs3; [discriminate|].
  apply skip_ws_cons_length in Hs3.
  destruct (c =? 44).
  - destruct (more r4) as [[o' r']|] eqn:Ho; [|discriminate].
    apply Hmore in Ho. intros [= <- <-]. lia.
  - destruct (c =? 125); [|discriminate]. intros [= <- <-]. lia.
Qed.

Lemma parse_consumes (fuel : nat) :
  consumes (parse_value fuel) /\ consumes (parse_elements fuel)
  /\ consumes (parse_members fuel).
Proof.
  induction fuel as [|fuel (IHv & IHe & IHm)].
  - repeat split; intros s a r; discriminate.
  - assert (consumes (parse_value (S fuel))) as Hv
      by (apply parse_value_step_consumes; assumption).
    split; [exact Hv|]. split.
    + apply parse_elements_step_consumes; assumption.
    + apply parse_members_step_consumes; assumption.
Qed.

Lemma parse_value_step_ext el el' mem mem' (s : jstring) :
  (forall r, (length r < length s)%nat -> el r = el' r) ->
  (forall r, (length r < length s)%nat -> mem r = mem' r) ->
  parse_value_step el mem s = parse_value_step el' mem' s.
Proof.
  intros Hel Hmem. unfold parse_value_step.
  destruct (skip_ws s) as [|c s1] eqn:Hs; [reflexivity|].
  apply skip_ws_cons_length in Hs.
  rewrite (Hel s1 Hs), (Hmem s1 Hs). reflexivity.
Qed.

Lemma parse_elements_step_ext one one' more more' (s : jstring) :
  consumes one ->
  one s = one' s ->
  (forall r, (S (length r) < length s)%nat -> more r = more' r) ->
  parse_elements_step one more s = parse_elements_step one' more' s.
Proof.
  intros Hcons Hone Hmore. unfold parse_elements_step. rewrite <- Hone.
  destruct (one s) as [[v r1]|] eqn:Hv; [|reflexivity]. apply Hcons in Hv.
  destruct (skip_ws r1) as [|c r2] eqn:Hs; [reflexivity|].
  apply skip_ws_cons_length in Hs.
  rewrite (Hmore r2) by lia. reflexivity.
Qed.

Lemma parse_members_step_ext one one' more more' (s : jstring) :
  consumes one ->
  (forall r, (length r < length s)%nat -> one r = one' r) ->
  (forall r, (length r < length s)%nat -> more r = more' r) ->
  parse_members_step one more s = parse_members_step one' more' s.
Proof.
  intros Hcons Hone Hmore. unfold parse_members_step.
  destruct (skip_ws s) as [|q r0] eqn:Hs; [reflexivity|].
  apply skip_ws_cons_length in Hs.
  destruct (q =? 34); [|reflexivity].
  destruct (parse_string_body r0) as [[k r1]|] eqn:Hk; [|reflexivity].
  apply parse_string_body_shorter in Hk.
  destruct (skip_ws r1) as [|colon r2] eqn:Hs1; [reflexivity|].
  apply skip_ws_cons_length in Hs1.
  destruct (colon =? 58); [|reflexivity].
  rewrite <- (Hone r2) by lia.
  destruct (one r2) as [[v r3]|] eqn:Hv; [|reflexivity]. apply Hcons in Hv.
  destruct (skip_ws r3) as [|c r4] eqn:Hs3; [reflexivity|].
  apply skip_ws_cons_length in Hs3.
  rewrite (Hmore r4) by lia. reflexivity.
Qed.

(** One more unit of fuel changes nothing, from twice the length on. *)
Lemma parse_one_more_fuel (n : nat) :
  (forall s f, (length s <= n)%nat -> (2 * length s + 1 <= f)%nat ->
     parse_value f s = parse_value (S f) s)
  /\ (forall s f, (length s <= n)%nat -> (2 * length s + 2 <= f)%nat ->
        parse_elements f s = parse_elements (S f) s)
  /\ (forall s f, (length s <= n)%nat -> (2 * length s + 1 <= f)%nat ->
        parse_members f s = parse_members (S f) s).
Proof.
  assert (forall s f, length s = O -> (1 <= f)%nat ->
            parse_value f s = parse_value (S f) s) as Hv0.
  { intros [|c s] [|f] Hs Hf; try discriminate; try lia.
    change (parse_value (S f))
      with (parse_value_step (parse_elements f) (parse_members f)).
    change (parse_value (S (S f)))
      with (parse_value_step (parse_elements (S f)) (parse_members (S f))).
    reflexivity. }
  induction n as [|n (IHv & IHe & IHm)].
  - split; [|split].
    + intros s f Hs Hf. apply Hv0; lia.
    + intros s [|f] Hs Hf; [lia|].
      change (parse_elements (S f))
        with (parse_elements_step (parse_value f) (parse_elements f)).
      change (parse_elements (S (S f)))
        with (parse_elements_step (parse_value (S f)) (parse_elements (S f))).
      apply parse_elements_step_ext.
      * apply parse_consumes.
      * apply Hv0; lia.
      * intros r Hr. lia.
    + intros [|c s] [|f] Hs Hf; simpl in Hs; try lia. reflexivity.
  - assert (forall s f, (length s <= S n)%nat -> (2 * length s + 1 <= f)%nat ->
              parse_value f s = parse_value (S f) s) as Hv.
    { intros s [|f] Hs Hf; [lia|].
      change (parse_value (S f))
        with (parse_value_step (parse_elements f) (parse_members f)).
      change (parse_value (S (S f)))
        with (parse_value_step (parse_elements (S f)) (parse_members (S f))).
      apply parse_value_step_ext; intros r Hr; [apply IHe | apply IHm]; lia. }
    split; [exact Hv|]. split.
    + intros s [|f] Hs Hf; [lia|].
      change (parse_elements (S f))
        with (parse_elements_step (parse_value f) (parse_elements f)).
      change (parse_elements (S (S f)))
        with (parse_elements_step (parse_value (S f)) (parse_elements (S f))).
      apply parse_elements_step_ext.
      * apply parse_consumes.
      * apply Hv; lia.
      * intros r Hr. apply IHe; lia.
    + intros s [|f] Hs Hf; [lia|].
      change (parse_members (S f))
        with (parse_members_step (parse_value f) (parse_members f)).
      change (parse_members (S (S f)))
        with (parse_members_step (parse_value (S f)) (parse_members (S f))).
      apply parse_members_step_ext.
      * apply parse_consumes.
      * intros r Hr. apply IHv; lia.
      * intros r Hr. apply IHm; lia.
Qed.

(** With any fuel above the fuel [JSON_parse] gives, the result is the
    result of [JSON_parse]'s own fuel. *)
Lemma parse_value_enough_fuel (s : jstring) (fuel : nat) :
  (2 * length s + 2 <= fuel)%nat ->
  parse_value fuel s = parse_value (2 * length s + 2) s.
Proof.
  intros Hfuel.
  replace fuel with ((fuel - (2 * length s + 2)) + (2 * length s + 2))%nat
    by lia.
  induction (fuel - (2 * length s + 2))%nat as [|k IH]; [reflexivity|].
  rewrite <- IH. symmetry.
  apply (proj1 (parse_one_more_fuel (length s))); lia.
Qed.

(** ** The storage *)

(** [saveToStorage] step by step: the primary slot is written first, the
    backup slot only after it, and any failure is reported as
    [StorageUnavailable]. *)
Lemma saveToStorage_run (data : value) (w : World) :
  MockBackendAPI.saveToStorage data w
  = let text := JSON_stringify data in
    let w1 := add_event (SetItem MockBackendAPI.storageKey) w in
    match write_item MockBackendAPI.storageKey text (localStorage w) with
    | inl _ => (inl StorageUnavailable, w1)
    | inr st1 =>
        let w2 := add_event (SetItem MockBackendAPI.backupKey)
                    (set_localStorage (fun _ => st1) w1) in
        match write_item MockBackendAPI.backupKey text st1 with
        | inl _ => (inl StorageUnavailable, w2)
        | inr st2 => (inr tt, set_localStorage (fun _ => st2) w2)
        end
    end.
Proof.
  unfold MockBackendAPI.saveToStorage, localStorage_setItem, try_catch, bind,
    emit, modify, get_world, lift, throw, ret.
  simpl.
  destruct (write_item MockBackendAPI.storageKey (JSON_stringify data)
              (localStorage w)) as [err|st1]; [reflexivity|].
  simpl.
  destruct (write_item MockBackendAPI.backupKey (JSON_stringify data) st1)
    as [err|st2]; reflexivity.
Qed.

Lemma saveToStorage_appState (data : value) (w : World) :
  appState (snd (MockBackendAPI.saveToStorage data w)) = appState w
  /\ dom (snd (MockBackendAPI.saveToStorage data w)) = dom w.
Proof.
  rewrite saveToStorage_run. cbv zeta.
  destruct (write_item _ _ (localStorage w)) as [?|st1]; [split; reflexivity|].
  destruct (write_item _ _ st1); split; reflexivity.
Qed.

Lemma saveToStorage_result (data : value) (w : World) :
  fst (MockBackendAPI.saveToStorage data w) = inr tt
  \/ fst (MockBackendAPI.saveToStorage data w) = inl StorageUnavailable.
Proof.
  rewrite saveToStorage_run. cbv zeta.
  destruct (write_item _ _ (localStorage w)) as [?|st1]; [right; reflexivity|].
  destruct (write_item _ _ st1); [right | left]; reflexivity.
Qed.

(** ** The mock backend, operation by operation

    Each mutating operation changes the catalog in memory first and writes
    the storage after; what it returns or throws is what [saveToStorage]
    returns or throws. *)

Lemma createMedia_run (e : Env) (o : object) (w : World) (l : list value) :
  mediaItems (appState w) = VArr l ->
  let mediaItem :=
    VObj [(k_id, VStr (Utils.generateId e));
          (k_fileName, obj_get k_fileName o);
          (k_description, obj_get k_description o);
          (k_uploadDate, VStr (iso_first e));
          (k_fileType, obj_get k_fileType o);
          (k_fileSize, obj_get k_fileSize o)] in
  MockBackendAPI.createMedia e (VObj o) w
  = after_save mediaItem
      (MockBackendAPI.saveToStorage
         (snapshot_of (VArr (l ++ [mediaItem])) (iso_second e))
         (set_app (set_mediaItems (VArr (l ++ [mediaItem])))
            (add_event (CreateMedia (VObj o)) w))).
Proof.
  intros Hl mediaItem.
  unfold MockBackendAPI.createMedia, MockBackendAPI.snapshot, bind, emit,
    modify, get_world, lift, ret, get_prop.
  simpl. rewrite Hl. simpl. fold mediaItem.
  unfold after_save, snapshot_of.
  destruct (MockBackendAPI.saveToStorage _ _) as [[err|[]] w']; reflexivity.
Qed.

Lemma updateMedia_run (e : Env) (id : jstring) (updates : value) (w : World)
    (l : list value) (i : nat) :
  mediaItems (appState w) = VArr l ->
  findIndex_id id l = inr (Some i) ->
  let merged :=
    VObj (obj_assign []
            (spread_props (default VUndefined (l !! i))
             ++ spread_props updates)) in
  MockBackendAPI.updateMedia e id updates w
  = after_save merged
      (MockBackendAPI.saveToStorage
         (snapshot_of (VArr (<[i := merged]> l)) (iso_first e))
         (set_app (set_mediaItems (VArr (<[i := merged]> l)))
            (add_event (UpdateMedia id updates) w))).
Proof.
  intros Hl Hi merged.
  assert (i < length l)%nat as Hlen.
  { clear -Hi. revert i Hi. induction l as [|x l IH]; intros i Hi; simpl in Hi.
    - discriminate.
    - destruct (get_prop x k_id); [discriminate|].
      destruct (strict_eq_string v id); [injection Hi as <-; simpl; lia|].
      destruct (findIndex_id id l) as [?|[j|]]; try discriminate.
      injection Hi as <-. specialize (IH j eq_refl). simpl. lia. }
  unfold MockBackendAPI.updateMedia, MockBackendAPI.snapshot, bind, emit,
    modify, get_world, lift, ret.
  simpl. rewrite Hl. simpl. rewrite Hi. simpl. fold merged.
  unfold after_save, snapshot_of.
  pose proof (saveToStorage_appState
                (VObj [(k_mediaItems, VArr (<[i:=merged]> l));
                       (k_lastUpdated, VStr (iso_first e));
                       (k_version, VStr version_1_0)])
                (set_app (set_mediaItems (VArr (<[i:=merged]> l)))
                   (add_event (UpdateMedia id updates) w))) as [Happ _].
  destruct (MockBackendAPI.saveToStorage _ _) as [[err|[]] w'];
    [reflexivity|].
  simpl in Happ. rewrite Happ. simpl.
  rewrite list_lookup_insert_eq by assumption. reflexivity.
Qed.

Lemma deleteMedia_run (e : Env) (id : jstring) (w : World)
    (l : list value) (i : nat) :
  mediaItems (appState w) = VArr l ->
  findIndex_id id l = inr (Some i) ->
  MockBackendAPI.deleteMedia e id w
  = MockBackendAPI.saveToStorage
      (snapshot_of (VArr (delete i l)) (iso_first e))
      (set_app (set_mediaItems (VArr (delete i l)))
         (add_event (DeleteMedia id) w)).
Proof.
  intros Hl Hi.
  unfold MockBackendAPI.deleteMedia, MockBackendAPI.snapshot, bind, emit,
    modify, get_world, lift, ret.
  simpl. rewrite Hl. simpl. rewrite Hi. simpl.
  unfold snapshot_of.
  destruct (MockBackendAPI.saveToStorage _ _) as [[err|[]] w']; reflexivity.
Qed.

Lemma updateMedia_not_found (e : Env) (id : jstring) (updates : value)
    (w : World) (l : list value) :
  mediaItems (appState w) = VArr l ->
  findIndex_id id l = inr None ->
  MockBackendAPI.updateMedia e id updates w
  = (inl NotFound, add_event (UpdateMedia id updates) w).
Proof.
  intros Hl Hi.
  unfold MockBackendAPI.updateMedia, bind, emit, modify, get_world, lift, ret.
  simpl. rewrite Hl. simpl. rewrite Hi. reflexivity.
Qed.

Lemma deleteMedia_not_found (e : Env) (id : jstring) (w : World)
    (l : list value) :
  mediaItems (appState w) = VArr l ->
  findIndex_id id l = inr None ->
  MockBackendAPI.deleteMedia e id w
  = (inl NotFound, add_event (DeleteMedia id) w).
Proof.
  intros Hl Hi.
  unfold MockBackendAPI.deleteMedia, bind, emit, modify, get_world, lift, ret.
  simpl. rewrite Hl. simpl. rewrite Hi. reflexivity.
Qed.

Lemma getMedia_run (w : World) (l : list value) :
  mediaItems (appState w) = VArr l ->
  MockBackendAPI.getMedia w = (inr (VArr l), add_event GetMedia w).
Proof.
  intros Hl. unfold MockBackendAPI.getMedia, bind, emit, modify, get_world,
    lift, ret.
  simpl. rewrite Hl. reflexivity.
Qed.

(** ** Records in the catalog *)

Lemma findIndex_id_catalog (id : jstring) (c : list MediaRecord.t) :
  findIndex_id id (MediaRecord.to_value <$> c) = inr (index_of id c).
Proof.
  induction c as [|r c IH]; [reflexivity|].
  cbn [fmap list_fmap findIndex_id index_of].
  change (get_prop (MediaRecord.to_value r) k_id)
    with (@inr exn value (VStr (MediaRecord.id r))).
  cbn [strict_eq_string].
  destruct (jstring_eqb (MediaRecord.id r) id); [reflexivity|].
  fold (@fmap list _ _ _ MediaRecord.to_value c). rewrite IH.
  destruct (index_of id c); reflexivity.
Qed.

Lemma index_of_Some (id : jstring) (c : list MediaRecord.t) (i : nat) :
  index_of id c = Some i ->
  exists r, c !! i = Some r /\ MediaRecord.id r = id.
Proof.
  revert i. induction c as [|r c IH]; intros i; simpl; [discriminate|].
  destruct (jstring_eqb (MediaRecord.id r) id) eqn:Hid.
  - intros [= <-]. exists r. split; [reflexivity|].
    apply jstring_eqb_eq. assumption.
  - destruct (index_of id c) as [j|]; [|discriminate].
    intros [= <-]. apply (IH j). reflexivity.
Qed.

Lemma index_of_None (id : jstring) (c : list MediaRecord.t) :
  index_of id c = None <-> id ∉ ids c.
Proof.
  unfold ids. induction c as [|r c IH]; simpl.
  - split; [intros _ H; inversion H | reflexivity].
  - rewrite not_elem_of_cons.
    destruct (jstring_eqb (MediaRecord.id r) id) eqn:Hid.
    + apply jstring_eqb_eq in Hid. split; [discriminate|].
      intros [H _]. congruence.
    + apply jstring_eqb_neq in Hid.
      destruct (index_of id c) as [j|].
      * split; [discriminate|]. intros [_ H]. apply IH in H. discriminate.
      * split; [|reflexivity]. intros _. split; [congruence|].
        apply IH. reflexivity.
Qed.

Lemma index_of_NoDup (c : list MediaRecord.t) (i : nat) (r : MediaRecord.t) :
  NoDup (ids c) -> c !! i = Some r -> index_of (MediaRecord.id r) c = Some i.
Proof.
  unfold ids. revert i. induction c as [|r' c IH]; intros i Hnd Hi.
  - discriminate.
  - apply NoDup_cons in Hnd as [Hnotin Hnd]. destruct i as [|i]; simpl in *.
    + injection Hi as ->. rewrite jstring_eqb_refl. reflexivity.
    + destruct (jstring_eqb (MediaRecord.id r') (MediaRecord.id r)) eqn:Hid.
      * apply jstring_eqb_eq in Hid. exfalso. apply Hnotin. rewrite Hid.
        apply list_elem_of_fmap_2. apply list_elem_of_lookup. eauto.
      * rewrite (IH i Hnd Hi). reflexivity.
Qed.

(** [{ ...record, description: d }] is the record with the new
    description. *)
Lemma merge_description (d : jstring) (r : MediaRecord.t) :
  VObj (obj_assign []
          (spread_props (MediaRecord.to_value r)
           ++ spread_props (VObj [(k_description, VStr d)])))
  = MediaRecord.to_value (MediaRecord.with_description d r).
Proof.
  unfold MediaRecord.to_value, MediaRecord.with_description. simpl.
  destruct (MediaRecord.fileSize r); reflexivity.
Qed.

Lemma snd_after_save {A} (result : A) (saved : (exn + unit) * World) :
  snd (after_save result saved) = snd saved.
Proof. destruct saved as [[err|u] w]; reflexivity. Qed.

Lemma after_save_appState {A} (result : A) (data : value) (w : World) :
  appState (snd (after_save result (MockBackendAPI.saveToStorage data w)))
  = appState w.
Proof. rewrite snd_after_save. apply saveToStorage_appState. Qed.

Lemma lookup_catalog (c : list MediaRecord.t) (i : nat) (r : MediaRecord.t) :
  c !! i = Some r ->
  default VUndefined ((MediaRecord.to_value <$> c) !! i) = MediaRecord.to_value r.
Proof. intros H. rewrite list_lookup_fmap, H. reflexivity. Qed.

(** What [updateMedia] with a new description leaves in memory. *)
Lemma updateMedia_description_catalog (e : Env) (d : jstring) (w : World)
    (c : list MediaRecord.t) (i : nat) (r : MediaRecord.t) :
  mediaItems (appState w) = catalog_value c ->
  NoDup (ids c) ->
  c !! i = Some r ->
  mediaItems (appState (snd (MockBackendAPI.updateMedia e (MediaRecord.id r)
                               (VObj [(k_description, VStr d)]) w)))
  = catalog_value (<[i := MediaRecord.with_description d r]> c).
Proof.
  intros Hw Hnd Hi.
  rewrite (updateMedia_run e _ _ w _ i Hw)
    by (rewrite findIndex_id_catalog, (index_of_NoDup c i r); auto).
  cbv zeta. rewrite after_save_appState.
  cbn [appState set_app mediaItems set_mediaItems].
  rewrite (lookup_catalog c i r Hi), merge_description.
  unfold catalog_value. rewrite list_fmap_insert. reflexivity.
Qed.

Lemma NoDup_ids_two : NoDup (ids [cat_photo; dog_video]).
Proof.
  apply NoDup_cons. split.
  - intros H. apply list_elem_of_singleton in H. discriminate.
  - apply NoDup_singleton.
Defined.

(** ** C5: an update of the description, then the list *)

(** C5.  For every catalog and every record in it, [updateMedia] of the
    record's id with [{description: d}], followed by [getMedia], lists at
    the record's position a record with description [d] and with the id,
    file name, upload date, file type and file size it had, and lists every
    other record unchanged at its position. *)
Theorem update_description_then_list (e : Env) (d : jstring) (w : World)
    (c : list MediaRecord.t) (i : nat) (r : MediaRecord.t) :
  mediaItems (appState w) = catalog_value c ->
  NoDup (ids c) ->
  c !! i = Some r ->
  let w1 := snd (MockBackendAPI.updateMedia e (MediaRecord.id r)
                   (VObj [(k_description, VStr d)]) w) in
  exists listed r',
    fst (MockBackendAPI.getMedia w1) = inr (catalog_value listed)
    /\ length listed = length c
    /\ listed !! i = Some r'
    /\ MediaRecord.description r' = d
    /\ MediaRecord.id r' = MediaRecord.id r
    /\ MediaRecord.fileName r' = MediaRecord.fileName r
    /\ MediaRecord.uploadDate r' = MediaRecord.uploadDate r
    /\ MediaRecord.fileType r' = MediaRecord.fileType r
    /\ MediaRecord.fileSize r' = MediaRecord.fileSize r
    /\ forall j, j <> i -> listed !! j = c !! j.
Proof.
  intros Hw Hnd Hi w1.
  exists (<[i := MediaRecord.with_description d r]> c),
    (MediaRecord.with_description d r).
  assert (i < length c)%nat as Hlen by (eapply lookup_lt_Some; eassumption).
  split.
  - rewrite (getMedia_run w1 (MediaRecord.to_value <$>
                               <[i := MediaRecord.with_description d r]> c));
      [reflexivity|].
    apply updateMedia_description_catalog; assumption.
  - split; [apply length_insert|].
    split; [apply list_lookup_insert_eq; assumption|].
    repeat (split; [reflexivity|]).
    intros j Hj. apply list_lookup_insert_ne. congruence.
Qed.

Lemma update_description_then_list_witness :
  let w1 := snd (MockBackendAPI.updateMedia noon (MediaRecord.id dog_video)
                   (VObj [(k_description, VStr (js "new dog video"))])
                   (world_of [cat_photo; dog_video] roomy)) in
  exists listed r',
    fst (MockBackendAPI.getMedia w1) = inr (catalog_value listed)
    /\ length listed = length [cat_photo; dog_video]
    /\ listed !! 1%nat = Some r'
    /\ MediaRecord.description r' = js "new dog video"
    /\ MediaRecord.id r' = MediaRecord.id dog_video
    /\ MediaRecord.fileName r' = MediaRecord.fileName dog_video
    /\ MediaRecord.uploadDate r' = MediaRecord.uploadDate dog_video
    /\ MediaRecord.fileType r' = MediaRecord.fileType dog_video
    /\ MediaRecord.fileSize r' = MediaRecord.fileSize dog_video
    /\ forall j, j <> 1%nat -> listed !! j = [cat_photo; dog_video] !! j.
Proof.
  exact (update_description_then_list noon (js "new dog video")
           (world_of [cat_photo; dog_video] roomy) [cat_photo; dog_video]
           1 dog_video eq_refl NoDup_ids_two eq_refl).
Defined.

(** ** C6: NotFound *)

Lemma fst_after_save_not_found {A} (result : A) (data : value) (w : World) :
  fst (after_save result (MockBackendAPI.saveToStorage data w)) <> inl NotFound.
Proof.
  destruct (saveToStorage_result data w) as [H|H];
    destruct (MockBackendAPI.saveToStorage data w) as [[err|u] w'];
    unfold NotFound, StorageUnavailable in *; simpl in *; congruence.
Qed.

Lemma ids_delete_NoDup (c : list MediaRecord.t) (i : nat) (r : MediaRecord.t) :
  NoDup (ids c) -> c !! i = Some r -> MediaRecord.id r ∉ ids (delete i c).
Proof.
  unfold ids. revert i. induction c as [|r' c IH]; intros i Hnd Hi.
  - discriminate.
  - apply NoDup_cons in Hnd as [Hnotin Hnd]. destruct i as [|i]; simpl in *.
    + injection Hi as ->. assumption.
    + apply not_elem_of_cons. split; [|apply IH; assumption].
      intros Heq. apply Hnotin. rewrite <- Heq.
      apply list_elem_of_fmap_2. apply list_elem_of_lookup. eauto.
Qed.

Lemma deleteMedia_catalog (e : Env) (w : World) (c : list MediaRecord.t)
    (i : nat) (r : MediaRecord.t) :
  mediaItems (appState w) = catalog_value c ->
  NoDup (ids c) ->
  c !! i = Some r ->
  MockBackendAPI.deleteMedia e (MediaRecord.id r) w
  = MockBackendAPI.saveToStorage
      (snapshot_of (catalog_value (delete i c)) (iso_first e))
      (set_app (set_mediaItems (catalog_value (delete i c)))
         (add_event (DeleteMedia (MediaRecord.id r)) w)).
Proof.
  intros Hw Hnd Hi.
  rewrite (deleteMedia_run e _ w _ i Hw)
    by (rewrite findIndex_id_catalog, (index_of_NoDup c i r); auto).
  unfold catalog_value. rewrite list_fmap_delete. reflexivity.
Qed.

(** C6.  On a catalog with distinct ids, [updateMedia] and [deleteMedia]
    fail with NotFound exactly when the id is absent; after [deleteMedia] of
    an id, [getMedia] lists no record with that id, and a second
    [deleteMedia] of the id fails with NotFound and leaves the catalog (and
    the storage) as they were. *)
Theorem not_found_exactly_when_absent (e e' : Env) (id : jstring)
    (updates : value) (w : World) (c : list MediaRecord.t) :
  mediaItems (appState w) = catalog_value c ->
  NoDup (ids c) ->
  (fst (MockBackendAPI.updateMedia e id updates w) = inl NotFound
   <-> id ∉ ids c)
  /\ (fst (MockBackendAPI.deleteMedia e id w) = inl NotFound <-> id ∉ ids c)
  /\ let w1 := snd (MockBackendAPI.deleteMedia e id w) in
     exists listed,
       fst (MockBackendAPI.getMedia w1) = inr (catalog_value listed)
       /\ (id ∉ ids listed)
       /\ let again :=
            MockBackendAPI.deleteMedia e' id (snd (MockBackendAPI.getMedia w1))
          in (fst again = inl NotFound
              /\ appState (snd again) = appState w1
              /\ localStorage (snd again) = localStorage w1).
Proof.
  intros Hw Hnd.
  destruct (index_of id c) as [i|] eqn:Hindex.
  - destruct (index_of_Some id c i Hindex) as (r & Hi & <-).
    assert (~ (MediaRecord.id r ∉ ids c)) as Hpresent.
    { intros H. apply index_of_None in H. congruence. }
    split; [|split].
    + rewrite (updateMedia_run e _ updates w _ i Hw)
        by (rewrite findIndex_id_catalog; f_equal; assumption).
      cbv zeta. split; [intros H | contradiction].
      exfalso. eapply fst_after_save_not_found. exact H.
    + rewrite (deleteMedia_catalog e w c i r Hw Hnd Hi).
      split; [intros H | contradiction].
      destruct (saveToStorage_result
                  (snapshot_of (catalog_value (delete i c)) (iso_first e))
                  (set_app (set_mediaItems (catalog_value (delete i c)))
                     (add_event (DeleteMedia (MediaRecord.id r)) w)));
        unfold NotFound, StorageUnavailable in *; congruence.
    + intros w1. exists (delete i c).
      assert (mediaItems (appState w1) = catalog_value (delete i c)) as Hw1.
      { unfold w1. rewrite (deleteMedia_catalog e w c i r Hw Hnd Hi).
        destruct (saveToStorage_appState
                    (snapshot_of (catalog_value (delete i c)) (iso_first e))
                    (set_app (set_mediaItems (catalog_value (delete i c)))
                       (add_event (DeleteMedia (MediaRecord.id r)) w)))
          as [-> _].
        reflexivity. }
      pose proof (ids_delete_NoDup c i r Hnd Hi) as Hgone.
      rewrite (getMedia_run w1 _ Hw1).
      split; [reflexivity|]. split; [assumption|].
      cbv zeta. cbn [snd].
      rewrite (deleteMedia_not_found e' _ (add_event GetMedia w1) _ Hw1)
        by (rewrite findIndex_id_catalog; f_equal; apply index_of_None;
            assumption).
      repeat split; reflexivity.
  - assert (id ∉ ids c) as Habsent by (apply index_of_None; assumption).
    assert (findIndex_id id (MediaRecord.to_value <$> c) = inr None) as Hfind
      by (rewrite findIndex_id_catalog; f_equal; assumption).
    split; [|split].
    + rewrite (updateMedia_not_found e id updates w _ Hw Hfind).
      split; [intros _; assumption | reflexivity].
    + rewrite (deleteMedia_not_found e id w _ Hw Hfind).
      split; [intros _; assumption | reflexivity].
    + intros w1. exists c.
      assert (mediaItems (appState w1) = catalog_value c) as Hw1.
      { unfold w1. rewrite (deleteMedia_not_found e id w _ Hw Hfind).
        exact Hw. }
      rewrite (getMedia_run w1 _ Hw1).
      split; [reflexivity|]. split; [assumption|].
      cbv zeta. cbn [snd].
      rewrite (deleteMedia_not_found e' _ (add_event GetMedia w1) _ Hw1 Hfind).
      repeat split; reflexivity.
Qed.

Lemma not_found_exactly_when_absent_witness :
  (fst (MockBackendAPI.updateMedia noon (MediaRecord.id cat_photo)
          (VObj [(k_description, VStr (js "new cat photo"))])
          (world_of [cat_photo; dog_video] roomy)) = inl NotFound
   <-> MediaRecord.id cat_photo ∉ ids [cat_photo; dog_video])
  /\ (fst (MockBackendAPI.deleteMedia noon (MediaRecord.id cat_photo)
             (world_of [cat_photo; dog_video] roomy)) = inl NotFound
      <-> MediaRecord.id cat_photo ∉ ids [cat_photo; dog_video])
  /\ let w1 := snd (MockBackendAPI.deleteMedia noon (MediaRecord.id cat_photo)
                      (world_of [cat_photo; dog_video] roomy)) in
     exists listed,
       fst (MockBackendAPI.getMedia w1) = inr (catalog_value listed)
       /\ (MediaRecord.id cat_photo ∉ ids listed)
       /\ let again :=
            MockBackendAPI.deleteMedia noon (MediaRecord.id cat_photo)
              (snd (MockBackendAPI.getMedia w1))
          in (fst again = inl NotFound
              /\ appState (snd again) = appState w1
              /\ localStorage (snd again) = localStorage w1).
Proof.
  exact (not_found_exactly_when_absent noon noon (MediaRecord.id cat_photo)
           (VObj [(k_description, VStr (js "new cat photo"))])
           (world_of [cat_photo; dog_video] roomy) [cat_photo; dog_video]
           eq_refl NoDup_ids_two).
Defined.

(** ** Reading the storage *)

Lemma slot_get_slot_set_eq (k v : jstring) (l : list (jstring * jstring)) :
  slot_get k (slot_set k v l) = Some v.
Proof.
  induction l as [|[k' v'] l IH]; simpl.
  - rewrite jstring_eqb_refl. reflexivity.
  - destruct (jstring_eqb k k') eqn:Hk; simpl.
    + rewrite jstring_eqb_refl. reflexivity.
    + rewrite Hk. exact IH.
Qed.

Lemma slot_get_slot_set_ne (k k' v : jstring) (l : list (jstring * jstring)) :
  k <> k' -> slot_get k (slot_set k' v l) = slot_get k l.
Proof.
  intros Hne. apply jstring_eqb_neq in Hne.
  induction l as [|[k'' v''] l IH]; simpl.
  - rewrite Hne. reflexivity.
  - destruct (jstring_eqb k' k'') eqn:Hk; simpl.
    + apply jstring_eqb_eq in Hk. subst k''. rewrite Hne. reflexivity.
    + destruct (jstring_eqb k k''); [reflexivity | exact IH].
Qed.

Lemma write_item_inr (key text : jstring) (st st' : Storage) :
  write_item key text st = inr st' ->
  includes (denied st) key = false
  /\ st' = with_items (slot_set key text (items st)) st
  /\ usage (slot_set key text (items st)) <= quota st.
Proof.
  unfold write_item. destruct (includes (denied st) key); [discriminate|].
  destruct (N.ltb_spec (quota st) (usage (slot_set key text (items st))));
    [discriminate|].
  intros [= <-]. auto.
Qed.

Lemma getItem_run (key : jstring) (w : World) :
  (data <- localStorage_getItem key ;; MockBackendAPI.parse_or_empty data) w
  = (load_item key (localStorage w), add_event (GetItem key) w).
Proof.
  unfold localStorage_getItem, MockBackendAPI.parse_or_empty, load_item, bind,
    emit, modify, get_world, lift, throw, ret.
  simpl.
  destruct (read_item key (localStorage w)) as [err|[[|c text]|]];
    try reflexivity.
  destruct (JSON_parse (c :: text)); reflexivity.
Qed.

Lemma loadFromStorage_run (w : World) :
  MockBackendAPI.loadFromStorage w
  = (inr (fst (load_result (localStorage w))),
     add_events (snd (load_result (localStorage w))) w).
Proof.
  unfold MockBackendAPI.loadFromStorage, try_catch, load_result.
  rewrite getItem_run.
  destruct (load_item MockBackendAPI.storageKey (localStorage w)) as [err|v].
  - rewrite getItem_run. cbn [localStorage add_event].
    destruct (load_item MockBackendAPI.backupKey (localStorage w));
      unfold ret, add_events, add_event; simpl; rewrite <- app_assoc;
      reflexivity.
  - reflexivity.
Qed.

Lemma init_run (w : World) :
  MockBackendAPI.init w
  = (inr tt,
     set_app (set_mediaItems (catalog_from (fst (load_result (localStorage w)))))
       (add_events (snd (load_result (localStorage w))) w)).
Proof.
  unfold MockBackendAPI.init, try_catch, bind. rewrite loadFromStorage_run.
  unfold catalog_from, lift, modify, throw, ret.
  destruct (get_prop (fst (load_result (localStorage w))) k_mediaItems);
    reflexivity.
Qed.

Lemma init_trace (w : World) :
  trace (snd (MockBackendAPI.init w))
  = trace w ++ GetItem MockBackendAPI.storageKey
      :: (if primary_throws (localStorage w)
          then [GetItem MockBackendAPI.backupKey] else []).
Proof.
  rewrite init_run. unfold load_result, primary_throws.
  destruct (load_item MockBackendAPI.storageKey (localStorage w)); reflexivity.
Qed.

Lemma catalog_from_cases (data : value) :
  catalog_from data = VArr []
  \/ get_prop data k_mediaItems = inr (catalog_from data).
Proof.
  unfold catalog_from, js_or.
  destruct (get_prop data k_mediaItems) as [err|loaded]; [left; reflexivity|].
  destruct (truthy loaded); [right | left]; reflexivity.
Qed.

Lemma catalog_from_truthy (data : value) : truthy (catalog_from data) = true.
Proof.
  unfold catalog_from, js_or.
  destruct (get_prop data k_mediaItems) as [err|loaded]; [reflexivity|].
  destruct (truthy loaded) eqn:H; [exact H | reflexivity].
Qed.

Lemma load_item_cases (key : jstring) (st : Storage) (data : value) :
  load_item key st = inr data ->
  data = MockBackendAPI.empty_data
  \/ exists text, read_item key st = inr (Some text)
                  /\ JSON_parse text = Some data.
Proof.
  unfold load_item.
  destruct (read_item key st) as [err|[[|c text]|]]; try discriminate;
    try (intros [= <-]; left; reflexivity).
  destruct (JSON_parse (c :: text)) as [v|] eqn:Hparse; [|discriminate].
  intros [= <-]. right. exists (c :: text). auto.
Qed.

Lemma JSON_parse_empty : JSON_parse [] = None.
Proof. reflexivity. Qed.

Lemma load_item_parsed (key text : jstring) (st : Storage) (data : value) :
  read_item key st = inr (Some text) -> JSON_parse text = Some data ->
  load_item key st = inr data.
Proof.
  intros Hread Hparse. unfold load_item. rewrite Hread.
  destruct text as [|c text]; [rewrite JSON_parse_empty in Hparse; discriminate|].
  rewrite Hparse. reflexivity.
Qed.

(** ** C9: an absent primary slot *)

(** C9.  When the primary slot is absent ([getItem] returns [null]), [init]
    leaves an empty catalog and reads the primary slot only, whatever the
    backup slot holds; in every world, [init] reads the backup slot exactly
    when reading or parsing the primary slot throws. *)
Theorem absent_primary_ignores_backup (w : World) :
  read_item MockBackendAPI.storageKey (localStorage w) = inr None ->
  fst (MockBackendAPI.init w) = inr tt
  /\ mediaItems (appState (snd (MockBackendAPI.init w))) = VArr []
  /\ trace (snd (MockBackendAPI.init w))
     = trace w ++ [GetItem MockBackendAPI.storageKey]
  /\ forall w',
       trace (snd (MockBackendAPI.init w'))
       = trace w' ++ GetItem MockBackendAPI.storageKey
           :: (if primary_throws (localStorage w')
               then [GetItem MockBackendAPI.backupKey] else []).
Proof.
  intros Habsent.
  assert (load_item MockBackendAPI.storageKey (localStorage w)
          = inr MockBackendAPI.empty_data) as Hload
    by (unfold load_item; rewrite Habsent; reflexivity).
  split; [rewrite init_run; reflexivity|].
  split; [|split; [|exact init_trace]].
  - rewrite init_run. unfold load_result. rewrite Hload. reflexivity.
  - rewrite init_trace. unfold primary_throws. rewrite Hload. reflexivity.
Qed.

Lemma absent_primary_ignores_backup_witness :
  load_item MockBackendAPI.backupKey backup_only
  = inr (snapshot_of (catalog_value [cat_photo]) (js "2023-11-14T22:13:20.001Z"))
  /\ fst (MockBackendAPI.init (world_of [dog_video] backup_only)) = inr tt
  /\ mediaItems (appState (snd (MockBackendAPI.init
                                  (world_of [dog_video] backup_only))))
     = VArr []
  /\ trace (snd (MockBackendAPI.init (world_of [dog_video] backup_only)))
     = [GetItem MockBackendAPI.storageKey].
Proof.
  split; [vm_compute; reflexivity|].
  pose proof (absent_primary_ignores_backup (world_of [dog_video] backup_only)
                eq_refl) as (H1 & H2 & H3 & _).
  auto.
Defined.

(** ** C4: the backup slot *)

(** [init] on a primary slot holding [{"mediaItems":5}] does not throw and
    leaves the number 5 as the catalog: not an array, so not a catalog. *)
Lemma init_not_always_valid :
  fst (MockBackendAPI.init (world_of [] misshapen_primary)) = inr tt
  /\ mediaItems (appState (snd (MockBackendAPI.init
                                  (world_of [] misshapen_primary))))
     = VNum 5
  /\ ~ (forall w, exists l,
          mediaItems (appState (snd (MockBackendAPI.init w))) = VArr l).
Proof.
  split; [reflexivity|]. split; [vm_compute; reflexivity|].
  intros H. destruct (H (world_of [] misshapen_primary)) as [l Hl].
  vm_compute in Hl. discriminate.
Qed.

(** C4, as the code has it.  When reading or parsing the primary slot throws
    and the backup slot holds a text that parses to an object whose
    [mediaItems] is an array, [init] leaves exactly that array as the
    catalog.  In every world [init] returns without throwing, and the
    catalog it leaves is never [undefined], [null] or another falsy value:
    it is empty or is the [mediaItems] property of the parsed text of a slot
    (whatever that property is: its shape is not checked). *)
Theorem init_falls_back_to_backup (w : World) (text : jstring) (o : object)
    (l : list value) :
  primary_throws (localStorage w) = true ->
  read_item MockBackendAPI.backupKey (localStorage w) = inr (Some text) ->
  JSON_parse text = Some (VObj o) ->
  obj_get k_mediaItems o = VArr l ->
  (fst (MockBackendAPI.init w) = inr tt
   /\ mediaItems (appState (snd (MockBackendAPI.init w))) = VArr l)
  /\ forall w',
       fst (MockBackendAPI.init w') = inr tt
       /\ truthy (mediaItems (appState (snd (MockBackendAPI.init w')))) = true
       /\ (mediaItems (appState (snd (MockBackendAPI.init w'))) = VArr []
           \/ exists key slot data,
                (key = MockBackendAPI.storageKey
                 \/ key = MockBackendAPI.backupKey)
                /\ read_item key (localStorage w') = inr (Some slot)
                /\ JSON_parse slot = Some data
                /\ get_prop data k_mediaItems
                   = inr (mediaItems (appState (snd (MockBackendAPI.init w'))))).
Proof.
  intros Hprimary Hread Hparse Hitems. split.
  - rewrite init_run. split; [reflexivity|].
    cbn [snd appState set_app mediaItems set_mediaItems].
    unfold load_result. unfold primary_throws in Hprimary.
    destruct (load_item MockBackendAPI.storageKey (localStorage w));
      [|discriminate].
    rewrite (load_item_parsed _ _ _ _ Hread Hparse). cbn [fst].
    unfold catalog_from. cbn [get_prop]. rewrite Hitems. reflexivity.
  - intros w'. rewrite init_run. split; [reflexivity|].
    cbn [snd appState set_app mediaItems set_mediaItems].
    split; [apply catalog_from_truthy|].
    destruct (catalog_from_cases (fst (load_result (localStorage w'))))
      as [Hempty|Hprop]; [left; assumption|].
    unfold load_result in *.
    destruct (load_item MockBackendAPI.storageKey (localStorage w'))
      as [err|data] eqn:Hp.
    + destruct (load_item MockBackendAPI.backupKey (localStorage w'))
        as [err'|data] eqn:Hb; cbn [fst] in *; [left; reflexivity|].
      destruct (load_item_cases _ _ _ Hb) as [->|(slot & Hslot & Hdata)];
        [left; reflexivity|].
      right. exists MockBackendAPI.backupKey, slot, data. auto.
    + cbn [fst] in *.
      destruct (load_item_cases _ _ _ Hp) as [->|(slot & Hslot & Hdata)];
        [left; reflexivity|].
      right. exists MockBackendAPI.storageKey, slot, data. auto.
Qed.

Lemma init_falls_back_to_backup_witness :
  fst (MockBackendAPI.init (world_of [] corrupt_primary)) = inr tt
  /\ mediaItems (appState (snd (MockBackendAPI.init
                                  (world_of [] corrupt_primary))))
     = catalog_value [cat_photo].
Proof.
  refine (proj1 (init_falls_back_to_backup (world_of [] corrupt_primary)
                   (JSON_stringify
                      (snapshot_of (catalog_value [cat_photo])
                         (js "2023-11-14T22:13:20.001Z")))
                   [(k_mediaItems, catalog_value [cat_photo]);
                    (k_lastUpdated, VStr (js "2023-11-14T22:13:20.001Z"));
                    (k_version, VStr version_1_0)]
                   (MediaRecord.to_value <$> [cat_photo]) _ _ _ _));
    vm_compute; reflexivity.
Defined.

(** ** C3: the round trip through the storage *)

Lemma storable_record (r : MediaRecord.t) :
  MediaRecord.safe r -> storable (MediaRecord.to_value r) = true.
Proof.
  unfold MediaRecord.safe, MediaRecord.to_value.
  destruct (MediaRecord.fileSize r) as [n|]; [|reflexivity].
  intros Hn. rewrite storable_VObj. apply andb_true_iff.
  split; [reflexivity|].
  cbn [app forallb snd storable]. rewrite Zabs2N.id.
  replace (n <? ten_to_21) with true; [reflexivity|].
  symmetry. apply N.ltb_lt. unfold ten_to_21.
  change (2 ^ 53) with 9007199254740992 in Hn. lia.
Qed.

Lemma storable_catalog (c : list MediaRecord.t) :
  Forall MediaRecord.safe c -> storable (catalog_value c) = true.
Proof.
  intros Hsafe. unfold catalog_value. rewrite storable_VArr.
  induction Hsafe as [|r c Hr _ IH]; [reflexivity|].
  cbn [fmap list_fmap forallb]. rewrite storable_record by assumption.
  exact IH.
Qed.

Lemma storable_snapshot (catalog : value) (lastUpdated : jstring) :
  storable catalog = true -> storable (snapshot_of catalog lastUpdated) = true.
Proof.
  intros H. unfold snapshot_of. rewrite storable_VObj.
  apply andb_true_iff. split; [reflexivity|].
  cbn [forallb snd]. rewrite H. reflexivity.
Qed.

Lemma storageKey_neq_backupKey :
  MockBackendAPI.storageKey <> MockBackendAPI.backupKey.
Proof. discriminate. Qed.

(** After a [saveToStorage] that returned, both slots hold the text. *)
Lemma saveToStorage_stored (data : value) (w : World) :
  fst (MockBackendAPI.saveToStorage data w) = inr tt ->
  let st := localStorage (snd (MockBackendAPI.saveToStorage data w)) in
  read_item MockBackendAPI.storageKey st = inr (Some (JSON_stringify data))
  /\ read_item MockBackendAPI.backupKey st = inr (Some (JSON_stringify data)).
Proof.
  rewrite saveToStorage_run. cbv zeta.
  destruct (write_item MockBackendAPI.storageKey (JSON_stringify data)
              (localStorage w)) as [err|st1] eqn:H1; [discriminate|].
  destruct (write_item MockBackendAPI.backupKey (JSON_stringify data) st1)
    as [err|st2] eqn:H2; [discriminate|].
  intros _. cbn [snd localStorage set_localStorage].
  apply write_item_inr in H1 as (Hd1 & -> & _).
  apply write_item_inr in H2 as (Hd2 & -> & _).
  cbn [denied items with_items] in *. unfold read_item.
  cbn [denied items with_items]. rewrite Hd1, Hd2.
  rewrite slot_get_slot_set_eq.
  rewrite slot_get_slot_set_ne by exact storageKey_neq_backupKey.
  rewrite slot_get_slot_set_eq. auto.
Qed.

Lemma persist_then_init_storable (catalog : value) (lastUpdated : jstring)
    (w w' : World) :
  storable catalog = true -> truthy catalog = true ->
  fst (MockBackendAPI.saveToStorage (snapshot_of catalog lastUpdated) w)
  = inr tt ->
  localStorage w'
  = localStorage (snd (MockBackendAPI.saveToStorage
                         (snapshot_of catalog lastUpdated) w)) ->
  fst (MockBackendAPI.init w') = inr tt
  /\ mediaItems (appState (snd (MockBackendAPI.init w'))) = catalog.
Proof.
  intros Hst Htruthy Hsaved Hw'.
  destruct (saveToStorage_stored _ _ Hsaved) as [Hprimary _].
  rewrite <- Hw' in Hprimary.
  rewrite init_run. split; [reflexivity|].
  cbn [snd appState set_app mediaItems set_mediaItems].
  unfold load_result.
  rewrite (load_item_parsed _ _ _ _ Hprimary
             (JSON_parse_stringify _ (storable_snapshot _ _ Hst))).
  cbn [fst]. unfold catalog_from, snapshot_of.
  cbn [get_prop obj_get]. rewrite jstring_eqb_refl.
  unfold js_or. rewrite Htruthy. reflexivity.
Qed.

(** C3.  For every catalog of records, when [saveToStorage] of its snapshot
    returns, [init] in a world with the storage it left yields the same
    catalog: the same records, with the same fields, in the same order. *)
Theorem persist_then_init (c : list MediaRecord.t) (lastUpdated : jstring)
    (w w' : World) :
  Forall MediaRecord.safe c ->
  fst (MockBackendAPI.saveToStorage
         (snapshot_of (catalog_value c) lastUpdated) w) = inr tt ->
  localStorage w'
  = localStorage (snd (MockBackendAPI.saveToStorage
                         (snapshot_of (catalog_value c) lastUpdated) w)) ->
  fst (MockBackendAPI.init w') = inr tt
  /\ mediaItems (appState (snd (MockBackendAPI.init w'))) = catalog_value c.
Proof.
  intros Hsafe. apply persist_then_init_storable.
  - apply storable_catalog. assumption.
  - reflexivity.
Qed.

Lemma safe_two : Forall MediaRecord.safe [cat_photo; dog_video].
Proof. repeat constructor. Defined.

Lemma persist_then_init_witness :
  let saved :=
    MockBackendAPI.saveToStorage
      (snapshot_of (catalog_value [cat_photo; dog_video])
         (js "2023-11-14T22:13:22.000Z"))
      (world_of [cat_photo; dog_video] roomy) in
  fst saved = inr tt
  /\ fst (MockBackendAPI.init (world_of [] (localStorage (snd saved)))) = inr tt
  /\ mediaItems (appState (snd (MockBackendAPI.init
                                  (world_of [] (localStorage (snd saved))))))
     = catalog_value [cat_photo; dog_video].
Proof.
  intros saved.
  assert (fst saved = inr tt) as Hsaved by (vm_compute; reflexivity).
  split; [exact Hsaved|].
  exact (persist_then_init [cat_photo; dog_video]
           (js "2023-11-14T22:13:22.000Z")
           (world_of [cat_photo; dog_video] roomy)
           (world_of [] (localStorage (snd saved)))
           safe_two Hsaved eq_refl).
Defined.

(** ** C2: when the persistence write fails *)

(** With room for one copy only, the primary slot is written, the backup
    slot is not, and [saveToStorage] throws StorageUnavailable although one
    of the two writes succeeded. *)
Lemma one_write_succeeds_and_save_throws :
  let data := snapshot_of (catalog_value [cat_photo])
                (js "2023-11-14T22:13:20.001Z") in
  let saved := MockBackendAPI.saveToStorage data (world_of [cat_photo] tight) in
  fst saved = inl StorageUnavailable
  /\ read_item MockBackendAPI.storageKey (localStorage (snd saved))
     = inr (Some (JSON_stringify data))
  /\ read_item MockBackendAPI.backupKey (localStorage (snd saved)) = inr None.
Proof. vm_compute. repeat split; reflexivity. Qed.

(** C2, as the code has it.  [saveToStorage] returns exactly when the
    primary slot is written and then the backup slot is written; it throws
    StorageUnavailable exactly when the write of the primary slot fails (the
    backup slot is then not touched) or the write of the backup slot fails
    after the primary slot was written. *)
Theorem saveToStorage_fails_when_a_write_fails (data : value) (w : World) :
  let text := JSON_stringify data in
  let saved := MockBackendAPI.saveToStorage data w in
  (fst saved = inr tt
   <-> exists st1 st2,
         write_item MockBackendAPI.storageKey text (localStorage w) = inr st1
         /\ write_item MockBackendAPI.backupKey text st1 = inr st2
         /\ localStorage (snd saved) = st2)
  /\ (fst saved = inl StorageUnavailable
      <-> (exists err,
             write_item MockBackendAPI.storageKey text (localStorage w)
             = inl err
             /\ localStorage (snd saved) = localStorage w
             /\ trace (snd saved)
                = trace w ++ [SetItem MockBackendAPI.storageKey])
          \/ (exists st1 err,
                write_item MockBackendAPI.storageKey text (localStorage w)
                = inr st1
                /\ write_item MockBackendAPI.backupKey text st1 = inl err
                /\ localStorage (snd saved) = st1)).
Proof.
  intros text saved. unfold saved, text. rewrite saveToStorage_run. cbv zeta.
  destruct (write_item MockBackendAPI.storageKey (JSON_stringify data)
              (localStorage w)) as [err|st1].
  - split; split.
    + discriminate.
    + intros (st1 & st2 & H & _). discriminate.
    + intros _. left. exists err. auto.
    + reflexivity.
  - destruct (write_item MockBackendAPI.backupKey (JSON_stringify data) st1)
      as [err|st2] eqn:Hbackup.
    + split; split.
      * discriminate.
      * intros (st1' & st2 & [= <-] & H & _). congruence.
      * intros _. right. exists st1, err. auto.
      * reflexivity.
    + split; split.
      * intros _. exists st1, st2. auto.
      * reflexivity.
      * discriminate.
      * intros [(err & H & _)|(st1' & err & [= <-] & H & _)];
          [discriminate | congruence].
Qed.

(** ** Creating a record *)

Lemma createMedia_catalog (e : Env) (fileName description fileType : jstring)
    (fileSize : N) (w : World) (c : list MediaRecord.t) :
  mediaItems (appState w) = catalog_value c ->
  let r := created_record e fileName description fileType fileSize in
  MockBackendAPI.createMedia e
    (mediaData_of fileName description fileType fileSize) w
  = after_save (MediaRecord.to_value r)
      (MockBackendAPI.saveToStorage
         (snapshot_of (catalog_value (c ++ [r])) (iso_second e))
         (set_app (set_mediaItems (catalog_value (c ++ [r])))
            (add_event
               (CreateMedia (mediaData_of fileName description fileType fileSize))
               w))).
Proof.
  intros Hw r. unfold mediaData_of.
  rewrite (createMedia_run e _ w _ Hw). cbv zeta.
  unfold catalog_value. rewrite fmap_app. reflexivity.
Qed.

Lemma fst_after_save {A} (result : A) (data : value) (w : World) :
  let saved := MockBackendAPI.saveToStorage data w in
  (fst saved = inr tt /\ fst (after_save result saved) = inr result)
  \/ (fst saved = inl StorageUnavailable
      /\ fst (after_save result saved) = inl StorageUnavailable).
Proof.
  intros saved. destruct (saveToStorage_result data w) as [H|H];
    fold saved in H; destruct saved as [[err|[]] w']; simpl in *;
    try discriminate; [left | right]; split; congruence.
Qed.

Lemma after_save_mutated {A} (result : A) (catalog : value)
    (lastUpdated : jstring) (w : World) :
  mediaItems (appState w) = catalog ->
  mutated (after_save result
             (MockBackendAPI.saveToStorage (snapshot_of catalog lastUpdated) w))
    result catalog lastUpdated.
Proof.
  intros Hw. unfold mutated. rewrite after_save_appState.
  split; [assumption|].
  destruct (fst_after_save result (snapshot_of catalog lastUpdated) w)
    as [[Hsaved ->]|[_ ->]]; [left | right; reflexivity].
  split; [reflexivity|]. rewrite snd_after_save.
  apply saveToStorage_stored. assumption.
Qed.

Lemma after_save_tt (saved : (exn + unit) * World) : after_save tt saved = saved.
Proof. destruct saved as [[err|[]] w]; reflexivity. Qed.

Lemma createMedia_mutated (e : Env) (w : World)
    (c : list MediaRecord.t) (fileName description fileType : jstring)
    (fileSize : N) :
  mediaItems (appState w) = catalog_value c ->
  let new := created_record e fileName description fileType fileSize in
  mutated (MockBackendAPI.createMedia e
             (mediaData_of fileName description fileType fileSize) w)
    (MediaRecord.to_value new) (catalog_value (c ++ [new])) (iso_second e).
Proof.
  intros Hw new. rewrite (createMedia_catalog e _ _ _ _ w c Hw). cbv zeta.
  apply after_save_mutated. reflexivity.
Qed.

Lemma obj_assign_app (acc props more : object) :
  obj_assign acc (props ++ more) = obj_assign (obj_assign acc props) more.
Proof. unfold obj_assign. apply fold_left_app. Qed.

Lemma properties_distinct (r : MediaRecord.t) :
  distinct_keys (properties r) = true.
Proof.
  unfold properties, MediaRecord.to_value. simpl.
  destruct (MediaRecord.fileSize r); reflexivity.
Qed.

Lemma fst_after_save_failed {A} (result : A) (data : value) (w : World) :
  written (JSON_stringify data) (localStorage w) = None ->
  fst (after_save result (MockBackendAPI.saveToStorage data w))
  = inl StorageUnavailable.
Proof.
  unfold written. rewrite saveToStorage_run. cbv zeta.
  destruct (write_item MockBackendAPI.storageKey (JSON_stringify data)
              (localStorage w)) as [err|st1]; [reflexivity|].
  destruct (write_item MockBackendAPI.backupKey (JSON_stringify data) st1);
    [reflexivity | discriminate].
Qed.

(** ** C1: a failed write and the catalog in memory *)

(** [createMedia] with no room in the storage throws StorageUnavailable and
    leaves the new record in the catalog in memory. *)
Lemma failed_create_is_not_rolled_back :
  let w := world_of [] full in
  let created :=
    MockBackendAPI.createMedia noon
      (mediaData_of (js "a.png") (js "cat photo") (js "image") 2048) w in
  fst created = inl StorageUnavailable
  /\ mediaItems (appState w) = catalog_value []
  /\ mediaItems (appState (snd created)) = catalog_value [cat_photo]
  /\ mediaItems (appState (snd created)) <> mediaItems (appState w).
Proof. vm_compute. repeat split; try reflexivity. discriminate. Qed.

(** C1, as the code has it.  Every mutating operation of the store changes
    the catalog in memory first and writes the storage after, and nothing
    undoes the change.  For every catalog of records, the empty one
    included: [createMedia] of any file appends its record; [updateMedia]
    of an id that a record has, with any updates, overwrites the first
    record with that id (with [{description: d}], it gives it that
    description); [deleteMedia] of such an id removes that record.  In each
    case the mutated catalog is in memory whether or not the write
    succeeds: the operation either returns its result with the snapshot of
    the mutated catalog in both slots, or throws StorageUnavailable with
    the mutation still in memory; and it does throw StorageUnavailable
    whenever the storage does not take the two writes. *)
Theorem mutation_stays_when_write_fails (e : Env) (w : World)
    (c : list MediaRecord.t) :
  let fails catalog lastUpdated :=
    written (JSON_stringify (snapshot_of catalog lastUpdated)) (localStorage w)
    = None in
  mediaItems (appState w) = catalog_value c ->
  (forall fileName description fileType fileSize,
     let new := created_record e fileName description fileType fileSize in
     let created :=
       MockBackendAPI.createMedia e
         (mediaData_of fileName description fileType fileSize) w in
     mutated created (MediaRecord.to_value new) (catalog_value (c ++ [new]))
       (iso_second e)
     /\ (fails (catalog_value (c ++ [new])) (iso_second e) ->
         fst created = inl StorageUnavailable))
  /\ (forall id i r updates,
        index_of id c = Some i ->
        c !! i = Some r ->
        let merged := VObj (obj_assign (properties r) (spread_props updates)) in
        let catalog := VArr (<[i := merged]> (MediaRecord.to_value <$> c)) in
        let updated := MockBackendAPI.updateMedia e id updates w in
        mutated updated merged catalog (iso_first e)
        /\ (fails catalog (iso_first e) ->
            fst updated = inl StorageUnavailable))
  /\ (forall id i r d,
        index_of id c = Some i ->
        c !! i = Some r ->
        mutated (MockBackendAPI.updateMedia e id
                   (VObj [(k_description, VStr d)]) w)
          (MediaRecord.to_value (MediaRecord.with_description d r))
          (catalog_value (<[i := MediaRecord.with_description d r]> c))
          (iso_first e))
  /\ (forall id i,
        index_of id c = Some i ->
        let deleted := MockBackendAPI.deleteMedia e id w in
        mutated deleted tt (catalog_value (delete i c)) (iso_first e)
        /\ (fails (catalog_value (delete i c)) (iso_first e) ->
            fst deleted = inl StorageUnavailable)).
Proof.
  intros fails Hw. cbv zeta beta delta [fails]. clear fails.
  assert (forall id i, index_of id c = Some i ->
            findIndex_id id (MediaRecord.to_value <$> c) = inr (Some i))
    as Hfind by (intros id i H; rewrite findIndex_id_catalog, H; reflexivity).
  split; [|split; [|split]].
  - intros fileName description fileType fileSize.
    split; [apply createMedia_mutated; exact Hw|].
    rewrite (createMedia_catalog e _ _ _ _ w c Hw). cbv zeta.
    intros Hfails. apply fst_after_save_failed. exact Hfails.
  - intros id i r updates Hindex Hi.
    set (merged := VObj (obj_assign (properties r) (spread_props updates))).
    set (catalog := VArr (<[i := merged]> (MediaRecord.to_value <$> c))).
    assert (MockBackendAPI.updateMedia e id updates w
            = after_save merged
                (MockBackendAPI.saveToStorage (snapshot_of catalog (iso_first e))
                   (set_app (set_mediaItems catalog)
                      (add_event (UpdateMedia id updates) w)))) as ->.
    { rewrite (updateMedia_run e _ _ w _ i Hw (Hfind id i Hindex)).
      cbv zeta. rewrite (lookup_catalog c i r Hi).
      fold (properties r).
      rewrite obj_assign_app,
        (obj_assign_nil_distinct _ (properties_distinct r)).
      reflexivity. }
    split; [apply after_save_mutated; reflexivity|].
    intros Hfails. apply fst_after_save_failed. exact Hfails.
  - intros id i r d Hindex Hi.
    rewrite (updateMedia_run e _ _ w _ i Hw (Hfind id i Hindex)).
    cbv zeta. rewrite (lookup_catalog c i r Hi), merge_description.
    unfold catalog_value. rewrite list_fmap_insert.
    apply after_save_mutated. reflexivity.
  - intros id i Hindex.
    rewrite (deleteMedia_run e _ w _ i Hw (Hfind id i Hindex)).
    rewrite <- list_fmap_delete. fold (catalog_value (delete i c)).
    split.
    + pose proof (after_save_mutated tt (catalog_value (delete i c))
                    (iso_first e)
                    (set_app (set_mediaItems (catalog_value (delete i c)))
                       (add_event (DeleteMedia id) w)) eq_refl) as H.
      rewrite after_save_tt in H. exact H.
    + intros Hfails.
      pose proof (fst_after_save_failed tt
                    (snapshot_of (catalog_value (delete i c)) (iso_first e))
                    (set_app (set_mediaItems (catalog_value (delete i c)))
                       (add_event (DeleteMedia id) w)) Hfails) as H.
      rewrite after_save_tt in H. exact H.
Qed.

Lemma mutation_stays_when_write_fails_witness :
  let first :=
    MockBackendAPI.createMedia noon
      (mediaData_of (js "a.png") (js "cat photo") (js "image") 2048)
      (world_of [] full) in
  let w := world_of [cat_photo; dog_video] tight in
  let new := created_record noon (js "b.png") (js "bird") (js "image") 512 in
  (mutated first (MediaRecord.to_value cat_photo)
     (catalog_value ([] ++ [cat_photo])) (iso_second noon)
   /\ fst first = inl StorageUnavailable)
  /\ mutated (MockBackendAPI.createMedia noon
                (mediaData_of (js "b.png") (js "bird") (js "image") 512) w)
       (MediaRecord.to_value new)
       (catalog_value ([cat_photo; dog_video] ++ [new])) (iso_second noon)
  /\ mutated (MockBackendAPI.updateMedia noon (MediaRecord.id cat_photo)
                (VObj [(k_description, VStr (js "new cat photo"))]) w)
       (MediaRecord.to_value
          (MediaRecord.with_description (js "new cat photo") cat_photo))
       (catalog_value
          (<[0%nat := MediaRecord.with_description (js "new cat photo") cat_photo]>
             [cat_photo; dog_video]))
       (iso_first noon)
  /\ mutated (MockBackendAPI.deleteMedia noon (MediaRecord.id cat_photo) w)
       tt (catalog_value (delete 0%nat [cat_photo; dog_video])) (iso_first noon).
Proof.
  intros first w new.
  destruct (mutation_stays_when_write_fails noon (world_of [] full) []
              eq_refl) as [Hfirst _].
  destruct (Hfirst (js "a.png") (js "cat photo") (js "image") 2048)
    as [Hmutated Hfails].
  destruct (mutation_stays_when_write_fails noon w [cat_photo; dog_video]
              eq_refl) as (Hcreate & _ & Hupdate & Hdelete).
  split; [split; [exact Hmutated | apply Hfails; vm_compute; reflexivity]|].
  split; [exact (proj1 (Hcreate (js "b.png") (js "bird") (js "image") 512))|].
  split; [exact (Hupdate (MediaRecord.id cat_photo) 0%nat cat_photo
                   (js "new cat photo") eq_refl eq_refl)|].
  exact (proj1 (Hdelete (MediaRecord.id cat_photo) 0%nat eq_refl)).
Defined.

(** ** The id: a timestamp in base 36 and random digits *)

Lemma unit_value_36_digit (d : N) : d < 36 -> unit_value_36 (digit_36 d) = d.
Proof.
  intros Hd. unfold unit_value_36, digit_36.
  destruct (N.ltb_spec d 10).
  - destruct (N.ltb_spec (48 + d) 58); lia.
  - destruct (N.ltb_spec (87 + d) 58); lia.
Qed.

Lemma decode_36_app (a : N) (l l' : jstring) :
  fold_left (fun v c => v * 36 + unit_value_36 c) (l ++ l') a
  = fold_left (fun v c => v * 36 + unit_value_36 c) l'
      (fold_left (fun v c => v * 36 + unit_value_36 c) l a).
Proof. apply fold_left_app. Qed.

Lemma radix_36_acc (fuel : nat) (n : N) (acc : jstring) :
  radix_36 fuel n acc = radix_36 fuel n [] ++ acc.
Proof.
  revert n acc. induction fuel as [|fuel IH]; intros n acc; [reflexivity|].
  simpl. destruct (n / 36 =? 0); [reflexivity|].
  rewrite (IH _ (digit_36 (n mod 36) :: acc)), (IH _ [digit_36 (n mod 36)]).
  rewrite <- app_assoc. reflexivity.
Qed.

Lemma decode_36_radix_36 (fuel : nat) (n : N) :
  n < 36 ^ N.of_nat fuel -> decode_36 (radix_36 fuel n []) = n.
Proof.
  unfold decode_36. revert n. induction fuel as [|fuel IH]; intros n Hn.
  - simpl in Hn. assert (n = 0) as -> by lia. reflexivity.
  - rewrite Nat2N.inj_succ, N.pow_succ_r' in Hn.
    pose proof (N.mod_lt n 36 ltac:(lia)) as Hmod.
    pose proof (N.div_mod n 36 ltac:(lia)) as Hdiv.
    simpl. destruct (N.eqb_spec (n / 36) 0) as [Hzero|Hnonzero].
    + simpl. rewrite unit_value_36_digit by assumption. lia.
    + rewrite radix_36_acc, decode_36_app, IH
        by (apply N.Div0.div_lt_upper_bound; lia).
      simpl. rewrite unit_value_36_digit by assumption. lia.
Qed.

Lemma decode_36_toString_36 (n : N) : decode_36 (toString_36 n) = n.
Proof.
  unfold toString_36. apply decode_36_radix_36.
  destruct (N.eq_dec n 0) as [->|Hn]; [reflexivity|].
  rewrite Nat2N.inj_succ, N2Nat.id.
  apply N.lt_le_trans with (2 ^ N.succ (N.log2 n)).
  - apply N.log2_spec. lia.
  - apply N.pow_le_mono_l. lia.
Qed.

Lemma toString_36_inj (a b : N) : toString_36 a = toString_36 b -> a = b.
Proof.
  intros H. rewrite <- (decode_36_toString_36 a), <- (decode_36_toString_36 b).
  rewrite H. reflexivity.
Qed.

(** Two ids with timestamps of the same number of digits are the same only
    when the millisecond and the random digits are the same. *)
Lemma generateId_inj (e e' : Env) :
  length (toString_36 (clock_ms e)) = length (toString_36 (clock_ms e')) ->
  Utils.generateId e = Utils.generateId e' ->
  clock_ms e = clock_ms e'
  /\ substr 2 (random_36 e) = substr 2 (random_36 e').
Proof.
  unfold Utils.generateId. intros Hlen Hid.
  apply app_inj_1 in Hid as [Hclock Hrandom]; [|assumption].
  split; [apply toString_36_inj|]; assumption.
Qed.

(** ** C8: the id of a new record *)

(** C8.  [generateId] is documented to return a unique identifier, and
    [createMedia] relies on it without a check.  Two [createMedia] calls
    that read the same clock and draw the same random number give two
    records with the same id: the id returned by the second call matches
    two records of the list, and the ids of the catalog are not distinct. *)
Lemma same_draw_same_id :
  let mediaData := mediaData_of (js "a.png") (js "cat photo") (js "image") 2048 in
  let first := MockBackendAPI.createMedia noon mediaData (world_of [] roomy) in
  let second := MockBackendAPI.createMedia noon mediaData (snd first) in
  fst first = inr (MediaRecord.to_value cat_photo)
  /\ fst second = inr (MediaRecord.to_value cat_photo)
  /\ fst (MockBackendAPI.getMedia (snd second))
     = inr (catalog_value [cat_photo; cat_photo])
  /\ ~ NoDup (ids [cat_photo; cat_photo]).
Proof.
  vm_compute. repeat split; try reflexivity.
  intros H. apply NoDup_cons in H as [H _]. apply H. left.
Qed.

Lemma ids_app (c c' : list MediaRecord.t) : ids (c ++ c') = ids c ++ ids c'.
Proof. unfold ids. apply fmap_app. Qed.

Lemma NoDup_ids_one : NoDup (ids [dog_video]).
Proof. apply NoDup_singleton. Defined.

Lemma noon_id_fresh : Utils.generateId noon ∉ ids [dog_video].
Proof. intros H. apply list_elem_of_singleton in H. discriminate. Defined.

(** ** C10: an update writes every key it is given *)

Lemma obj_get_obj_set (k k' : jstring) (v : value) (o : object) :
  obj_get k (obj_set k' v o) = if jstring_eqb k k' then v else obj_get k o.
Proof.
  induction o as [|[k'' v''] o IH]; simpl.
  - reflexivity.
  - destruct (jstring_eqb k' k'') eqn:Hk'; simpl.
    + apply jstring_eqb_eq in Hk'. subst k''.
      destruct (jstring_eqb k k'); reflexivity.
    + destruct (jstring_eqb k k'') eqn:Hk.
      * apply jstring_eqb_eq in Hk. subst k''.
        destruct (jstring_eqb k k') eqn:Hkk; [|reflexivity].
        apply jstring_eqb_eq in Hkk. subst k'.
        rewrite jstring_eqb_refl in Hk'. discriminate.
      * exact IH.
Qed.

(** Written key by key, the properties given win; the others stay. *)
Lemma obj_get_obj_assign (k : jstring) (props acc : object) :
  distinct_keys props = true ->
  obj_get k (obj_assign acc props)
  = if has_key k props then obj_get k props else obj_get k acc.
Proof.
  revert acc. induction props as [|[k' v] props IH]; intros acc Hd.
  - reflexivity.
  - simpl in Hd. apply andb_true_iff in Hd as [Hk' Hd].
    apply negb_true_iff in Hk'.
    unfold obj_assign in *. simpl fold_left. rewrite IH by assumption.
    simpl. destruct (jstring_eqb k k') eqn:Hk; simpl.
    + apply jstring_eqb_eq in Hk. subst k'. rewrite Hk'.
      rewrite obj_get_obj_set, jstring_eqb_refl. reflexivity.
    + destruct (has_key k props); [reflexivity|].
      rewrite obj_get_obj_set, Hk. reflexivity.
Qed.

(** C10.  [updateMedia] on a record of the catalog with any object of
    fields leaves, at the record's position, the record's object overwritten
    key by key by the fields: every key of the fields has the value the
    fields give it, whether or not the data model calls it immutable, and
    every other key keeps its value.  The other records are unchanged. *)
Theorem update_applies_every_key (e : Env) (w : World)
    (c : list MediaRecord.t) (i : nat) (r : MediaRecord.t) (fields : object) :
  mediaItems (appState w) = catalog_value c ->
  NoDup (ids c) ->
  c !! i = Some r ->
  distinct_keys fields = true ->
  let updated :=
    MockBackendAPI.updateMedia e (MediaRecord.id r) (VObj fields) w in
  let merged := obj_assign (properties r) fields in
  mediaItems (appState (snd updated))
  = VArr (<[i := VObj merged]> (MediaRecord.to_value <$> c))
  /\ (fst updated = inr (VObj merged) \/ fst updated = inl StorageUnavailable)
  /\ forall k, obj_get k merged
               = if has_key k fields then obj_get k fields
                 else obj_get k (properties r).
Proof.
  intros Hw Hnd Hi Hfields updated merged.
  assert (updated
          = after_save (VObj merged)
              (MockBackendAPI.saveToStorage
                 (snapshot_of
                    (VArr (<[i := VObj merged]> (MediaRecord.to_value <$> c)))
                    (iso_first e))
                 (set_app (set_mediaItems
                    (VArr (<[i := VObj merged]> (MediaRecord.to_value <$> c))))
                    (add_event (UpdateMedia (MediaRecord.id r) (VObj fields))
                       w)))) as ->.
  { unfold updated. rewrite (updateMedia_run e _ _ w _ i Hw)
      by (rewrite findIndex_id_catalog, (index_of_NoDup c i r); auto).
    cbv zeta. rewrite (lookup_catalog c i r Hi).
    cbn [spread_props]. fold (spread_props (MediaRecord.to_value r)).
    fold (properties r).
    rewrite obj_assign_app,
      (obj_assign_nil_distinct _ (properties_distinct r)).
    reflexivity. }
  destruct (after_save_mutated (VObj merged)
              (VArr (<[i := VObj merged]> (MediaRecord.to_value <$> c)))
              (iso_first e)
              (set_app (set_mediaItems
                 (VArr (<[i := VObj merged]> (MediaRecord.to_value <$> c))))
                 (add_event (UpdateMedia (MediaRecord.id r) (VObj fields)) w))
              eq_refl) as [Hmem Hres].
  split; [exact Hmem|]. split; [tauto|].
  intros k. apply obj_get_obj_assign. assumption.
Qed.

Lemma update_applies_every_key_witness :
  let fields := [(k_id, VStr (js "another-id"));
                 (k_fileName, VStr (js "b.png"));
                 (k_uploadDate, VStr (js "1999-01-01T00:00:00.000Z"));
                 (k_fileType, VStr (js "video"))] in
  let updated :=
    MockBackendAPI.updateMedia noon (MediaRecord.id cat_photo) (VObj fields)
      (world_of [cat_photo; dog_video] roomy) in
  let merged := obj_assign (properties cat_photo) fields in
  merged = [(k_id, VStr (js "another-id"));
            (k_fileName, VStr (js "b.png"));
            (k_description, VStr (js "cat photo"));
            (k_uploadDate, VStr (js "1999-01-01T00:00:00.000Z"));
            (k_fileType, VStr (js "video"));
            (k_fileSize, VNum 2048)]
  /\ mediaItems (appState (snd updated))
     = VArr (<[0%nat := VObj merged]>
               (MediaRecord.to_value <$> [cat_photo; dog_video]))
  /\ (fst updated = inr (VObj merged) \/ fst updated = inl StorageUnavailable)
  /\ forall k, obj_get k merged
               = if has_key k fields then obj_get k fields
                 else obj_get k (properties cat_photo).
Proof.
  split; [vm_compute; reflexivity|].
  exact (update_applies_every_key noon (world_of [cat_photo; dog_video] roomy)
           [cat_photo; dog_video] 0 cat_photo
           [(k_id, VStr (js "another-id"));
            (k_fileName, VStr (js "b.png"));
            (k_uploadDate, VStr (js "1999-01-01T00:00:00.000Z"));
            (k_fileType, VStr (js "video"))]
           eq_refl NoDup_ids_two eq_refl eq_refl).
Defined.

(** ** The trace only grows *)

Lemma appends_ret {A} (a : A) : appends (ret a).
Proof. intros w. exists []. simpl. rewrite app_nil_r. reflexivity. Qed.

Lemma appends_throw {A} (err : exn) : appends (@throw A err).
Proof. intros w. exists []. simpl. rewrite app_nil_r. reflexivity. Qed.

Lemma appends_lift {A} (r : exn + A) : appends (lift r).
Proof. destruct r; [apply appends_throw | apply appends_ret]. Qed.

Lemma appends_get_world : appends get_world.
Proof. intros w. exists []. simpl. rewrite app_nil_r. reflexivity. Qed.

Lemma appends_emit (ev : event) : appends (emit ev).
Proof. intros w. exists [ev]. reflexivity. Qed.

Lemma appends_modify (f : World -> World) :
  (forall w, trace (f w) = trace w) -> appends (modify f).
Proof.
  intros Hf w. exists []. simpl. rewrite Hf, app_nil_r. reflexivity.
Qed.

Lemma appends_bind {A B} (m : M A) (k : A -> M B) :
  appends m -> (forall a, appends (k a)) -> appends (bind m k).
Proof.
  intros Hm Hk w. unfold bind. destruct (Hm w) as [evs Hevs].
  destruct (m w) as [[err|a] w1]; simpl in *; [eauto|].
  destruct (Hk a w1) as [evs' Hevs']. exists (evs ++ evs').
  rewrite Hevs', Hevs, app_assoc. reflexivity.
Qed.

Lemma appends_try_catch {A} (m : M A) (handler : exn -> M A) :
  appends m -> (forall err, appends (handler err)) ->
  appends (try_catch m handler).
Proof.
  intros Hm Hh w. unfold try_catch. destruct (Hm w) as [evs Hevs].
  destruct (m w) as [[err|a] w1]; simpl in *; [|eauto].
  destruct (Hh err w1) as [evs' Hevs']. exists (evs ++ evs').
  rewrite Hevs', Hevs, app_assoc. reflexivity.
Qed.

Lemma appends_try_finally {A} (m : M A) (after : M unit) :
  appends m -> appends after -> appends (try_finally m after).
Proof.
  intros Hm Ha w. unfold try_finally. destruct (Hm w) as [evs Hevs].
  destruct (m w) as [r w1]; simpl in *.
  destruct (Ha w1) as [evs' Hevs'].
  exists (evs ++ evs'). rewrite app_assoc, <- Hevs.
  destruct (after w1) as [[err|u] w2]; simpl in *; assumption.
Qed.

Lemma emits_first_emit {A} (ev : event) (k : unit -> M A) :
  appends (k tt) -> emits_first ev (bind (emit ev) k).
Proof.
  intros Hk w. destruct (Hk (add_event ev w)) as [evs Hevs].
  exists evs. unfold bind, emit, modify. simpl in *.
  rewrite Hevs, <- app_assoc. reflexivity.
Qed.

Lemma emits_first_bind {A B} (ev : event) (m : M A) (k : A -> M B) :
  emits_first ev m -> (forall a, appends (k a)) -> emits_first ev (bind m k).
Proof.
  intros Hm Hk w. unfold bind. destruct (Hm w) as [evs Hevs].
  destruct (m w) as [[err|a] w1]; simpl in *; [eauto|].
  destruct (Hk a w1) as [evs' Hevs']. exists (evs ++ evs').
  rewrite Hevs', Hevs, <- app_assoc. reflexivity.
Qed.

Lemma emits_first_after_modify {A} (ev : event) (f : World -> World)
    (m : M A) :
  (forall w, trace (f w) = trace w) -> emits_first ev m ->
  emits_first ev (bind (modify f) (fun _ => m)).
Proof.
  intros Hf Hm w. unfold bind, modify. destruct (Hm (f w)) as [evs Hevs].
  exists evs. rewrite Hevs, Hf. reflexivity.
Qed.

Lemma emits_first_try_catch {A} (ev : event) (m : M A)
    (handler : exn -> M A) :
  emits_first ev m -> (forall err, appends (handler err)) ->
  emits_first ev (try_catch m handler).
Proof.
  intros Hm Hh w. unfold try_catch. destruct (Hm w) as [evs Hevs].
  destruct (m w) as [[err|a] w1]; simpl in *; [|eauto].
  destruct (Hh err w1) as [evs' Hevs']. exists (evs ++ evs').
  rewrite Hevs', Hevs, <- app_assoc. reflexivity.
Qed.

Lemma emits_first_try_finally {A} (ev : event) (m : M A) (after : M unit) :
  emits_first ev m -> appends after -> emits_first ev (try_finally m after).
Proof.
  intros Hm Ha w. unfold try_finally. destruct (Hm w) as [evs Hevs].
  destruct (m w) as [r w1]; simpl in *.
  destruct (Ha w1) as [evs' Hevs'].
  exists (evs ++ evs'). rewrite app_comm_cons, app_assoc, <- Hevs.
  destruct (after w1) as [[err|u] w2]; simpl in *; assumption.
Qed.

Create HintDb appends discriminated.

#[export] Hint Resolve appends_ret appends_throw appends_lift appends_get_world
  appends_emit : appends.

Ltac appends_step :=
  match goal with
  | |- appends (bind _ _) => apply appends_bind; [|intros]
  | |- appends (try_catch _ _) => apply appends_try_catch; [|intros]
  | |- appends (try_finally _ _) => apply appends_try_finally
  | |- appends (modify _) => apply appends_modify; intros; reflexivity
  | |- appends (match ?x with _ => _ end) => destruct x
  | |- appends (let _ := _ in _) => cbv zeta
  | |- appends _ => solve [auto with appends]
  end.

Ltac appends_all := repeat appends_step.

Lemma appends_setItem (key text : jstring) :
  appends (localStorage_setItem key text).
Proof. unfold localStorage_setItem. appends_all. Qed.

Lemma appends_saveToStorage (data : value) :
  appends (MockBackendAPI.saveToStorage data).
Proof.
  unfold MockBackendAPI.saveToStorage. appends_all; apply appends_setItem.
Qed.

Lemma appends_getMedia : appends MockBackendAPI.getMedia.
Proof. unfold MockBackendAPI.getMedia. appends_all. Qed.

Lemma appends_showMessage (message : jstring) (type : message_type) :
  appends (Utils.showMessage message type).
Proof. apply appends_emit. Qed.

Lemma appends_setLoadingState (loading : bool) :
  appends (Utils.setLoadingState loading).
Proof. unfold Utils.setLoadingState. appends_all. Qed.

#[export] Hint Resolve appends_setItem appends_saveToStorage appends_getMedia
  appends_showMessage appends_setLoadingState : appends.

Lemma appends_renderGallery : appends renderGallery.
Proof. unfold renderGallery. appends_all. Qed.

Lemma appends_closeEditModal : appends closeEditModal.
Proof. unfold closeEditModal. appends_all. Qed.

#[export] Hint Resolve appends_renderGallery appends_closeEditModal : appends.

Lemma emits_first_createMedia (e : Env) (mediaData : value) :
  emits_first (CreateMedia mediaData) (MockBackendAPI.createMedia e mediaData).
Proof.
  unfold MockBackendAPI.createMedia. apply emits_first_emit.
  unfold MockBackendAPI.snapshot. appends_all.
Qed.

Lemma emits_first_updateMedia (e : Env) (id : jstring) (updates : value) :
  emits_first (UpdateMedia id updates)
    (MockBackendAPI.updateMedia e id updates).
Proof.
  unfold MockBackendAPI.updateMedia. apply emits_first_emit.
  unfold MockBackendAPI.snapshot. appends_all.
Qed.

(** ** C7: the length of a description *)

Lemma add_events_nil (w : World) : add_events [] w = w.
Proof. destruct w. unfold add_events. simpl. rewrite app_nil_r. reflexivity. Qed.

Lemma showMessage_run (message : jstring) (type : message_type) (w : World) :
  Utils.showMessage message type w
  = (inr tt, add_events [ShowMessage message type] w).
Proof. reflexivity. Qed.

Lemma length_500_not_longer (s : jstring) :
  length s = 500%nat ->
  exists c t, s = c :: t /\ (500 <? length (c :: t))%nat = false.
Proof.
  intros H. destruct s as [|c t]; [discriminate|].
  exists c, t. split; [reflexivity|]. rewrite H. reflexivity.
Qed.

Lemma longer_than_500 (s : jstring) :
  (500 < length s)%nat ->
  exists c t, s = c :: t /\ (500 <? length (c :: t))%nat = true.
Proof.
  intros H. destruct s as [|c t]; [simpl in H; lia|].
  exists c, t. split; [reflexivity|]. apply Nat.ltb_lt. assumption.
Qed.

Lemma handleUpload_rejects_long (e : Env) (w : World) :
  (500 < length (trim (descriptionInput_value (dom w))))%nat ->
  exists shown,
    handleUpload e w = (inr tt, add_events shown w)
    /\ Forall is_message shown
    /\ forall file,
         isLoading (appState w) = false ->
         fileInput_files0 (dom w) = Some file ->
         Utils.isValidFileType file = true ->
         shown = [too_long].
Proof.
  intros Hlong. destruct (longer_than_500 _ Hlong) as (c & t & Htrim & Hlt).
  unfold handleUpload, bind, get_world. cbn [fst snd].
  destruct (isLoading (appState w)).
  { exists []. rewrite add_events_nil. split; [reflexivity|].
    split; [constructor | discriminate]. }
  destruct (fileInput_files0 (dom w)) as [file|].
  2:{ eexists. rewrite showMessage_run. split; [reflexivity|].
      split; [repeat constructor | discriminate]. }
  destruct (Utils.isValidFileType file) eqn:Hvalid; cbn [negb].
  2:{ eexists. rewrite showMessage_run. split; [reflexivity|].
      split; [repeat constructor|]. intros f _ [= <-]. congruence. }
  rewrite Htrim, Hlt. eexists. rewrite showMessage_run.
  split; [reflexivity|]. split; [repeat constructor | reflexivity].
Qed.

Lemma handleSaveEdit_rejects_long (e : Env) (w : World) :
  (500 < length (trim (editDescriptionInput_value (dom w))))%nat ->
  exists shown,
    handleSaveEdit e w = (inr tt, add_events shown w)
    /\ Forall is_message shown
    /\ forall id,
         currentEditId (appState w) = Some id -> id <> [] ->
         shown = [too_long].
Proof.
  intros Hlong. destruct (longer_than_500 _ Hlong) as (c & t & Htrim & Hlt).
  unfold handleSaveEdit, bind, get_world. cbn [fst snd].
  destruct (currentEditId (appState w)) as [[|c' id']|].
  - exists []. rewrite add_events_nil. split; [reflexivity|].
    split; [constructor|]. intros id [= <-]. congruence.
  - rewrite Htrim, Hlt. eexists. rewrite showMessage_run.
    split; [reflexivity|]. split; [repeat constructor | reflexivity].
  - exists []. rewrite add_events_nil. split; [reflexivity|].
    split; [constructor | discriminate].
Qed.

Lemma handleUpload_accepts_500 (e : Env) (w : World) (file : File) :
  isLoading (appState w) = false ->
  fileInput_files0 (dom w) = Some file ->
  Utils.isValidFileType file = true ->
  length (trim (descriptionInput_value (dom w))) = 500%nat ->
  exists events,
    trace (snd (handleUpload e w))
    = trace w
      ++ CreateMedia
           (mediaData_of (file_name file)
              (trim (descriptionInput_value (dom w)))
              (Utils.getFileType (file_type file)) (file_size file))
         :: events.
Proof.
  intros Hloading Hfile Hvalid Hlen.
  destruct (length_500_not_longer _ Hlen) as (c & t & Htrim & Hlt).
  unfold handleUpload, bind at 1, get_world. cbn [fst snd].
  rewrite Hloading, Hfile, Hvalid. cbn [negb]. rewrite Htrim, Hlt.
  apply emits_first_try_finally; [|auto with appends].
  apply emits_first_try_catch; [|auto with appends].
  unfold Utils.setLoadingState.
  apply emits_first_after_modify; [reflexivity|].
  apply emits_first_bind; [apply emits_first_createMedia|].
  intros newItem. appends_all.
Qed.

Lemma handleSaveEdit_accepts_500 (e : Env) (w : World) (id : jstring) :
  currentEditId (appState w) = Some id -> id <> [] ->
  length (trim (editDescriptionInput_value (dom w))) = 500%nat ->
  exists events,
    trace (snd (handleSaveEdit e w))
    = trace w
      ++ UpdateMedia id
           (VObj [(k_description,
                   VStr (trim (editDescriptionInput_value (dom w))))])
         :: events.
Proof.
  intros Hid Hne Hlen.
  destruct (length_500_not_longer _ Hlen) as (c & t & Htrim & Hlt).
  unfold handleSaveEdit, bind at 1, get_world. cbn [fst snd].
  rewrite Hid. destruct id as [|c' id']; [contradiction|].
  rewrite Htrim, Hlt.
  apply emits_first_try_catch; [|auto with appends].
  apply emits_first_bind; [apply emits_first_updateMedia|].
  intros _. appends_all.
Qed.

(** C7.  In [handleUpload] and in [handleSaveEdit] the description is
    trimmed and its length compared with 500.  With exactly 500 characters
    (and a valid file selected, no upload running; or a record being
    edited) the handler calls [createMedia], or [updateMedia], with the
    trimmed description.  With more than 500 characters the handler returns
    without calling the store: the catalog, the storage and the form are as
    they were, and nothing is added to the trace but messages; when the
    other checks pass the message is the one about the 500 characters. *)
Theorem description_length_boundary (e : Env) (w : World) :
  let description := trim (descriptionInput_value (dom w)) in
  let newDescription := trim (editDescriptionInput_value (dom w)) in
  (forall file,
     isLoading (appState w) = false ->
     fileInput_files0 (dom w) = Some file ->
     Utils.isValidFileType file = true ->
     length description = 500%nat ->
     exists events,
       trace (snd (handleUpload e w))
       = trace w
         ++ CreateMedia
              (mediaData_of (file_name file) description
                 (Utils.getFileType (file_type file)) (file_size file))
            :: events)
  /\ ((500 < length description)%nat ->
      exists shown,
        handleUpload e w = (inr tt, add_events shown w)
        /\ Forall is_message shown
        /\ forall file,
             isLoading (appState w) = false ->
             fileInput_files0 (dom w) = Some file ->
             Utils.isValidFileType file = true ->
             shown = [too_long])
  /\ (forall id,
        currentEditId (appState w) = Some id -> id <> [] ->
        length newDescription = 500%nat ->
        exists events,
          trace (snd (handleSaveEdit e w))
          = trace w
            ++ UpdateMedia id (VObj [(k_description, VStr newDescription)])
               :: events)
  /\ ((500 < length newDescription)%nat ->
      exists shown,
        handleSaveEdit e w = (inr tt, add_events shown w)
        /\ Forall is_message shown
        /\ forall id,
             currentEditId (appState w) = Some id -> id <> [] ->
             shown = [too_long]).
Proof.
  cbv zeta. split; [|split; [|split]].
  - apply handleUpload_accepts_500.
  - apply handleUpload_rejects_long.
  - apply handleSaveEdit_accepts_500.
  - apply handleSaveEdit_rejects_long.
Qed.

Lemma description_length_boundary_witness :
  (exists events,
     trace (snd (handleUpload noon (typed 500)))
     = CreateMedia (mediaData_of (js "a.png") (replicate 500 97) (js "image") 2048)
       :: events)
  /\ handleUpload noon (typed 501) = (inr tt, add_events [too_long] (typed 501))
  /\ (exists events,
        trace (snd (handleSaveEdit noon (typed 500)))
        = UpdateMedia (MediaRecord.id cat_photo)
            (VObj [(k_description, VStr (replicate 500 97))])
          :: events)
  /\ handleSaveEdit noon (typed 501) = (inr tt, add_events [too_long] (typed 501)).
Proof.
  assert (trim (32 :: replicate 500 97 ++ [32]) = replicate 500 97) as H500
    by (vm_compute; reflexivity).
  assert (500 < length (trim (descriptionInput_value (dom (typed 501)))))%nat
    as H501 by (vm_compute; lia).
  destruct (description_length_boundary noon (typed 500))
    as (Hup & _ & Hed & _).
  destruct (description_length_boundary noon (typed 501))
    as (_ & Hup' & _ & Hed').
  split; [|split; [|split]].
  - destruct (Hup a_png eq_refl eq_refl eq_refl
                ltac:(vm_compute; reflexivity)) as [events Hevents].
    exists events. cbn [dom typed descriptionInput_value] in Hevents.
    rewrite H500 in Hevents. exact Hevents.
  - destruct (Hup' H501) as (shown & Hrun & _ & Hshown).
    rewrite Hrun, (Hshown a_png eq_refl eq_refl eq_refl). reflexivity.
  - destruct (Hed (MediaRecord.id cat_photo) eq_refl ltac:(discriminate)
                ltac:(vm_compute; reflexivity)) as [events Hevents].
    exists events. cbn [dom typed editDescriptionInput_value] in Hevents.
    rewrite H500 in Hevents. exact Hevents.
  - destruct (Hed' H501) as (shown & Hrun & _ & Hshown).
    rewrite Hrun, (Hshown (MediaRecord.id cat_photo) eq_refl
                     ltac:(discriminate)).
    reflexivity.
Defined.

(** * The store and the controller, further *)

(** ** The two slots *)

Lemma slot_set_same (k v : jstring) (l : list (jstring * jstring)) :
  slot_get k l = Some v -> slot_set k v l = l.
Proof.
  induction l as [|[k' v'] l IH]; simpl; [discriminate|].
  destruct (jstring_eqb k k') eqn:Hk.
  - apply jstring_eqb_eq in Hk. intros [= ->]. subst. reflexivity.
  - intros H. rewrite (IH H). reflexivity.
Qed.

Lemma with_items_same (st : Storage) : with_items (items st) st = st.
Proof. destruct st. reflexivity. Qed.

Lemma write_item_same (key text : jstring) (st : Storage) :
  includes (denied st) key = false ->
  slot_get key (items st) = Some text ->
  usage (items st) <= quota st ->
  write_item key text st = inr st.
Proof.
  intros Hd Hget Hq. unfold write_item. rewrite Hd, (slot_set_same _ _ _ Hget).
  destruct (N.ltb_spec (quota st) (usage (items st))); [lia|].
  rewrite with_items_same. reflexivity.
Qed.

Lemma read_item_write_item_ne (key key' text : jstring) (st st' : Storage) :
  key <> key' -> write_item key' text st = inr st' ->
  read_item key st' = read_item key st.
Proof.
  intros Hne Hw. apply write_item_inr in Hw as (_ & -> & _).
  unfold read_item. cbn [denied items with_items].
  rewrite slot_get_slot_set_ne by assumption. reflexivity.
Qed.

Lemma write_item_limits (key text : jstring) (st st' : Storage) :
  write_item key text st = inr st' ->
  quota st' = quota st /\ denied st' = denied st.
Proof. intros Hw. apply write_item_inr in Hw as (_ & -> & _). auto. Qed.

(** [saveToStorage] in terms of [written]. *)
Lemma saveToStorage_written (data : value) (w : World) :
  MockBackendAPI.saveToStorage data w
  = match written (JSON_stringify data) (localStorage w) with
    | Some st2 =>
        (inr tt,
         {| appState := appState w; dom := dom w; localStorage := st2;
            trace := trace w ++ [SetItem MockBackendAPI.storageKey;
                                 SetItem MockBackendAPI.backupKey] |})
    | None =>
        (inl StorageUnavailable,
         match write_item MockBackendAPI.storageKey (JSON_stringify data)
                 (localStorage w) with
         | inr st1 =>
             {| appState := appState w; dom := dom w; localStorage := st1;
                trace := trace w ++ [SetItem MockBackendAPI.storageKey;
                                     SetItem MockBackendAPI.backupKey] |}
         | inl _ => add_events [SetItem MockBackendAPI.storageKey] w
         end)
    end.
Proof.
  rewrite saveToStorage_run. unfold written. cbv zeta.
  destruct (write_item MockBackendAPI.storageKey (JSON_stringify data)
              (localStorage w)) as [err|st1]; [reflexivity|].
  destruct (write_item MockBackendAPI.backupKey (JSON_stringify data) st1);
    unfold set_localStorage, add_event; cbn; rewrite <- app_assoc; reflexivity.
Qed.

(** X1.  Saving the same data again after a save that returned also
    returns, and leaves the storage exactly as the first save left it: a
    slot that already holds the text takes no more of the quota. *)
Theorem saveToStorage_again (data : value) (w : World) :
  let saved := MockBackendAPI.saveToStorage data w in
  fst saved = inr tt ->
  let again := MockBackendAPI.saveToStorage data (snd saved) in
  fst again = inr tt /\ localStorage (snd again) = localStorage (snd saved).
Proof.
  intros saved Hsaved again. unfold again, saved in *. clear saved again.
  revert Hsaved. rewrite (saveToStorage_run data w). cbv zeta.
  destruct (write_item MockBackendAPI.storageKey (JSON_stringify data)
              (localStorage w)) as [err|st1] eqn:H1; [discriminate|].
  destruct (write_item MockBackendAPI.backupKey (JSON_stringify data) st1)
    as [err|st2] eqn:H2; [discriminate|].
  intros _. cbn [snd]. rewrite saveToStorage_run. cbv zeta.
  cbn [localStorage set_localStorage add_event].
  apply write_item_inr in H1 as (Hd1 & -> & Hq1).
  apply write_item_inr in H2 as (Hd2 & -> & Hq2).
  cbn [denied items with_items quota] in *.
  set (t := JSON_stringify data) in *.
  set (l2 := slot_set MockBackendAPI.backupKey t
               (slot_set MockBackendAPI.storageKey t
                  (items (localStorage w)))) in *.
  set (st2 := with_items l2
                (with_items (slot_set MockBackendAPI.storageKey t
                               (items (localStorage w))) (localStorage w))).
  assert (write_item MockBackendAPI.storageKey t st2 = inr st2) as ->.
  { apply write_item_same; cbn [st2 denied items with_items quota];
      try assumption.
    unfold l2. rewrite slot_get_slot_set_ne by exact storageKey_neq_backupKey.
    apply slot_get_slot_set_eq. }
  assert (write_item MockBackendAPI.backupKey t st2 = inr st2) as ->.
  { apply write_item_same; cbn [st2 denied items with_items quota];
      try assumption.
    unfold l2. apply slot_get_slot_set_eq. }
  split; reflexivity.
Qed.

Lemma saveToStorage_again_witness :
  let data := snapshot_of (catalog_value [cat_photo; dog_video])
                (js "2023-11-14T22:13:22.000Z") in
  let saved :=
    MockBackendAPI.saveToStorage data (world_of [cat_photo; dog_video] roomy) in
  let again := MockBackendAPI.saveToStorage data (snd saved) in
  fst saved = inr tt
  /\ fst again = inr tt
  /\ localStorage (snd again) = localStorage (snd saved).
Proof.
  intros data saved again.
  assert (fst saved = inr tt) as Hsaved by (vm_compute; reflexivity).
  split; [exact Hsaved|].
  exact (saveToStorage_again data (world_of [cat_photo; dog_video] roomy)
           Hsaved).
Defined.

(** X2.  [saveToStorage] writes the two slots and nothing else: whether it
    returns or throws, an item under any other key reads as before, and the
    quota and the denied keys are as before.  When it throws, the backup
    slot too reads as before: the backup slot is written last, and only
    when it is written does [saveToStorage] return. *)
Theorem saveToStorage_keeps_the_rest (data : value) (w : World) :
  let saved := MockBackendAPI.saveToStorage data w in
  (forall key,
     key <> MockBackendAPI.storageKey -> key <> MockBackendAPI.backupKey ->
     read_item key (localStorage (snd saved)) = read_item key (localStorage w))
  /\ quota (localStorage (snd saved)) = quota (localStorage w)
  /\ denied (localStorage (snd saved)) = denied (localStorage w)
  /\ (fst saved = inl StorageUnavailable ->
      read_item MockBackendAPI.backupKey (localStorage (snd saved))
      = read_item MockBackendAPI.backupKey (localStorage w)).
Proof.
  intros saved. unfold saved. rewrite saveToStorage_run. cbv zeta.
  destruct (write_item MockBackendAPI.storageKey (JSON_stringify data)
              (localStorage w)) as [err|st1] eqn:H1.
  { cbn [snd localStorage add_event]. auto. }
  destruct (write_item_limits _ _ _ _ H1) as [Hq1 Hd1].
  destruct (write_item MockBackendAPI.backupKey (JSON_stringify data) st1)
    as [err|st2] eqn:H2; cbn [snd localStorage set_localStorage add_event].
  - split; [|split; [|split]]; try assumption.
    + intros key Hp _. exact (read_item_write_item_ne _ _ _ _ _ Hp H1).
    + intros _. eapply read_item_write_item_ne; [|eassumption].
      intros H. symmetry in H. exact (storageKey_neq_backupKey H).
  - destruct (write_item_limits _ _ _ _ H2) as [Hq2 Hd2].
    split; [|split; [|split]]; try congruence.
    + intros key Hp Hb.
      rewrite (read_item_write_item_ne _ _ _ _ _ Hb H2).
      exact (read_item_write_item_ne _ _ _ _ _ Hp H1).
    + discriminate.
Qed.

(** [init] on a primary slot that holds the snapshot of a catalog. *)
Lemma init_loads_snapshot (catalog : value) (lastUpdated : jstring)
    (w : World) :
  storable catalog = true -> truthy catalog = true ->
  read_item MockBackendAPI.storageKey (localStorage w)
  = inr (Some (JSON_stringify (snapshot_of catalog lastUpdated))) ->
  MockBackendAPI.init w
  = (inr tt,
     set_app (set_mediaItems catalog)
       (add_events [GetItem MockBackendAPI.storageKey] w)).
Proof.
  intros Hst Htruthy Hprimary. rewrite init_run. unfold load_result.
  rewrite (load_item_parsed _ _ _ _ Hprimary
             (JSON_parse_stringify _ (storable_snapshot _ _ Hst))).
  cbn [fst snd]. unfold catalog_from, snapshot_of.
  cbn [get_prop obj_get]. rewrite jstring_eqb_refl.
  unfold js_or. rewrite Htruthy. reflexivity.
Qed.

(** X3.  A save that throws may still have been written.  When the write
    of the primary slot succeeds and [saveToStorage] throws all the same
    (the write of the backup slot failed), a later [init] on the storage
    it left loads the catalog of the save that threw. *)
Theorem half_saved_is_loaded (c : list MediaRecord.t) (lastUpdated : jstring)
    (w w' : World) (st1 : Storage) :
  let data := snapshot_of (catalog_value c) lastUpdated in
  let saved := MockBackendAPI.saveToStorage data w in
  Forall MediaRecord.safe c ->
  write_item MockBackendAPI.storageKey (JSON_stringify data) (localStorage w)
  = inr st1 ->
  fst saved = inl StorageUnavailable ->
  localStorage w' = localStorage (snd saved) ->
  fst (MockBackendAPI.init w') = inr tt
  /\ mediaItems (appState (snd (MockBackendAPI.init w'))) = catalog_value c.
Proof.
  intros data saved Hsafe H1 Hfailed Hw'.
  assert (read_item MockBackendAPI.storageKey (localStorage w')
          = inr (Some (JSON_stringify data))) as Hprimary.
  { rewrite Hw'. unfold saved in *. revert Hfailed.
    rewrite saveToStorage_run. cbv zeta. rewrite H1.
    destruct (write_item MockBackendAPI.backupKey (JSON_stringify data) st1)
      as [err|st2]; [intros _ | discriminate].
    cbn [snd localStorage set_localStorage add_event].
    apply write_item_inr in H1 as (Hd & -> & _).
    unfold read_item. cbn [denied items with_items]. rewrite Hd.
    rewrite slot_get_slot_set_eq. reflexivity. }
  rewrite (init_loads_snapshot (catalog_value c) lastUpdated w'
             (storable_catalog c Hsafe) eq_refl Hprimary).
  split; reflexivity.
Qed.

Lemma safe_one : Forall MediaRecord.safe [cat_photo].
Proof. repeat constructor. Defined.

Lemma half_saved_is_loaded_witness :
  let data := snapshot_of (catalog_value [cat_photo])
                (js "2023-11-14T22:13:20.001Z") in
  let saved := MockBackendAPI.saveToStorage data (world_of [cat_photo] tight) in
  let later := world_of [] (localStorage (snd saved)) in
  fst saved = inl StorageUnavailable
  /\ fst (MockBackendAPI.init later) = inr tt
  /\ mediaItems (appState (snd (MockBackendAPI.init later)))
     = catalog_value [cat_photo].
Proof.
  intros data saved later.
  assert (fst saved = inl StorageUnavailable) as Hfailed
    by (vm_compute; reflexivity).
  split; [exact Hfailed|].
  refine (half_saved_is_loaded [cat_photo] (js "2023-11-14T22:13:20.001Z")
            (world_of [cat_photo] tight) later _ safe_one _ Hfailed eq_refl).
  vm_compute. reflexivity.
Defined.

(** X4.  [init] only reads.  It leaves the storage as it is (a primary slot
    that does not parse is not repaired from the backup slot), and the
    form, the record being edited and the loading flag; so a second [init]
    yields the catalog of the first.  When reading or parsing fails for
    both slots, the catalog it leaves is empty. *)
Theorem init_only_reads (w : World) :
  let w1 := snd (MockBackendAPI.init w) in
  localStorage w1 = localStorage w
  /\ dom w1 = dom w
  /\ currentEditId (appState w1) = currentEditId (appState w)
  /\ isLoading (appState w1) = isLoading (appState w)
  /\ mediaItems (appState (snd (MockBackendAPI.init w1)))
     = mediaItems (appState w1)
  /\ forall err err',
       load_item MockBackendAPI.storageKey (localStorage w) = inl err ->
       load_item MockBackendAPI.backupKey (localStorage w) = inl err' ->
       mediaItems (appState w1) = VArr []
       /\ trace w1 = trace w ++ [GetItem MockBackendAPI.storageKey;
                                 GetItem MockBackendAPI.backupKey].
Proof.
  intros w1. unfold w1. rewrite (init_run w). cbn [snd].
  repeat (split; [reflexivity|]). split.
  - rewrite init_run. reflexivity.
  - intros err err' Hp Hb. unfold load_result. rewrite Hp, Hb.
    split; reflexivity.
Qed.

(** ** The store: operations one after another *)

Lemma index_of_app_fresh (id : jstring) (c : list MediaRecord.t)
    (r : MediaRecord.t) :
  id ∉ ids c -> MediaRecord.id r = id ->
  index_of id (c ++ [r]) = Some (length c).
Proof.
  unfold ids. intros Hfresh Hid. induction c as [|r' c IH]; simpl.
  - rewrite Hid, jstring_eqb_refl. reflexivity.
  - cbn [fmap list_fmap] in Hfresh. apply not_elem_of_cons in Hfresh as [Hne Hfresh].
    assert (jstring_eqb (MediaRecord.id r') id = false) as ->
      by (apply jstring_eqb_neq; congruence).
    rewrite (IH Hfresh). reflexivity.
Qed.

Lemma delete_last {A} (l : list A) (x : A) : delete (length l) (l ++ [x]) = l.
Proof. rewrite delete_middle. apply app_nil_r. Qed.

Lemma ids_insert_description (c : list MediaRecord.t) (i : nat) (d : jstring)
    (r : MediaRecord.t) :
  c !! i = Some r -> ids (<[i := MediaRecord.with_description d r]> c) = ids c.
Proof.
  intros Hi. unfold ids. rewrite list_fmap_insert. cbn [MediaRecord.id
    MediaRecord.with_description].
  apply list_insert_id. rewrite list_lookup_fmap, Hi. reflexivity.
Qed.

(** X5.  [createMedia] and then [deleteMedia] of the id it gave, when that
    id was not in the catalog: the catalog in memory is the one before the
    two calls, and when the second call returns both slots hold its
    snapshot.  This holds whether or not the write of [createMedia]
    succeeded. *)
Theorem createMedia_then_deleteMedia (e e' : Env)
    (fileName description fileType : jstring) (fileSize : N)
    (w : World) (c : list MediaRecord.t) :
  mediaItems (appState w) = catalog_value c ->
  Utils.generateId e ∉ ids c ->
  let created :=
    MockBackendAPI.createMedia e
      (mediaData_of fileName description fileType fileSize) w in
  let deleted :=
    MockBackendAPI.deleteMedia e' (Utils.generateId e) (snd created) in
  mutated deleted tt (catalog_value c) (iso_first e').
Proof.
  intros Hw Hfresh created deleted.
  set (new := created_record e fileName description fileType fileSize).
  assert (mediaItems (appState (snd created)) = catalog_value (c ++ [new]))
    as Hcreated.
  { unfold created. rewrite (createMedia_catalog e _ _ _ _ w c Hw). cbv zeta.
    rewrite after_save_appState. reflexivity. }
  unfold deleted.
  rewrite (deleteMedia_run e' _ (snd created) _ (length c) Hcreated)
    by (rewrite findIndex_id_catalog; f_equal;
        apply index_of_app_fresh; [assumption | reflexivity]).
  rewrite <- list_fmap_delete, delete_last.
  pose proof (after_save_mutated tt (catalog_value c) (iso_first e')
                (set_app (set_mediaItems (catalog_value c))
                   (add_event (DeleteMedia (Utils.generateId e))
                      (snd created))) eq_refl) as H.
  rewrite after_save_tt in H. exact H.
Qed.

Lemma createMedia_then_deleteMedia_witness :
  let created :=
    MockBackendAPI.createMedia noon
      (mediaData_of (js "a.png") (js "cat photo") (js "image") 2048)
      (world_of [dog_video] roomy) in
  let deleted :=
    MockBackendAPI.deleteMedia noon (Utils.generateId noon) (snd created) in
  mutated deleted tt (catalog_value [dog_video]) (iso_first noon).
Proof.
  exact (createMedia_then_deleteMedia noon noon (js "a.png") (js "cat photo")
           (js "image") 2048 (world_of [dog_video] roomy) [dog_video]
           eq_refl noon_id_fresh).
Defined.

(** X6.  Two updates of the description of a record, one after the other:
    the second leaves the catalog as it would alone, with its description
    and every other field of the record as it was, and returns that record
    (or throws StorageUnavailable); nothing of the first update is left,
    whether or not its write succeeded. *)
Theorem updateMedia_twice (e e' : Env) (d1 d2 : jstring) (w : World)
    (c : list MediaRecord.t) (i : nat) (r : MediaRecord.t) :
  mediaItems (appState w) = catalog_value c ->
  NoDup (ids c) ->
  c !! i = Some r ->
  let first :=
    MockBackendAPI.updateMedia e (MediaRecord.id r)
      (VObj [(k_description, VStr d1)]) w in
  let second :=
    MockBackendAPI.updateMedia e' (MediaRecord.id r)
      (VObj [(k_description, VStr d2)]) (snd first) in
  mutated second
    (MediaRecord.to_value (MediaRecord.with_description d2 r))
    (catalog_value (<[i := MediaRecord.with_description d2 r]> c))
    (iso_first e').
Proof.
  intros Hw Hnd Hi first second.
  set (r1 := MediaRecord.with_description d1 r).
  assert (mediaItems (appState (snd first)) = catalog_value (<[i := r1]> c))
    as Hfirst by (apply updateMedia_description_catalog; assumption).
  assert (i < length c)%nat as Hlen by (eapply lookup_lt_Some; eassumption).
  assert (<[i := r1]> c !! i = Some r1) as Hi1
    by (apply list_lookup_insert_eq; assumption).
  assert (NoDup (ids (<[i := r1]> c))) as Hnd1
    by (unfold r1; rewrite ids_insert_description; assumption).
  unfold second. change (MediaRecord.id r) with (MediaRecord.id r1).
  rewrite (updateMedia_run e' _ _ (snd first) _ i Hfirst)
    by (rewrite findIndex_id_catalog, (index_of_NoDup _ i r1); auto).
  cbv zeta. rewrite (lookup_catalog _ i r1 Hi1), merge_description.
  rewrite <- list_fmap_insert, list_insert_insert_eq.
  change (MediaRecord.with_description d2 r1)
    with (MediaRecord.with_description d2 r).
  apply after_save_mutated. reflexivity.
Qed.

Lemma updateMedia_twice_witness :
  let first :=
    MockBackendAPI.updateMedia noon (MediaRecord.id dog_video)
      (VObj [(k_description, VStr (js "a dog"))])
      (world_of [cat_photo; dog_video] roomy) in
  let second :=
    MockBackendAPI.updateMedia noon (MediaRecord.id dog_video)
      (VObj [(k_description, VStr (js "my dog"))]) (snd first) in
  mutated second
    (MediaRecord.to_value (MediaRecord.with_description (js "my dog") dog_video))
    (catalog_value
       (<[1%nat := MediaRecord.with_description (js "my dog") dog_video]>
          [cat_photo; dog_video]))
    (iso_first noon).
Proof.
  exact (updateMedia_twice noon noon (js "a dog") (js "my dog")
           (world_of [cat_photo; dog_video] roomy) [cat_photo; dog_video]
           1 dog_video eq_refl NoDup_ids_two eq_refl).
Defined.

(** X7.  The catalog's invariant is kept.  On a catalog with distinct ids,
    an update of a record's description leaves the ids as they were, in
    their order; [deleteMedia] of a record leaves one record less, the
    other records in their order, and their ids distinct.  Both hold
    whether or not the write succeeds. *)
Theorem distinct_ids_are_kept (e : Env) (d : jstring) (w : World)
    (c : list MediaRecord.t) (i : nat) (r : MediaRecord.t) :
  mediaItems (appState w) = catalog_value c ->
  NoDup (ids c) ->
  c !! i = Some r ->
  let updated :=
    MockBackendAPI.updateMedia e (MediaRecord.id r)
      (VObj [(k_description, VStr d)]) w in
  let deleted := MockBackendAPI.deleteMedia e (MediaRecord.id r) w in
  exists c1 c2,
    mediaItems (appState (snd updated)) = catalog_value c1
    /\ ids c1 = ids c
    /\ mediaItems (appState (snd deleted)) = catalog_value c2
    /\ NoDup (ids c2)
    /\ sublist c2 c
    /\ length c = S (length c2).
Proof.
  intros Hw Hnd Hi updated deleted.
  exists (<[i := MediaRecord.with_description d r]> c), (delete i c).
  split; [apply updateMedia_description_catalog; assumption|].
  split; [apply ids_insert_description; assumption|].
  split.
  { unfold deleted. rewrite (deleteMedia_catalog e w c i r Hw Hnd Hi).
    destruct (saveToStorage_appState
                (snapshot_of (catalog_value (delete i c)) (iso_first e))
                (set_app (set_mediaItems (catalog_value (delete i c)))
                   (add_event (DeleteMedia (MediaRecord.id r)) w)))
      as [-> _].
    reflexivity. }
  split; [|split; [apply sublist_delete|]].
  - apply (sublist_NoDup _ (ids c)); [assumption|].
    unfold ids. apply fmap_sublist, sublist_delete.
  - rewrite length_delete by (rewrite Hi; eauto).
    apply lookup_lt_Some in Hi. lia.
Qed.

Lemma distinct_ids_are_kept_witness :
  let w := world_of [cat_photo; dog_video] roomy in
  let updated :=
    MockBackendAPI.updateMedia noon (MediaRecord.id cat_photo)
      (VObj [(k_description, VStr (js "new cat photo"))]) w in
  let deleted := MockBackendAPI.deleteMedia noon (MediaRecord.id cat_photo) w in
  exists c1 c2,
    mediaItems (appState (snd updated)) = catalog_value c1
    /\ ids c1 = ids [cat_photo; dog_video]
    /\ mediaItems (appState (snd deleted)) = catalog_value c2
    /\ NoDup (ids c2)
    /\ sublist c2 [cat_photo; dog_video]
    /\ length [cat_photo; dog_video] = S (length c2).
Proof.
  exact (distinct_ids_are_kept noon (js "new cat photo")
           (world_of [cat_photo; dog_video] roomy) [cat_photo; dog_video]
           0 cat_photo eq_refl NoDup_ids_two eq_refl).
Defined.

(** X8.  The store needs an array.  When the catalog in memory is not an
    array (as [init] can leave it), [createMedia], [updateMedia] and
    [deleteMedia] throw a TypeError before they change anything: the
    catalog, the form and the storage are as they were. *)
Theorem store_needs_an_array (e : Env) (w : World) (o : object)
    (id : jstring) (updates : value) :
  (forall l, mediaItems (appState w) <> VArr l) ->
  MockBackendAPI.createMedia e (VObj o) w
  = (inl TypeError, add_events [CreateMedia (VObj o)] w)
  /\ MockBackendAPI.updateMedia e id updates w
     = (inl TypeError, add_events [UpdateMedia id updates] w)
  /\ MockBackendAPI.deleteMedia e id w
     = (inl TypeError, add_events [DeleteMedia id] w).
Proof.
  intros Hnot.
  assert (array_of (mediaItems (appState w)) = inl TypeError) as Harr.
  { destruct (mediaItems (appState w)) as [| | | | | |l|]; try reflexivity.
    exfalso. exact (Hnot l eq_refl). }
  unfold MockBackendAPI.createMedia, MockBackendAPI.updateMedia,
    MockBackendAPI.deleteMedia, bind, emit, modify, get_world, lift, ret,
    throw, get_prop.
  cbn [fst snd appState add_event]. rewrite Harr.
  repeat split; reflexivity.
Qed.

Lemma store_needs_an_array_witness :
  let w := snd (MockBackendAPI.init (world_of [] misshapen_primary)) in
  mediaItems (appState w) = VNum 5
  /\ MockBackendAPI.createMedia noon
       (mediaData_of (js "a.png") (js "cat photo") (js "image") 2048) w
     = (inl TypeError,
        add_events
          [CreateMedia
             (mediaData_of (js "a.png") (js "cat photo") (js "image") 2048)] w)
  /\ MockBackendAPI.updateMedia noon (MediaRecord.id cat_photo)
       (VObj [(k_description, VStr (js "new cat photo"))]) w
     = (inl TypeError,
        add_events
          [UpdateMedia (MediaRecord.id cat_photo)
             (VObj [(k_description, VStr (js "new cat photo"))])] w)
  /\ MockBackendAPI.deleteMedia noon (MediaRecord.id cat_photo) w
     = (inl TypeError, add_events [DeleteMedia (MediaRecord.id cat_photo)] w).
Proof.
  intros w.
  assert (mediaItems (appState w) = VNum 5) as Hw by (vm_compute; reflexivity).
  split; [exact Hw|].
  apply (store_needs_an_array noon w).
  intros l H. rewrite Hw in H. discriminate.
Defined.

(** ** The gallery *)

Lemma no_nullish_record (c : list MediaRecord.t) :
  existsb nullish (MediaRecord.to_value <$> c) = false.
Proof. induction c as [|r c IH]; [reflexivity | exact IH]. Qed.

(** [renderGallery], whatever the catalog in memory is. *)
Lemma renderGallery_run (w : World) :
  renderGallery w
  = (inr tt,
     add_events
       [GetMedia;
        match spread_array (mediaItems (appState w)) with
        | inr (VArr cards) =>
            if existsb nullish cards
            then ShowMessage (js "Failed to load media gallery.") error_message
            else Render cards
        | _ => ShowMessage (js "Failed to load media gallery.") error_message
        end] w).
Proof.
  unfold renderGallery, try_catch, MockBackendAPI.getMedia, Utils.showMessage,
    bind, emit, modify, get_world, lift, throw, ret, add_events, add_event.
  cbn [fst snd appState trace dom localStorage].
  destruct (mediaItems (appState w)) as [| |b|z|lit|s|l|o];
    cbn [spread_array array_of fst snd appState trace dom localStorage];
    try (rewrite <- app_assoc; reflexivity).
  - destruct (existsb nullish (List.map VStr (code_points s)));
      cbn [fst snd appState trace dom localStorage];
      rewrite <- app_assoc; reflexivity.
  - destruct (existsb nullish l);
      cbn [fst snd appState trace dom localStorage];
      rewrite <- !app_assoc; reflexivity.
Qed.

Lemma renderGallery_catalog (w : World) (c : list MediaRecord.t) :
  mediaItems (appState w) = catalog_value c ->
  renderGallery w
  = (inr tt, add_events [GetMedia; Render (MediaRecord.to_value <$> c)] w).
Proof.
  intros Hw. rewrite renderGallery_run, Hw. cbn [catalog_value spread_array].
  rewrite no_nullish_record. reflexivity.
Qed.

(** X9.  [renderGallery] never throws, and it changes neither the catalog
    nor the form nor the storage.  It draws the records of the catalog, in
    the catalog's order; when the catalog holds a [null] or [undefined]
    item, or is neither an array nor a string, it draws nothing and shows
    the message of a gallery that failed to load. *)
Theorem renderGallery_draws_the_catalog (w : World) :
  let failed :=
    ShowMessage (js "Failed to load media gallery.") error_message in
  fst (renderGallery w) = inr tt
  /\ appState (snd (renderGallery w)) = appState w
  /\ dom (snd (renderGallery w)) = dom w
  /\ localStorage (snd (renderGallery w)) = localStorage w
  /\ (forall c,
        mediaItems (appState w) = catalog_value c ->
        trace (snd (renderGallery w))
        = trace w ++ [GetMedia; Render (MediaRecord.to_value <$> c)])
  /\ (forall l,
        mediaItems (appState w) = VArr l -> existsb nullish l = true ->
        trace (snd (renderGallery w)) = trace w ++ [GetMedia; failed])
  /\ ((forall l, mediaItems (appState w) <> VArr l) ->
      (forall s, mediaItems (appState w) <> VStr s) ->
      trace (snd (renderGallery w)) = trace w ++ [GetMedia; failed]).
Proof.
  intros failed. rewrite renderGallery_run. cbn [fst snd add_events appState dom
    localStorage trace].
  repeat (split; [reflexivity|]). split; [|split].
  - intros c Hw. rewrite Hw. cbn [catalog_value spread_array].
    rewrite no_nullish_record. reflexivity.
  - intros l Hw Hnull. rewrite Hw. cbn [spread_array]. rewrite Hnull.
    reflexivity.
  - intros Harr Hstr.
    destruct (mediaItems (appState w)) as [| |b|z|lit|s|l|o]; try reflexivity.
    + exfalso. exact (Hstr s eq_refl).
    + exfalso. exact (Harr l eq_refl).
Qed.

(** ** Uploading *)

(** [handleUpload] on a form that passes the checks. *)
Lemma handleUpload_run (e : Env) (w : World) (file : File)
    (description : jstring) :
  isLoading (appState w) = false ->
  fileInput_files0 (dom w) = Some file ->
  Utils.isValidFileType file = true ->
  trim (descriptionInput_value (dom w)) = description ->
  description <> [] ->
  (length description <= 500)%nat ->
  let failed := ShowMessage (js "Upload failed. Please try again.")
                  error_message in
  let created :=
    MockBackendAPI.createMedia e
      (mediaData_of (file_name file) description
         (Utils.getFileType (file_type file)) (file_size file))
      (set_app (set_isLoading true) w) in
  handleUpload e w
  = (inr tt,
     set_app (set_isLoading false)
       match fst created with
       | inr newItem =>
           add_event
             match get_prop newItem k_fileName with
             | inr fileName =>
                 ShowMessage
                   (js "Successfully uploaded " ++ ToString fileName ++ js "!")
                   success_message
             | inl _ => failed
             end
             (snd (renderGallery (set_dom reset_uploadForm (snd created))))
       | inl _ => add_event failed (snd created)
       end).
Proof.
  intros Hloading Hfile Hvalid Htrim Hne Hlen failed created.
  unfold handleUpload, bind at 1, get_world. cbn [fst snd].
  rewrite Hloading, Hfile, Hvalid, Htrim. cbn [negb].
  destruct description as [|c0 t]; [contradiction|].
  replace (500 <? length (c0 :: t))%nat with false
    by (symmetry; apply Nat.ltb_ge; exact Hlen).
  unfold try_finally, try_catch, Utils.setLoadingState, bind at 1, modify at 1.
  unfold bind at 1. fold created.
  change (MockBackendAPI.createMedia e _ (set_app (set_isLoading true) w))
    with created.
  destruct created as [[err|newItem] w2]; cbn [fst snd].
  - reflexivity.
  - unfold bind at 1, modify at 1. unfold bind at 1.
    rewrite (renderGallery_run (set_dom reset_uploadForm w2)). cbn [fst snd].
    unfold bind, lift, Utils.showMessage, emit, modify, throw, ret.
    destruct (get_prop newItem k_fileName) as [err|fileName]; reflexivity.
Qed.

(** X10.  An upload that succeeds.  With no upload running, a file of a
    valid type selected, a description that is not empty after trimming and
    has at most 500 characters, and room in the storage for the two
    writes, [handleUpload] appends to the catalog the record of the file
    with the trimmed description, writes both slots, resets the form,
    draws the gallery with the new record last, reports the upload by the
    file's name, and leaves the loading flag off. *)
Theorem handleUpload_adds_the_record (e : Env) (w : World) (file : File)
    (c : list MediaRecord.t) (st2 : Storage) :
  let description := trim (descriptionInput_value (dom w)) in
  let fileType := Utils.getFileType (file_type file) in
  let new :=
    created_record e (file_name file) description fileType (file_size file) in
  isLoading (appState w) = false ->
  fileInput_files0 (dom w) = Some file ->
  Utils.isValidFileType file = true ->
  description <> [] ->
  (length description <= 500)%nat ->
  mediaItems (appState w) = catalog_value c ->
  written
    (JSON_stringify (snapshot_of (catalog_value (c ++ [new])) (iso_second e)))
    (localStorage w) = Some st2 ->
  handleUpload e w
  = (inr tt,
     {| appState := {| mediaItems := catalog_value (c ++ [new]);
                       currentEditId := currentEditId (appState w);
                       isLoading := false |};
        dom := reset_uploadForm (dom w);
        localStorage := st2;
        trace :=
          trace w
          ++ [CreateMedia
                (mediaData_of (file_name file) description fileType
                   (file_size file));
              SetItem MockBackendAPI.storageKey;
              SetItem MockBackendAPI.backupKey;
              GetMedia;
              Render (MediaRecord.to_value <$> c ++ [new]);
              ShowMessage
                (js "Successfully uploaded " ++ file_name file ++ js "!")
                success_message] |}).
Proof.
  intros description fileType new Hloading Hfile Hvalid Hne Hlen Hw Hwritten.
  rewrite (handleUpload_run e w file description Hloading Hfile Hvalid eq_refl
             Hne Hlen).
  cbv zeta. fold fileType.
  rewrite (createMedia_catalog e _ _ _ _ (set_app (set_isLoading true) w) c Hw).
  cbv zeta. fold new. rewrite saveToStorage_written.
  cbn [localStorage set_app add_event appState dom trace]. rewrite Hwritten.
  cbn [after_save fst snd].
  rewrite (renderGallery_catalog _ (c ++ [new])) by reflexivity.
  change (get_prop (MediaRecord.to_value new) k_fileName)
    with (@inr exn value (VStr (file_name file))).
  cbn [snd ToString]. unfold set_app, add_event, add_events, set_dom.
  cbn [appState dom localStorage trace set_isLoading set_mediaItems mediaItems
         currentEditId isLoading].
  rewrite <- !app_assoc. reflexivity.
Qed.

Lemma handleUpload_adds_the_record_witness :
  let new := created_record one_pm (js "a.png") (js "aaa") (js "image") 2048 in
  exists st2,
    handleUpload one_pm (typed 3)
    = (inr tt,
       {| appState := {| mediaItems := catalog_value ([cat_photo] ++ [new]);
                         currentEditId := Some (MediaRecord.id cat_photo);
                         isLoading := false |};
          dom := reset_uploadForm (dom (typed 3));
          localStorage := st2;
          trace :=
            [CreateMedia
               (mediaData_of (js "a.png") (js "aaa") (js "image") 2048);
             SetItem MockBackendAPI.storageKey;
             SetItem MockBackendAPI.backupKey;
             GetMedia;
             Render (MediaRecord.to_value <$> [cat_photo] ++ [new]);
             ShowMessage (js "Successfully uploaded a.png!")
               success_message] |}).
Proof.
  intros new. eexists.
  refine (handleUpload_adds_the_record one_pm (typed 3) a_png [cat_photo] _
            eq_refl eq_refl eq_refl _ _ eq_refl _).
  - vm_compute. discriminate.
  - vm_compute. lia.
  - vm_compute. reflexivity.
Defined.

(** X11.  An upload whose write fails.  Under the same conditions but with
    no room in the storage for the two writes, [handleUpload] shows the
    message of a failed upload and leaves the loading flag off, yet the new
    record is in the catalog in memory; the form is not reset and the
    gallery is not drawn again, so the page does not show the record the
    catalog holds. *)
Theorem handleUpload_failed_write (e : Env) (w : World) (file : File)
    (c : list MediaRecord.t) :
  let description := trim (descriptionInput_value (dom w)) in
  let fileType := Utils.getFileType (file_type file) in
  let new :=
    created_record e (file_name file) description fileType (file_size file) in
  isLoading (appState w) = false ->
  fileInput_files0 (dom w) = Some file ->
  Utils.isValidFileType file = true ->
  description <> [] ->
  (length description <= 500)%nat ->
  mediaItems (appState w) = catalog_value c ->
  written
    (JSON_stringify (snapshot_of (catalog_value (c ++ [new])) (iso_second e)))
    (localStorage w) = None ->
  exists writes st',
    handleUpload e w
    = (inr tt,
       {| appState := {| mediaItems := catalog_value (c ++ [new]);
                         currentEditId := currentEditId (appState w);
                         isLoading := false |};
          dom := dom w;
          localStorage := st';
          trace :=
            trace w
            ++ CreateMedia
                 (mediaData_of (file_name file) description fileType
                    (file_size file))
               :: writes
               ++ [ShowMessage (js "Upload failed. Please try again.")
                     error_message] |})
    /\ (writes = [SetItem MockBackendAPI.storageKey]
        \/ writes = [SetItem MockBackendAPI.storageKey;
                     SetItem MockBackendAPI.backupKey]).
Proof.
  intros description fileType new Hloading Hfile Hvalid Hne Hlen Hw Hwritten.
  rewrite (handleUpload_run e w file description Hloading Hfile Hvalid eq_refl
             Hne Hlen).
  cbv zeta. fold fileType.
  rewrite (createMedia_catalog e _ _ _ _ (set_app (set_isLoading true) w) c Hw).
  cbv zeta. fold new. rewrite saveToStorage_written.
  cbn [localStorage set_app add_event appState dom trace]. rewrite Hwritten.
  cbn [after_save fst snd].
  destruct (write_item MockBackendAPI.storageKey _ (localStorage w))
    as [err|st1].
  - exists [SetItem MockBackendAPI.storageKey], (localStorage w).
    split; [|left; reflexivity].
    unfold set_app, add_event, add_events.
    cbn [appState dom localStorage trace set_isLoading set_mediaItems
           mediaItems currentEditId isLoading].
    rewrite <- !app_assoc. reflexivity.
  - exists [SetItem MockBackendAPI.storageKey; SetItem MockBackendAPI.backupKey],
      st1.
    split; [|right; reflexivity].
    unfold set_app, add_event, add_events.
    cbn [appState dom localStorage trace set_isLoading set_mediaItems
           mediaItems currentEditId isLoading].
    rewrite <- !app_assoc. reflexivity.
Qed.

Lemma handleUpload_failed_write_witness :
  let w := set_localStorage (fun _ => full) (typed 3) in
  let new := created_record one_pm (js "a.png") (js "aaa") (js "image") 2048 in
  exists writes st',
    handleUpload one_pm w
    = (inr tt,
       {| appState := {| mediaItems := catalog_value ([cat_photo] ++ [new]);
                         currentEditId := Some (MediaRecord.id cat_photo);
                         isLoading := false |};
          dom := dom w;
          localStorage := st';
          trace :=
            trace w
            ++ CreateMedia
                 (mediaData_of (js "a.png") (js "aaa") (js "image") 2048)
               :: writes
               ++ [ShowMessage (js "Upload failed. Please try again.")
                     error_message] |})
    /\ (writes = [SetItem MockBackendAPI.storageKey]
        \/ writes = [SetItem MockBackendAPI.storageKey;
                     SetItem MockBackendAPI.backupKey]).
Proof.
  intros w new.
  refine (handleUpload_failed_write one_pm w a_png [cat_photo]
            eq_refl eq_refl eq_refl _ _ eq_refl _).
  - vm_compute. discriminate.
  - vm_compute. lia.
  - vm_compute. reflexivity.
Defined.

(** X12.  [handleUpload] never throws, and it leaves the loading flag as it
    found it: whatever its checks and the store do, the flag it sets is set
    back.  While an upload is running it does nothing at all. *)
Theorem handleUpload_returns (e : Env) (w : World) :
  fst (handleUpload e w) = inr tt
  /\ isLoading (appState (snd (handleUpload e w))) = isLoading (appState w)
  /\ (isLoading (appState w) = true -> handleUpload e w = (inr tt, w)).
Proof.
  destruct (isLoading (appState w)) eqn:Hloading.
  { unfold handleUpload, bind, get_world. cbn [fst snd]. rewrite Hloading.
    cbn [ret fst snd]. auto. }
  split; [|split; [|discriminate]].
  - destruct (fileInput_files0 (dom w)) as [file|] eqn:Hfile.
    2:{ unfold handleUpload, bind, get_world. cbn [fst snd].
        rewrite Hloading, Hfile. reflexivity. }
    destruct (Utils.isValidFileType file) eqn:Hvalid.
    2:{ unfold handleUpload, bind, get_world. cbn [fst snd].
        rewrite Hloading, Hfile, Hvalid. reflexivity. }
    destruct (trim (descriptionInput_value (dom w))) as [|c0 t] eqn:Htrim.
    { unfold handleUpload, bind, get_world. cbn [fst snd].
      rewrite Hloading, Hfile, Hvalid, Htrim. reflexivity. }
    destruct (500 <? length (c0 :: t))%nat eqn:Hlong.
    { unfold handleUpload, bind, get_world. cbn [fst snd].
      rewrite Hloading, Hfile, Hvalid, Htrim, Hlong. reflexivity. }
    rewrite (handleUpload_run e w file (c0 :: t) Hloading Hfile Hvalid Htrim)
      by (try discriminate; apply Nat.ltb_ge; exact Hlong).
    reflexivity.
  - destruct (fileInput_files0 (dom w)) as [file|] eqn:Hfile.
    2:{ unfold handleUpload, bind, get_world. cbn [fst snd].
        rewrite Hloading, Hfile. exact Hloading. }
    destruct (Utils.isValidFileType file) eqn:Hvalid.
    2:{ unfold handleUpload, bind, get_world. cbn [fst snd].
        rewrite Hloading, Hfile, Hvalid. exact Hloading. }
    destruct (trim (descriptionInput_value (dom w))) as [|c0 t] eqn:Htrim.
    { unfold handleUpload, bind, get_world. cbn [fst snd].
      rewrite Hloading, Hfile, Hvalid, Htrim. exact Hloading. }
    destruct (500 <? length (c0 :: t))%nat eqn:Hlong.
    { unfold handleUpload, bind, get_world. cbn [fst snd].
      rewrite Hloading, Hfile, Hvalid, Htrim, Hlong. exact Hloading. }
    rewrite (handleUpload_run e w file (c0 :: t) Hloading Hfile Hvalid Htrim)
      by (try discriminate; apply Nat.ltb_ge; exact Hlong).
    reflexivity.
Qed.

(** X13.  The checks of [handleUpload], in their order.  With no upload
    running, the first check that fails decides the one message shown: a
    missing file before a file of another type, and that before a
    description that is empty after trimming.  In each case nothing else
    happens: the store is not called, and the catalog, the form and the
    storage are as they were. *)
Theorem handleUpload_checks_in_order (e : Env) (w : World) :
  isLoading (appState w) = false ->
  (fileInput_files0 (dom w) = None ->
   handleUpload e w
   = (inr tt,
      add_events
        [ShowMessage (js "Please select a file to upload.") error_message] w))
  /\ (forall file,
        fileInput_files0 (dom w) = Some file ->
        Utils.isValidFileType file = false ->
        handleUpload e w
        = (inr tt,
           add_events
             [ShowMessage
                (js "Invalid file type. Please select an image, video, or audio file.")
                error_message] w))
  /\ (forall file,
        fileInput_files0 (dom w) = Some file ->
        Utils.isValidFileType file = true ->
        trim (descriptionInput_value (dom w)) = [] ->
        handleUpload e w
        = (inr tt,
           add_events
             [ShowMessage (js "Please enter a description for your media.")
                error_message] w)).
Proof.
  intros Hloading. split; [|split].
  - intros Hfile. unfold handleUpload, bind, get_world. cbn [fst snd].
    rewrite Hloading, Hfile. reflexivity.
  - intros file Hfile Hvalid. unfold handleUpload, bind, get_world.
    cbn [fst snd]. rewrite Hloading, Hfile, Hvalid. reflexivity.
  - intros file Hfile Hvalid Htrim. unfold handleUpload, bind, get_world.
    cbn [fst snd]. rewrite Hloading, Hfile, Hvalid, Htrim. reflexivity.
Qed.

Lemma handleUpload_checks_in_order_witness :
  handleUpload noon (world_of [cat_photo] roomy)
  = (inr tt,
     add_events
       [ShowMessage (js "Please select a file to upload.") error_message]
       (world_of [cat_photo] roomy)).
Proof.
  exact (proj1 (handleUpload_checks_in_order noon (world_of [cat_photo] roomy)
                  eq_refl) eq_refl).
Defined.

(** ** Editing a description *)

Lemma updateMedia_description_run (e : Env) (d : jstring) (w : World)
    (c : list MediaRecord.t) (i : nat) (r : MediaRecord.t) :
  mediaItems (appState w) = catalog_value c ->
  NoDup (ids c) ->
  c !! i = Some r ->
  let updates := VObj [(k_description, VStr d)] in
  let c' := <[i := MediaRecord.with_description d r]> c in
  MockBackendAPI.updateMedia e (MediaRecord.id r) updates w
  = after_save (MediaRecord.to_value (MediaRecord.with_description d r))
      (MockBackendAPI.saveToStorage
         (snapshot_of (catalog_value c') (iso_first e))
         (set_app (set_mediaItems (catalog_value c'))
            (add_event (UpdateMedia (MediaRecord.id r) updates) w))).
Proof.
  intros Hw Hnd Hi updates c'.
  rewrite (updateMedia_run e _ _ w _ i Hw)
    by (rewrite findIndex_id_catalog, (index_of_NoDup c i r); auto).
  cbv zeta. rewrite (lookup_catalog c i r Hi). unfold updates.
  rewrite merge_description. unfold c', catalog_value.
  rewrite list_fmap_insert. reflexivity.
Qed.

Lemma closeEditModal_run (w : World) :
  closeEditModal w
  = (inr tt, set_dom (set_edit [] false) (set_app (set_currentEditId None) w)).
Proof. reflexivity. Qed.

(** [handleSaveEdit] on a form that passes the checks. *)
Lemma handleSaveEdit_run (e : Env) (w : World) (id d : jstring) :
  currentEditId (appState w) = Some id ->
  id <> [] ->
  trim (editDescriptionInput_value (dom w)) = d ->
  d <> [] ->
  (length d <= 500)%nat ->
  let updated :=
    MockBackendAPI.updateMedia e id (VObj [(k_description, VStr d)]) w in
  handleSaveEdit e w
  = (inr tt,
     match fst updated with
     | inr _ =>
         add_event
           (ShowMessage (js "Description updated successfully!")
              success_message)
           (snd (renderGallery (snd (closeEditModal (snd updated)))))
     | inl _ =>
         add_event
           (ShowMessage (js "Failed to update description. Please try again.")
              error_message)
           (snd updated)
     end).
Proof.
  intros Hid Hne Htrim Hd Hlen updated.
  unfold handleSaveEdit, bind at 1, get_world. cbn [fst snd].
  rewrite Hid, Htrim. destruct id as [|c0 id']; [contradiction|].
  destruct d as [|c1 t]; [contradiction|].
  replace (500 <? length (c1 :: t))%nat with false
    by (symmetry; apply Nat.ltb_ge; exact Hlen).
  unfold try_catch, bind at 1. fold updated.
  change (MockBackendAPI.updateMedia e (c0 :: id') _ w) with updated.
  destruct updated as [[err|item] w1]; cbn [fst snd]; [reflexivity|].
  unfold bind at 1. rewrite closeEditModal_run. cbn [fst snd].
  unfold bind at 1. rewrite renderGallery_run. reflexivity.
Qed.

(** X14.  An edit that succeeds.  With a record of the catalog being
    edited, a description that is not empty after trimming and has at most
    500 characters, and room in the storage, [handleSaveEdit] gives the
    record the trimmed description (every other field and every other
    record as it was), writes both slots, closes the edit form, draws the
    gallery and reports the update. *)
Theorem handleSaveEdit_updates_the_record (e : Env) (w : World)
    (c : list MediaRecord.t) (i : nat) (r : MediaRecord.t) (st2 : Storage) :
  let d := trim (editDescriptionInput_value (dom w)) in
  let c' := <[i := MediaRecord.with_description d r]> c in
  currentEditId (appState w) = Some (MediaRecord.id r) ->
  MediaRecord.id r <> [] ->
  mediaItems (appState w) = catalog_value c ->
  NoDup (ids c) ->
  c !! i = Some r ->
  d <> [] ->
  (length d <= 500)%nat ->
  written (JSON_stringify (snapshot_of (catalog_value c') (iso_first e)))
    (localStorage w) = Some st2 ->
  handleSaveEdit e w
  = (inr tt,
     {| appState := {| mediaItems := catalog_value c';
                       currentEditId := None;
                       isLoading := isLoading (appState w) |};
        dom := set_edit [] false (dom w);
        localStorage := st2;
        trace :=
          trace w
          ++ [UpdateMedia (MediaRecord.id r) (VObj [(k_description, VStr d)]);
              SetItem MockBackendAPI.storageKey;
              SetItem MockBackendAPI.backupKey;
              GetMedia;
              Render (MediaRecord.to_value <$> c');
              ShowMessage (js "Description updated successfully!")
                success_message] |}).
Proof.
  intros d c' Hid Hne Hw Hnd Hi Hd Hlen Hwritten.
  rewrite (handleSaveEdit_run e w _ d Hid Hne eq_refl Hd Hlen). cbv zeta.
  rewrite (updateMedia_description_run e d w c i r Hw Hnd Hi). cbv zeta.
  fold c'. rewrite saveToStorage_written.
  cbn [localStorage set_app add_event appState dom trace]. rewrite Hwritten.
  cbn [after_save fst snd]. rewrite closeEditModal_run. cbn [snd].
  rewrite (renderGallery_catalog _ c') by reflexivity.
  cbn [snd]. unfold set_app, add_event, add_events, set_dom.
  cbn [appState dom localStorage trace set_currentEditId set_mediaItems
         mediaItems currentEditId isLoading].
  rewrite <- !app_assoc. reflexivity.
Qed.

Lemma NoDup_ids_typed : NoDup (ids [cat_photo]).
Proof. apply NoDup_singleton. Defined.

Lemma handleSaveEdit_updates_the_record_witness :
  let c' := <[0%nat := MediaRecord.with_description (js "aaa") cat_photo]>
              [cat_photo] in
  exists st2,
    handleSaveEdit one_pm (typed 3)
    = (inr tt,
       {| appState := {| mediaItems := catalog_value c';
                         currentEditId := None;
                         isLoading := false |};
          dom := set_edit [] false (dom (typed 3));
          localStorage := st2;
          trace :=
            [UpdateMedia (MediaRecord.id cat_photo)
               (VObj [(k_description, VStr (js "aaa"))]);
             SetItem MockBackendAPI.storageKey;
             SetItem MockBackendAPI.backupKey;
             GetMedia;
             Render (MediaRecord.to_value <$> c');
             ShowMessage (js "Description updated successfully!")
               success_message] |}).
Proof.
  intros c'. eexists.
  refine (handleSaveEdit_updates_the_record one_pm (typed 3) [cat_photo] 0
            cat_photo _ eq_refl _ eq_refl NoDup_ids_typed eq_refl _ _ _).
  - discriminate.
  - vm_compute. discriminate.
  - vm_compute. lia.
  - vm_compute. reflexivity.
Defined.

(** X15.  An edit that fails leaves the edit form open.  When the record
    being edited is no longer in the catalog, [handleSaveEdit] changes
    nothing and shows the message of a failed update.  When the write
    fails, it shows the same message and leaves the form open with its
    text, the gallery not drawn again, yet the record in memory has the new
    description. *)
Theorem handleSaveEdit_failure (e : Env) (w : World) (id : jstring)
    (c : list MediaRecord.t) :
  let d := trim (editDescriptionInput_value (dom w)) in
  let updates := VObj [(k_description, VStr d)] in
  let failed :=
    ShowMessage (js "Failed to update description. Please try again.")
      error_message in
  currentEditId (appState w) = Some id ->
  id <> [] ->
  mediaItems (appState w) = catalog_value c ->
  NoDup (ids c) ->
  d <> [] ->
  (length d <= 500)%nat ->
  (id ∉ ids c ->
   handleSaveEdit e w = (inr tt, add_events [UpdateMedia id updates; failed] w))
  /\ (forall i r,
        c !! i = Some r -> MediaRecord.id r = id ->
        let c' := <[i := MediaRecord.with_description d r]> c in
        written (JSON_stringify (snapshot_of (catalog_value c') (iso_first e)))
          (localStorage w) = None ->
        exists writes st',
          handleSaveEdit e w
          = (inr tt,
             {| appState := {| mediaItems := catalog_value c';
                               currentEditId := Some id;
                               isLoading := isLoading (appState w) |};
                dom := dom w;
                localStorage := st';
                trace := trace w ++ UpdateMedia id updates
                                    :: writes ++ [failed] |})
          /\ (writes = [SetItem MockBackendAPI.storageKey]
              \/ writes = [SetItem MockBackendAPI.storageKey;
                           SetItem MockBackendAPI.backupKey])).
Proof.
  intros d updates failed Hid Hne Hw Hnd Hd Hlen.
  rewrite (handleSaveEdit_run e w id d Hid Hne eq_refl Hd Hlen). cbv zeta.
  split.
  - intros Habsent.
    rewrite (updateMedia_not_found e id _ w _ Hw)
      by (rewrite findIndex_id_catalog; f_equal; apply index_of_None;
          assumption).
    cbn [fst snd]. unfold add_event, add_events.
    cbn [appState dom localStorage trace]. rewrite <- app_assoc. reflexivity.
  - intros i r Hi <- Hwritten.
    rewrite (updateMedia_description_run e d w c i r Hw Hnd Hi). cbv zeta.
    fold d in Hwritten |- *.
    set (c' := <[i := MediaRecord.with_description d r]> c) in *.
    rewrite saveToStorage_written.
    cbn [localStorage set_app add_event appState dom trace]. rewrite Hwritten.
    cbn [after_save fst snd].
    destruct (write_item MockBackendAPI.storageKey _ (localStorage w))
      as [err|st1].
    + exists [SetItem MockBackendAPI.storageKey], (localStorage w).
      split; [|left; reflexivity].
      unfold set_app, add_event, add_events, set_mediaItems.
      cbn [appState dom localStorage trace].
      rewrite Hid, <- !app_assoc. reflexivity.
    + exists [SetItem MockBackendAPI.storageKey;
              SetItem MockBackendAPI.backupKey], st1.
      split; [|right; reflexivity].
      unfold set_app, add_event, add_events, set_mediaItems.
      cbn [appState dom localStorage trace].
      rewrite Hid, <- !app_assoc. reflexivity.
Qed.

Lemma handleSaveEdit_failure_witness :
  let w := set_app (set_mediaItems (catalog_value [dog_video])) (typed 3) in
  let failed :=
    ShowMessage (js "Failed to update description. Please try again.")
      error_message in
  handleSaveEdit one_pm w
  = (inr tt,
     add_events
       [UpdateMedia (MediaRecord.id cat_photo)
          (VObj [(k_description, VStr (js "aaa"))]);
        failed] w).
Proof.
  intros w failed.
  refine (proj1 (handleSaveEdit_failure one_pm w (MediaRecord.id cat_photo)
                   [dog_video] eq_refl _ eq_refl NoDup_ids_one _ _) _).
  - discriminate.
  - vm_compute. discriminate.
  - vm_compute. lia.
  - intros H. apply list_elem_of_singleton in H. discriminate.
Defined.

(** ** Deleting a record *)

Lemma find_id_catalog (id : jstring) (w : World) (c : list MediaRecord.t) :
  mediaItems (appState w) = catalog_value c ->
  find_id id w
  = (inr (MediaRecord.to_value
            <$> match index_of id c with
                | Some i => c !! i
                | None => None
                end), w).
Proof.
  intros Hw. unfold find_id, bind, get_world, lift, ret. cbn [fst snd].
  rewrite Hw. cbn [catalog_value array_of]. rewrite findIndex_id_catalog.
  destruct (index_of id c) as [i|]; [|reflexivity].
  rewrite list_lookup_fmap. reflexivity.
Qed.

(** [handleDelete] of a record of the catalog, confirmed. *)
Lemma handleDelete_run (e : Env) (w : World) (c : list MediaRecord.t)
    (i : nat) (r : MediaRecord.t) :
  mediaItems (appState w) = catalog_value c ->
  NoDup (ids c) ->
  c !! i = Some r ->
  let deleted :=
    MockBackendAPI.deleteMedia e (MediaRecord.id r)
      (add_event (delete_question r) w) in
  handleDelete e true (MediaRecord.id r) w
  = (inr tt,
     match fst deleted with
     | inr _ =>
         add_event
           (ShowMessage (js "Media item deleted successfully!")
              success_message)
           (snd (renderGallery (snd deleted)))
     | inl _ =>
         add_event
           (ShowMessage (js "Failed to delete media item. Please try again.")
              error_message)
           (snd deleted)
     end).
Proof.
  intros Hw Hnd Hi deleted.
  unfold handleDelete, bind at 1. rewrite (find_id_catalog _ w c Hw).
  rewrite (index_of_NoDup c i r Hnd Hi), Hi. cbn [fmap option_fmap option_map].
  change (get_prop (MediaRecord.to_value r) k_fileName)
    with (@inr exn value (VStr (MediaRecord.fileName r))).
  unfold bind at 1, lift at 1, ret at 1. cbn [ToString].
  unfold bind at 1, emit at 1, modify at 1. cbn [negb].
  unfold try_catch, bind at 1.
  change (MockBackendAPI.deleteMedia e (MediaRecord.id r) _) with deleted.
  destruct deleted as [[err|[]] w1]; cbn [fst snd]; [reflexivity|].
  unfold bind at 1. rewrite renderGallery_run. reflexivity.
Qed.

(** X16.  [handleDelete] asks first.  For an id that no record has it does
    nothing, and does not ask.  For a record of the catalog it asks, naming
    the file; when the answer is no, nothing else happens: the store is not
    called, and the catalog, the form and the storage are as they were. *)
Theorem handleDelete_asks_first (e : Env) (w : World)
    (c : list MediaRecord.t) :
  mediaItems (appState w) = catalog_value c ->
  NoDup (ids c) ->
  (forall id answer,
     id ∉ ids c -> handleDelete e answer id w = (inr tt, w))
  /\ (forall i r,
        c !! i = Some r ->
        handleDelete e false (MediaRecord.id r) w
        = (inr tt, add_events [delete_question r] w)).
Proof.
  intros Hw Hnd. split.
  - intros id answer Habsent. unfold handleDelete, bind at 1.
    rewrite (find_id_catalog _ w c Hw).
    replace (index_of id c) with (@None nat)
      by (symmetry; apply index_of_None; assumption).
    reflexivity.
  - intros i r Hi. unfold handleDelete, bind at 1.
    rewrite (find_id_catalog _ w c Hw).
    rewrite (index_of_NoDup c i r Hnd Hi), Hi. reflexivity.
Qed.

Lemma handleDelete_asks_first_witness :
  handleDelete noon true (js "no-such-id") (world_of [cat_photo; dog_video] roomy)
  = (inr tt, world_of [cat_photo; dog_video] roomy)
  /\ handleDelete noon false (MediaRecord.id dog_video)
       (world_of [cat_photo; dog_video] roomy)
     = (inr tt,
        add_events
          [Confirm (jsq "Are you sure you want to delete 'dog.mp4'?")]
          (world_of [cat_photo; dog_video] roomy)).
Proof.
  destruct (handleDelete_asks_first noon (world_of [cat_photo; dog_video] roomy)
              [cat_photo; dog_video] eq_refl NoDup_ids_two) as [Habsent Hno].
  split.
  - apply Habsent. intros H.
    apply elem_of_cons in H as [H|H]; [discriminate|].
    apply list_elem_of_singleton in H. discriminate.
  - exact (Hno 1%nat dog_video eq_refl).
Defined.

(** X17.  A confirmed delete.  For a record of a catalog with distinct ids,
    when the answer is yes: with room in the storage, [handleDelete]
    removes the record (the others stay, in their order), writes both
    slots, draws the gallery without it and reports the deletion; when the
    write fails, the record is removed from the catalog in memory all the
    same, the message is the one of a failed deletion, and the gallery is
    not drawn again. *)
Theorem handleDelete_confirmed (e : Env) (w : World) (c : list MediaRecord.t)
    (i : nat) (r : MediaRecord.t) :
  let text :=
    JSON_stringify (snapshot_of (catalog_value (delete i c)) (iso_first e)) in
  let after st events :=
    {| appState := {| mediaItems := catalog_value (delete i c);
                      currentEditId := currentEditId (appState w);
                      isLoading := isLoading (appState w) |};
       dom := dom w;
       localStorage := st;
       trace := trace w ++ delete_question r
                           :: DeleteMedia (MediaRecord.id r) :: events |} in
  mediaItems (appState w) = catalog_value c ->
  NoDup (ids c) ->
  c !! i = Some r ->
  (forall st2,
     written text (localStorage w) = Some st2 ->
     handleDelete e true (MediaRecord.id r) w
     = (inr tt,
        after st2
          [SetItem MockBackendAPI.storageKey;
           SetItem MockBackendAPI.backupKey;
           GetMedia;
           Render (MediaRecord.to_value <$> delete i c);
           ShowMessage (js "Media item deleted successfully!")
             success_message]))
  /\ (written text (localStorage w) = None ->
      exists writes st',
        handleDelete e true (MediaRecord.id r) w
        = (inr tt,
           after st'
             (writes
              ++ [ShowMessage
                    (js "Failed to delete media item. Please try again.")
                    error_message]))
        /\ (writes = [SetItem MockBackendAPI.storageKey]
            \/ writes = [SetItem MockBackendAPI.storageKey;
                         SetItem MockBackendAPI.backupKey])).
Proof.
  intros text after Hw Hnd Hi.
  rewrite (handleDelete_run e w c i r Hw Hnd Hi). cbv zeta.
  rewrite (deleteMedia_catalog e (add_event (delete_question r) w) c i r Hw
             Hnd Hi).
  rewrite saveToStorage_written.
  cbn [localStorage set_app add_event appState dom trace]. fold text.
  split.
  - intros st2 Hwritten. rewrite Hwritten. cbn [fst snd].
    rewrite (renderGallery_catalog _ (delete i c)) by reflexivity.
    cbn [snd]. unfold after, add_event, add_events, set_mediaItems.
    cbn [appState dom localStorage trace].
    rewrite <- !app_assoc. reflexivity.
  - intros Hwritten. rewrite Hwritten. cbn [fst snd].
    destruct (write_item MockBackendAPI.storageKey text (localStorage w))
      as [err|st1].
    + exists [SetItem MockBackendAPI.storageKey], (localStorage w).
      split; [|left; reflexivity].
      unfold after, set_app, add_event, add_events, set_mediaItems.
      cbn [appState dom localStorage trace app].
      rewrite <- ?app_assoc. reflexivity.
    + exists [SetItem MockBackendAPI.storageKey;
              SetItem MockBackendAPI.backupKey], st1.
      split; [|right; reflexivity].
      unfold after, set_app, add_event, add_events, set_mediaItems.
      cbn [appState dom localStorage trace app].
      rewrite <- ?app_assoc. reflexivity.
Qed.

Lemma handleDelete_confirmed_witness :
  let w := world_of [cat_photo; dog_video] roomy in
  exists st2,
    handleDelete one_pm true (MediaRecord.id cat_photo) w
    = (inr tt,
       {| appState := {| mediaItems := catalog_value [dog_video];
                         currentEditId := None;
                         isLoading := false |};
          dom := empty_form;
          localStorage := st2;
          trace :=
            [Confirm (jsq "Are you sure you want to delete 'a.png'?");
             DeleteMedia (MediaRecord.id cat_photo);
             SetItem MockBackendAPI.storageKey;
             SetItem MockBackendAPI.backupKey;
             GetMedia;
             Render (MediaRecord.to_value <$> [dog_video]);
             ShowMessage (js "Media item deleted successfully!")
               success_message] |}).
Proof.
  intros w. eexists.
  refine (proj1 (handleDelete_confirmed one_pm w [cat_photo; dog_video] 0
                   cat_photo eq_refl NoDup_ids_two eq_refl) _ _).
  vm_compute. reflexivity.
Defined.

(** ** The edit form, opened and saved *)


Lemma trimStart_trimStart (s : jstring) : trimStart (trimStart s) = trimStart s.
Proof.
  induction s as [|c s IH]; [reflexivity|]. simpl.
  destruct (is_js_whitespace c) eqn:Hc; [exact IH|].
  simpl. rewrite Hc. reflexivity.
Qed.

Lemma trimStart_suffix (s : jstring) : exists p, s = p ++ trimStart s.
Proof.
  induction s as [|c s [p Hp]]; [exists []; reflexivity|]. simpl.
  destruct (is_js_whitespace c).
  - exists (c :: p). simpl. f_equal. exact Hp.
  - exists []. reflexivity.
Qed.

(** What [trim] returns, [trim] leaves as it is. *)
Lemma trim_trim (s : jstring) : trim (trim s) = trim s.
Proof.
  unfold trim. set (a := trimStart s). set (b := trimStart (rev a)).
  assert (trimStart a = a) as Ha by apply trimStart_trimStart.
  assert (trimStart b = b) as Hb by apply trimStart_trimStart.
  assert (trimStart (rev b) = rev b) as Hrev.
  { destruct (trimStart_suffix (rev a)) as [p Hp]. fold b in Hp.
    apply (f_equal (@rev N)) in Hp. rewrite rev_involutive, rev_app_distr in Hp.
    destruct (rev b) as [|c b'] eqn:Hrb; [reflexivity|].
    rewrite Hp in Ha.
    assert (trimStart ((c :: b') ++ rev p) = (c :: b') ++ rev p) as H
      by exact Ha.
    simpl in H |- *. destruct (is_js_whitespace c) eqn:Hc; [|reflexivity].
    exfalso. destruct (trimStart_suffix (b' ++ rev p)) as [q Hq].
    apply (f_equal (@length N)) in H. rewrite Hq in H at 2.
    simpl in H. rewrite length_app in H. lia. }
  rewrite Hrev, rev_involutive, Hb. reflexivity.
Qed.

Lemma openEditModal_run (w : World) (c : list MediaRecord.t) (i : nat)
    (r : MediaRecord.t) :
  mediaItems (appState w) = catalog_value c ->
  NoDup (ids c) ->
  c !! i = Some r ->
  openEditModal (MediaRecord.id r) w
  = (inr tt,
     set_dom (set_edit (MediaRecord.description r) true)
       (set_app (set_currentEditId (Some (MediaRecord.id r))) w)).
Proof.
  intros Hw Hnd Hi. unfold openEditModal, bind at 1.
  rewrite (find_id_catalog _ w c Hw), (index_of_NoDup c i r Hnd Hi), Hi.
  reflexivity.
Qed.

Lemma with_description_same (r : MediaRecord.t) :
  MediaRecord.with_description (MediaRecord.description r) r = r.
Proof. destruct r. reflexivity. Qed.

(** X18.  Opening the edit form and saving it unchanged.  [openEditModal]
    of a record of the catalog marks the record as the one being edited and
    puts its description into the edit form (of an id that no record has,
    it does nothing).  When the description is one that [handleUpload] or
    [handleSaveEdit] stored (the trimmed text of a form, not empty, at most
    500 characters) and holds no line break (which a form field may
    rewrite), [handleSaveEdit] right after leaves every record of the
    catalog as it was, whether or not the write succeeds. *)
Theorem edit_without_change (e : Env) (w : World) (c : list MediaRecord.t)
    (i : nat) (r : MediaRecord.t) (typed_text : jstring) :
  let opened := snd (openEditModal (MediaRecord.id r) w) in
  mediaItems (appState w) = catalog_value c ->
  NoDup (ids c) ->
  c !! i = Some r ->
  MediaRecord.id r <> [] ->
  MediaRecord.description r = trim typed_text ->
  MediaRecord.description r <> [] ->
  (length (MediaRecord.description r) <= 500)%nat ->
  Forall (fun u => u <> 10 /\ u <> 13) (MediaRecord.description r) ->
  currentEditId (appState opened) = Some (MediaRecord.id r)
  /\ editDescriptionInput_value (dom opened) = MediaRecord.description r
  /\ editModal_show (dom opened) = true
  /\ mediaItems (appState opened) = catalog_value c
  /\ fst (handleSaveEdit e opened) = inr tt
  /\ mediaItems (appState (snd (handleSaveEdit e opened))) = catalog_value c
  /\ forall id, id ∉ ids c -> openEditModal id w = (inr tt, w).
Proof.
  intros opened Hw Hnd Hi Hne Htyped Hd Hlen _. unfold opened.
  assert (trim (MediaRecord.description r) = MediaRecord.description r)
    as Htrim by (rewrite Htyped; apply trim_trim).
  rewrite (openEditModal_run w c i r Hw Hnd Hi). cbn [snd].
  set (w1 := set_dom _ _).
  split; [reflexivity|]. split; [reflexivity|]. split; [reflexivity|].
  split; [exact Hw|].
  assert (mediaItems (appState w1) = catalog_value c) as Hw1 by exact Hw.
  rewrite (handleSaveEdit_run e w1 (MediaRecord.id r)
             (MediaRecord.description r) eq_refl Hne Htrim Hd Hlen).
  split; [reflexivity|]. split.
  - cbv zeta. cbn [snd].
    rewrite (updateMedia_description_run e _ w1 c i r Hw1 Hnd Hi). cbv zeta.
    rewrite with_description_same, (list_insert_id c i r Hi).
    rewrite saveToStorage_written.
    cbn [localStorage set_app add_event appState dom trace].
    destruct (written _ _) as [st2|]; cbn [after_save fst snd].
    + rewrite closeEditModal_run. cbn [snd].
      rewrite (renderGallery_catalog _ c) by reflexivity. reflexivity.
    + destruct (write_item _ _ _); reflexivity.
  - intros id Habsent. unfold openEditModal, bind at 1.
    rewrite (find_id_catalog _ w c Hw).
    replace (index_of id c) with (@None nat)
      by (symmetry; apply index_of_None; assumption).
    reflexivity.
Qed.

Lemma edit_without_change_witness :
  let w := world_of [cat_photo; dog_video] tight in
  let opened := snd (openEditModal (MediaRecord.id dog_video) w) in
  currentEditId (appState opened) = Some (MediaRecord.id dog_video)
  /\ editDescriptionInput_value (dom opened) = js "dog video"
  /\ editModal_show (dom opened) = true
  /\ mediaItems (appState opened) = catalog_value [cat_photo; dog_video]
  /\ fst (handleSaveEdit noon opened) = inr tt
  /\ mediaItems (appState (snd (handleSaveEdit noon opened)))
     = catalog_value [cat_photo; dog_video]
  /\ forall id,
       id ∉ ids [cat_photo; dog_video] -> openEditModal id w = (inr tt, w).
Proof.
  intros w opened.
  refine (edit_without_change noon w [cat_photo; dog_video] 1 dog_video
            (js "  dog video ") eq_refl NoDup_ids_two eq_refl _ _ _ _ _).
  - discriminate.
  - vm_compute. reflexivity.
  - discriminate.
  - vm_compute. lia.
  - repeat constructor; discriminate.
Defined.

(** ** The start of the page *)

(** X19.  What was saved is shown after a reload.  When [saveToStorage] of
    the snapshot of a catalog returned, the start of the page on the
    storage it left loads that catalog from the primary slot alone and
    draws its records, in their order.  On any storage at all, the start
    of the page does not throw and writes nothing. *)
Theorem startup_shows_what_was_saved (c : list MediaRecord.t)
    (lastUpdated : jstring) (w w' : World) :
  let saved :=
    MockBackendAPI.saveToStorage (snapshot_of (catalog_value c) lastUpdated) w
  in
  Forall MediaRecord.safe c ->
  fst saved = inr tt ->
  localStorage w' = localStorage (snd saved) ->
  startup w'
  = (inr tt,
     {| appState := {| mediaItems := catalog_value c;
                       currentEditId := currentEditId (appState w');
                       isLoading := isLoading (appState w') |};
        dom := dom w';
        localStorage := localStorage w';
        trace := trace w' ++ [GetItem MockBackendAPI.storageKey;
                              GetMedia;
                              Render (MediaRecord.to_value <$> c)] |})
  /\ forall w'',
       fst (startup w'') = inr tt
       /\ localStorage (snd (startup w'')) = localStorage w''.
Proof.
  intros saved Hsafe Hsaved Hw'. split.
  - destruct (saveToStorage_stored _ _ Hsaved) as [Hprimary _].
    fold saved in Hprimary. rewrite <- Hw' in Hprimary.
    unfold startup, bind.
    rewrite (init_loads_snapshot (catalog_value c) lastUpdated w'
               (storable_catalog c Hsafe) eq_refl Hprimary).
    rewrite (renderGallery_catalog _ c) by reflexivity.
    unfold set_app, add_event, add_events, set_mediaItems.
    cbn [appState dom localStorage trace app].
    rewrite <- ?app_assoc. reflexivity.
  - intros w''. unfold startup, bind. rewrite init_run, renderGallery_run.
    split; reflexivity.
Qed.

Lemma startup_shows_what_was_saved_witness :
  let saved :=
    MockBackendAPI.saveToStorage
      (snapshot_of (catalog_value [cat_photo; dog_video])
         (js "2023-11-14T22:13:22.000Z"))
      (world_of [cat_photo; dog_video] roomy) in
  let reloaded := world_of [] (localStorage (snd saved)) in
  fst saved = inr tt
  /\ fst (startup reloaded) = inr tt
  /\ mediaItems (appState (snd (startup reloaded)))
     = catalog_value [cat_photo; dog_video]
  /\ trace (snd (startup reloaded))
     = [GetItem MockBackendAPI.storageKey;
        GetMedia;
        Render (MediaRecord.to_value <$> [cat_photo; dog_video])].
Proof.
  intros saved reloaded.
  assert (fst saved = inr tt) as Hsaved by (vm_compute; reflexivity).
  split; [exact Hsaved|].
  rewrite (proj1 (startup_shows_what_was_saved [cat_photo; dog_video]
                    (js "2023-11-14T22:13:22.000Z")
                    (world_of [cat_photo; dog_video] roomy) reloaded
                    safe_two Hsaved eq_refl)).
  repeat split; reflexivity.
Defined.

(** ** Text put into the page *)

Lemma escape_unit_plain (c : N) :
  c <> 38 -> c <> 160 -> c <> 60 -> c <> 62 -> escape_unit c = [c].
Proof.
  intros H1 H2 H3 H4. unfold escape_unit.
  destruct (N.eqb_spec c 38); [contradiction|].
  destruct (N.eqb_spec c 160); [contradiction|].
  destruct (N.eqb_spec c 60); [contradiction|].
  destruct (N.eqb_spec c 62); [contradiction|].
  reflexivity.
Qed.

Lemma escape_unit_cases (c : N) :
  (c = 38 /\ escape_unit c = amp_text)
  \/ (c = 160 /\ escape_unit c = nbsp_text)
  \/ (c = 60 /\ escape_unit c = lt_text)
  \/ (c = 62 /\ escape_unit c = gt_text)
  \/ (c <> 38 /\ c <> 160 /\ c <> 60 /\ c <> 62 /\ escape_unit c = [c]).
Proof.
  unfold escape_unit.
  destruct (N.eqb_spec c 38); [auto|].
  destruct (N.eqb_spec c 160); [auto|].
  destruct (N.eqb_spec c 60); [auto 6|].
  destruct (N.eqb_spec c 62); [auto 6|].
  auto 10.
Qed.

Lemma escape_unit_inj (c d : N) (x y : jstring) :
  escape_unit c ++ x = escape_unit d ++ y -> c = d /\ x = y.
Proof.
  destruct (escape_unit_cases c)
    as [[-> ->]|[[-> ->]|[[-> ->]|[[-> ->]|(Hc1 & Hc2 & Hc3 & Hc4 & ->)]]]];
  destruct (escape_unit_cases d)
    as [[-> ->]|[[-> ->]|[[-> ->]|[[-> ->]|(Hd1 & Hd2 & Hd3 & Hd4 & ->)]]]];
  unfold amp_text, nbsp_text, lt_text, gt_text; simpl; intros H;
  try discriminate; injection H as ?; subst; try contradiction; auto;
  try (split; [reflexivity | congruence]).
Qed.

(** X20.  [escapeHtml] leaves no markup.  Its result holds neither [<] nor
    [>], whatever the text; a text without [&], [<], [>] and the no-break
    space is returned as it is; and the result for a text in two parts is
    the results for the parts, one after the other. *)
Theorem escapeHtml_leaves_no_markup (text : jstring) :
  Forall (fun c => c <> 60 /\ c <> 62) (escapeHtml text)
  /\ (Forall (fun c => c <> 38 /\ c <> 160 /\ c <> 60 /\ c <> 62) text ->
      escapeHtml text = text)
  /\ forall more, escapeHtml (text ++ more) = escapeHtml text ++ escapeHtml more.
Proof.
  unfold escapeHtml. split; [|split].
  - induction text as [|c text IH]; [constructor|].
    cbn [flat_map]. apply Forall_app. split; [|exact IH].
    destruct (escape_unit_cases c)
      as [[_ ->]|[[_ ->]|[[_ ->]|[[_ ->]|(_ & _ & H3 & H4 & ->)]]]];
      unfold amp_text, nbsp_text, lt_text, gt_text;
      repeat constructor; try discriminate; assumption.
  - induction 1 as [|c text (H1 & H2 & H3 & H4) _ IH]; [reflexivity|].
    cbn [flat_map]. rewrite escape_unit_plain by assumption.
    rewrite IH. reflexivity.
  - intros more. apply flat_map_app.
Qed.

(** X21.  [escapeHtml] loses nothing: two texts with the same result are
    the same text. *)
Theorem escapeHtml_inj (text text' : jstring) :
  escapeHtml text = escapeHtml text' -> text = text'.
Proof.
  unfold escapeHtml. revert text'.
  induction text as [|c text IH]; intros [|d text']; cbn [flat_map].
  - reflexivity.
  - intros H. exfalso.
    destruct (escape_unit_cases d)
      as [[_ Hd]|[[_ Hd]|[[_ Hd]|[[_ Hd]|(_ & _ & _ & _ & Hd)]]]];
      rewrite Hd in H; discriminate.
  - intros H. exfalso.
    destruct (escape_unit_cases c)
      as [[_ Hc]|[[_ Hc]|[[_ Hc]|[[_ Hc]|(_ & _ & _ & _ & Hc)]]]];
      rewrite Hc in H; discriminate.
  - intros H. apply escape_unit_inj in H as [-> H].
    rewrite (IH _ H). reflexivity.
Qed.

Lemma escapeHtml_inj_witness :
  escapeHtml (js "<b>Tom & Jerry</b>") = js "&lt;b&gt;Tom &amp; Jerry&lt;/b&gt;"
  /\ js "<b>Tom & Jerry</b>" = js "<b>Tom & Jerry</b>".
Proof.
  split; [reflexivity|].
  exact (escapeHtml_inj (js "<b>Tom & Jerry</b>") (js "<b>Tom & Jerry</b>")
           eq_refl).
Defined.

(** ** The kind of a file *)

Lemma getFileType_cases (mimeType : jstring) :
  Utils.getFileType mimeType = js "image"
  \/ Utils.getFileType mimeType = js "video"
  \/ Utils.getFileType mimeType = js "audio"
  \/ Utils.getFileType mimeType = js "unknown".
Proof.
  unfold Utils.getFileType.
  destruct (startsWith mimeType (js "image/")); [auto|].
  destruct (startsWith mimeType (js "video/")); [auto|].
  destruct (startsWith mimeType (js "audio/")); auto.
Qed.

(** X22.  Every file the upload accepts has a kind and an icon of its own.
    For a file whose type [isValidFileType] accepts, [getFileType] is
    [image], [video] or [audio], never [unknown], and [getFileIcon] of it
    is the icon of that kind.  For any MIME type at all, [getFileIcon] of
    [getFileType] is one of the four icons. *)
Theorem valid_file_has_its_icon (file : File) :
  Utils.isValidFileType file = true ->
  let kind := Utils.getFileType (file_type file) in
  ((kind = js "image" /\ Utils.getFileIcon kind = Some Utils.icon_image)
   \/ (kind = js "video" /\ Utils.getFileIcon kind = Some Utils.icon_video)
   \/ (kind = js "audio" /\ Utils.getFileIcon kind = Some Utils.icon_audio))
  /\ forall mimeType,
       In (Utils.getFileIcon (Utils.getFileType mimeType))
          [Some Utils.icon_image; Some Utils.icon_video;
           Some Utils.icon_audio; Some Utils.icon_unknown].
Proof.
  intros Hvalid kind. split.
  - unfold kind. unfold Utils.isValidFileType, includes, Utils.validTypes in Hvalid.
    cbn [existsb] in Hvalid.
    repeat (apply orb_true_iff in Hvalid as [Hvalid|Hvalid];
            [apply jstring_eqb_eq in Hvalid; rewrite Hvalid;
             vm_compute; auto 6|]).
    discriminate.
  - intros mimeType.
    destruct (getFileType_cases mimeType) as [-> | [-> | [-> | ->]]];
      vm_compute; auto 6.
Qed.

Lemma valid_file_has_its_icon_witness :
  Utils.getFileType (file_type a_png) = js "image"
  /\ Utils.getFileIcon (Utils.getFileType (file_type a_png))
     = Some Utils.icon_image.
Proof.
  destruct (proj1 (valid_file_has_its_icon a_png eq_refl))
    as [H|[[H _]|[H _]]]; [exact H | discriminate H | discriminate H].
Defined.

(** ** The id, once more *)

Lemma radix_36_digits (fuel : nat) (n : N) (acc : jstring) :
  Forall (fun u => 48 <= u <= 57 \/ 97 <= u <= 122) acc ->
  Forall (fun u => 48 <= u <= 57 \/ 97 <= u <= 122) (radix_36 fuel n acc).
Proof.
  revert n acc. induction fuel as [|fuel IH]; intros n acc Hacc; [exact Hacc|].
  cbn [radix_36].
  assert (Forall (fun u => 48 <= u <= 57 \/ 97 <= u <= 122)
            (digit_36 (n mod 36) :: acc)) as Hacc'.
  { constructor; [|exact Hacc]. unfold digit_36.
    pose proof (N.mod_upper_bound n 36 ltac:(lia)) as Hm.
    set (m := n mod 36) in *. clearbody m.
    destruct (m <? 10) eqn:Hd;
      [apply N.ltb_lt in Hd | apply N.ltb_ge in Hd]; cbv beta; lia. }
  destruct (n / 36 =? 0); [exact Hacc' | apply IH; exact Hacc'].
Qed.

Lemma radix_36_not_empty (fuel : nat) (n : N) (acc : jstring) :
  (0 < length (radix_36 (S fuel) n acc))%nat.
Proof.
  revert n acc. induction fuel as [|fuel IH]; intros n acc.
  - cbn [radix_36]. destruct (n / 36 =? 0); simpl; lia.
  - change (radix_36 (S (S fuel)) n acc)
      with (let acc' := digit_36 (n mod 36) :: acc in
            if n / 36 =? 0 then acc' else radix_36 (S fuel) (n / 36) acc').
    cbv zeta. destruct (n / 36 =? 0); [simpl; lia | apply IH].
Qed.

(** X23.  An id begins with the time it was made at.  The id
    [generateId] makes is a numeral in base 36, of digits and small
    letters and not empty, followed by the random part; the numeral read
    back in base 36 is the reading of the clock.  So no record gets an
    empty id. *)
Theorem generateId_begins_with_the_time (e : Env) :
  exists stamp,
    Utils.generateId e = stamp ++ substr 2 (random_36 e)
    /\ (0 < length stamp)%nat
    /\ Forall (fun u => 48 <= u <= 57 \/ 97 <= u <= 122) stamp
    /\ decode_36 stamp = clock_ms e
    /\ (0 < length (Utils.generateId e))%nat.
Proof.
  exists (toString_36 (clock_ms e)).
  assert (0 < length (toString_36 (clock_ms e)))%nat as Hlen
    by apply radix_36_not_empty.
  split; [reflexivity|]. split; [exact Hlen|].
  split; [apply radix_36_digits; constructor|].
  split; [apply decode_36_toString_36|].
  unfold Utils.generateId. rewrite length_app. lia.
Qed.

(** ** Ids that repeat *)

Lemma index_of_first (id : jstring) (c : list MediaRecord.t) (i : nat) :
  index_of id c = Some i ->
  forall j r, (j < i)%nat -> c !! j = Some r -> MediaRecord.id r <> id.
Proof.
  revert i. induction c as [|r0 c IH]; intros i; simpl; [discriminate|].
  destruct (jstring_eqb (MediaRecord.id r0) id) eqn:Hid.
  - intros [= <-] j r Hj. lia.
  - destruct (index_of id c) as [i'|]; [|discriminate].
    intros [= <-] [|j] r Hj Hr; simpl in Hr.
    + injection Hr as <-. apply jstring_eqb_neq. exact Hid.
    + apply (IH i' eq_refl j r); [lia | exact Hr].
Qed.

(** X24.  When ids repeat, the store acts on the first record with the
    id.  Whatever the ids of the catalog, an update of the description and
    [deleteMedia] of an id that some record has change, or remove, the
    first record with that id and no other: a later record with the same
    id stays as it is, and is still listed after the [deleteMedia]. *)
Theorem first_match_only (e : Env) (d id : jstring) (w : World)
    (c : list MediaRecord.t) (i : nat) :
  mediaItems (appState w) = catalog_value c ->
  index_of id c = Some i ->
  exists r,
    c !! i = Some r
    /\ MediaRecord.id r = id
    /\ (forall j r', (j < i)%nat -> c !! j = Some r' -> MediaRecord.id r' <> id)
    /\ mutated (MockBackendAPI.updateMedia e id
                  (VObj [(k_description, VStr d)]) w)
         (MediaRecord.to_value (MediaRecord.with_description d r))
         (catalog_value (<[i := MediaRecord.with_description d r]> c))
         (iso_first e)
    /\ mutated (MockBackendAPI.deleteMedia e id w)
         tt (catalog_value (delete i c)) (iso_first e)
    /\ forall j r',
         (i < j)%nat -> c !! j = Some r' -> delete i c !! (j - 1)%nat = Some r'.
Proof.
  intros Hw Hindex.
  destruct (index_of_Some id c i Hindex) as (r & Hi & Hid).
  assert (findIndex_id id (MediaRecord.to_value <$> c) = inr (Some i)) as Hfind
    by (rewrite findIndex_id_catalog; f_equal; exact Hindex).
  exists r. split; [exact Hi|]. split; [exact Hid|].
  split; [exact (index_of_first id c i Hindex)|]. split; [|split].
  - rewrite (updateMedia_run e _ _ w _ i Hw Hfind). cbv zeta.
    rewrite (lookup_catalog c i r Hi), merge_description.
    unfold catalog_value. rewrite list_fmap_insert.
    apply after_save_mutated. reflexivity.
  - rewrite (deleteMedia_run e _ w _ i Hw Hfind).
    rewrite <- list_fmap_delete.
    pose proof (after_save_mutated tt (catalog_value (delete i c))
                  (iso_first e)
                  (set_app (set_mediaItems (catalog_value (delete i c)))
                     (add_event (DeleteMedia id) w)) eq_refl) as H.
    rewrite after_save_tt in H. exact H.
  - intros j r' Hj Hr'. rewrite list_lookup_delete_ge by lia.
    replace (S (j - 1)) with j by lia. exact Hr'.
Qed.

Lemma first_match_only_witness :
  let c := [cat_photo; dog_video; cat_photo] in
  let w := world_of c roomy in
  mutated (MockBackendAPI.deleteMedia noon (MediaRecord.id cat_photo) w)
    tt (catalog_value [dog_video; cat_photo]) (iso_first noon)
  /\ mutated (MockBackendAPI.updateMedia noon (MediaRecord.id cat_photo)
                (VObj [(k_description, VStr (js "new cat photo"))]) w)
       (MediaRecord.to_value
          (MediaRecord.with_description (js "new cat photo") cat_photo))
       (catalog_value
          [MediaRecord.with_description (js "new cat photo") cat_photo;
           dog_video; cat_photo])
       (iso_first noon).
Proof.
  intros c w.
  destruct (first_match_only noon (js "new cat photo")
              (MediaRecord.id cat_photo) w c 0 eq_refl eq_refl)
    as (r & Hr & _ & _ & Hupdated & Hdeleted & _).
  injection Hr as <-. split; [exact Hdeleted | exact Hupdated].
Defined.

(** ** A primary slot that parses *)

(** X25.  A primary slot that can be read hides the backup slot, whatever
    it holds.  When the primary slot holds the empty string, or a text that
    parses to anything but an object with a truthy [mediaItems] ([null], a
    number, an array, an object without the key), [init] leaves an empty
    catalog and does not read the backup slot: only a primary slot whose
    reading or parsing throws makes [loadFromStorage] turn to the backup. *)
Theorem unusable_primary_hides_the_backup (w : World) (text : jstring) :
  read_item MockBackendAPI.storageKey (localStorage w) = inr (Some text) ->
  (text = []
   \/ exists data,
        JSON_parse text = Some data
        /\ forall o, data = VObj o -> truthy (obj_get k_mediaItems o) = false) ->
  fst (MockBackendAPI.init w) = inr tt
  /\ mediaItems (appState (snd (MockBackendAPI.init w))) = VArr []
  /\ trace (snd (MockBackendAPI.init w))
     = trace w ++ [GetItem MockBackendAPI.storageKey].
Proof.
  intros Hread Htext. rewrite init_run. unfold load_result, load_item.
  rewrite Hread. destruct Htext as [->|(data & Hparse & Hfalsy)].
  { repeat split; reflexivity. }
  destruct text as [|c text]; [rewrite JSON_parse_empty in Hparse; discriminate|].
  rewrite Hparse. cbn [fst snd add_events set_app appState trace set_mediaItems
                         mediaItems].
  split; [reflexivity|]. split; [|reflexivity].
  unfold catalog_from, js_or.
  destruct data as [| |b|z|lit|s|l|o]; try reflexivity.
  cbn [get_prop]. rewrite (Hfalsy o eq_refl). reflexivity.
Qed.

Lemma unusable_primary_hides_the_backup_witness :
  let st :=
    {| items := [(MockBackendAPI.storageKey, js "null");
                 (MockBackendAPI.backupKey,
                  JSON_stringify
                    (snapshot_of (catalog_value [cat_photo])
                       (js "2023-11-14T22:13:20.001Z")))];
       quota := 5000000;
       denied := [] |} in
  load_item MockBackendAPI.backupKey st
  = inr (snapshot_of (catalog_value [cat_photo]) (js "2023-11-14T22:13:20.001Z"))
  /\ fst (MockBackendAPI.init (world_of [] st)) = inr tt
  /\ mediaItems (appState (snd (MockBackendAPI.init (world_of [] st)))) = VArr []
  /\ trace (snd (MockBackendAPI.init (world_of [] st)))
     = [GetItem MockBackendAPI.storageKey].
Proof.
  intros st. split; [vm_compute; reflexivity|].
  refine (unusable_primary_hides_the_backup (world_of [] st) (js "null")
            eq_refl _).
  right. exists VNull. split; [vm_compute; reflexivity | discriminate].
Defined.

(** ** A new record, and its id *)

(** X26.  [createMedia] appends.  For every catalog of records and every
    file, [createMedia] gives the new record the id [generateId] makes of
    the clock and the random number, appends the record at the end of the
    catalog (the records before it unchanged, in their order), and returns
    it, or throws StorageUnavailable when the write fails; [getMedia] right
    after lists the new record last.  When that id is not yet in a catalog
    of distinct ids, the ids stay distinct and the id matches exactly one
    record of that list: the new one.  An id made with a timestamp of as
    many digits is the same id only when it was made at the same
    millisecond with the same random digits. *)
Theorem createMedia_appends_at_the_end (e : Env)
    (fileName description fileType : jstring) (fileSize : N)
    (w : World) (c : list MediaRecord.t) :
  mediaItems (appState w) = catalog_value c ->
  let new := created_record e fileName description fileType fileSize in
  let created :=
    MockBackendAPI.createMedia e
      (mediaData_of fileName description fileType fileSize) w in
  MediaRecord.id new = Utils.generateId e
  /\ mediaItems (appState (snd created)) = catalog_value (c ++ [new])
  /\ (fst created = inr (MediaRecord.to_value new)
      \/ fst created = inl StorageUnavailable)
  /\ fst (MockBackendAPI.getMedia (snd created))
     = inr (catalog_value (c ++ [new]))
  /\ (forall j r, c !! j = Some r -> (c ++ [new]) !! j = Some r)
  /\ (c ++ [new]) !! length c = Some new
  /\ (NoDup (ids c) ->
      Utils.generateId e ∉ ids c ->
      NoDup (ids (c ++ [new]))
      /\ forall j r, (c ++ [new]) !! j = Some r ->
           (MediaRecord.id r = MediaRecord.id new <-> j = length c))
  /\ forall e',
       length (toString_36 (clock_ms e')) = length (toString_36 (clock_ms e)) ->
       Utils.generateId e' = Utils.generateId e ->
       clock_ms e' = clock_ms e
       /\ substr 2 (random_36 e') = substr 2 (random_36 e).
Proof.
  intros Hw new created.
  destruct (createMedia_mutated e w c fileName description
              fileType fileSize Hw) as [Hmem Hres].
  fold new created in Hmem, Hres.
  split; [reflexivity|]. split; [assumption|]. split; [tauto|].
  split; [rewrite (getMedia_run (snd created) _ Hmem); reflexivity|].
  split; [intros j r Hj; apply lookup_app_l_Some; exact Hj|].
  split; [rewrite lookup_app_r, Nat.sub_diag by lia; reflexivity|].
  split; [|intros e'; apply generateId_inj].
  intros Hnd Hfresh. split.
  - rewrite ids_app. apply NoDup_app. split; [assumption|].
    split; [|apply NoDup_singleton].
    intros x Hx Hin. apply list_elem_of_singleton in Hin. subst x.
    exact (Hfresh Hx).
  - intros j r Hj. split.
    + intros Hid.
      destruct (decide (j < length c)%nat) as [Hlt|Hge].
      * exfalso. rewrite lookup_app_l in Hj by assumption.
        apply Hfresh. change (Utils.generateId e) with (MediaRecord.id new).
        rewrite <- Hid. apply list_elem_of_fmap_2.
        apply list_elem_of_lookup. eauto.
      * apply lookup_lt_Some in Hj. rewrite length_app in Hj. simpl in Hj. lia.
    + intros ->. rewrite lookup_app_r in Hj by lia.
      rewrite Nat.sub_diag in Hj. injection Hj as <-. reflexivity.
Qed.

Lemma createMedia_appends_at_the_end_witness :
  let new := created_record noon (js "a.png") (js "cat photo") (js "image") 2048 in
  let first :=
    MockBackendAPI.createMedia noon
      (mediaData_of (js "a.png") (js "cat photo") (js "image") 2048)
      (world_of [] roomy) in
  let created :=
    MockBackendAPI.createMedia noon
      (mediaData_of (js "a.png") (js "cat photo") (js "image") 2048)
      (world_of [dog_video] roomy) in
  mediaItems (appState (snd first)) = catalog_value ([] ++ [new])
  /\ mediaItems (appState (snd created)) = catalog_value ([dog_video] ++ [new])
  /\ fst (MockBackendAPI.getMedia (snd created))
     = inr (catalog_value ([dog_video] ++ [new]))
  /\ NoDup (ids ([dog_video] ++ [new]))
  /\ forall j r, ([dog_video] ++ [new]) !! j = Some r ->
       (MediaRecord.id r = MediaRecord.id new <-> j = length [dog_video]).
Proof.
  intros new first created.
  destruct (createMedia_appends_at_the_end noon (js "a.png") (js "cat photo")
              (js "image") 2048 (world_of [] roomy) [] eq_refl)
    as (_ & Hfirst & _).
  destruct (createMedia_appends_at_the_end noon (js "a.png") (js "cat photo")
              (js "image") 2048 (world_of [dog_video] roomy) [dog_video]
              eq_refl)
    as (_ & Hmem & _ & Hlist & _ & _ & Hfresh & _).
  destruct (Hfresh NoDup_ids_one noon_id_fresh) as [Hnd Hone].
  split; [exact Hfirst|]. split; [exact Hmem|]. split; [exact Hlist|].
  split; [exact Hnd | exact Hone].
Defined.
